(** * Crypto Invaders: the wave-progression and engagement engine

    A shallow embedding of the [GameScene] class of the game (the version with
    lives, power-ups and continuous row respawning) together with the
    formation movement of the earlier variant, and the properties of the
    specification checked against it.

    Conventions of the embedding.
    - JavaScript numbers that hold coordinates, speeds and times are exact
      rationals ([Q]); counters are [nat], score, lives and the direction sign
      are [Z].  Rounding of IEEE doubles is not modelled.
    - The scene object [this] is the record [Game]; every method is a function
      [Game -> Game] that threads the record through the statements of the
      method in source order.
    - Phaser game objects carry an identity [oid] (JavaScript object identity),
      used where the source compares or removes objects ([indexOf], [destroy]).
    - [Math.random()] is an explicit argument: a rational in [0,1) per call.
    - The engine (clock, physics step, overlap callbacks, DOM clicks) is the
      environment: it is the type [Event], and a session is a list of events. *)

From Stdlib Require Import QArith Qround Qabs Qminmax ZArith List Bool Lia Lqa.
From stdpp Require Import gmap.
Import ListNotations.

Local Open Scope Q_scope.

(** ** Game parameters (module-level constants of the source) *)

Definition PLAYER_SPEED : Q := 300.
Definition BULLET_SPEED : Q := 500.
Definition ENEMY_BULLET_SPEED : Q := 200.
Definition ENEMY_HORIZONTAL_SPEED : Q := 30.
Definition ENEMY_DOWN_STEP : Q := 20.
Definition ENEMY_SHOOT_INTERVAL : Q := 5000.
Definition PLAYER_SHOOT_INTERVAL : Q := 750.
Definition ENEMY_ROWS : nat := 5.
Definition ENEMY_COLS : nat := 6.
Definition ENEMY_SPACING : Q := 50.
Definition BULLET_WIDTH : Q := 5.
Definition BULLET_HEIGHT : Q := 15.
Definition DIFFICULTY_ENEMY_SHOOT_PERCENTAGE : Q := 1 # 10.
Definition DIFFICULTY_ENEMY_SPEED_INCREASE : Q := 1 # 2.
Definition DIFFICULTY_SUPER_ALIENS_INCREASE_AFTER_LINES : nat := 5.
Definition POWERUP_SPAWN_AFTER_ROWS : nat := 10.
Definition POWERUP_DURATION : Q := 10000.
Definition POWERUP_SIZE : Q := 20.

(** [this.minTimeBetweenRowShots], set once in the constructor. *)
Definition minTimeBetweenRowShots : Q := 800.

(** Comparisons of JavaScript numbers, as booleans. *)
Definition Qgeb (a b : Q) : bool := Qle_bool b a.
Definition Qltb (a b : Q) : bool := negb (Qle_bool b a).
Definition Qgtb (a b : Q) : bool := negb (Qle_bool a b).

(** ** Game objects *)

(** The Arcade physics body of a game object. *)
Record Body := mkBody {
  enable : bool;
  velocityX : Q;
  velocityY : Q;
  gravityY : Q;
  allowGravity : bool
}.

(** What every Phaser game object of the scene has: position, unscaled size,
    scale, the [active] flag (false once destroyed) and an optional body. *)
Record GameObject := mkObject {
  oid : nat;
  x : Q;
  y : Q;
  width : Q;
  height : Q;
  scaleX : Q;
  scaleY : Q;
  active : bool;
  body : option Body
}.

(** An enemy is an image with the custom properties the source adds. *)
Record Enemy := mkEnemy {
  obj : GameObject;
  isAlive : bool;
  row : nat;
  isSuperAlien : bool;
  lastShotTime : Q
}.

Definition set_y (v : Q) (o : GameObject) : GameObject :=
  mkObject (oid o) (x o) v (width o) (height o) (scaleX o) (scaleY o)
    (active o) (body o).

Definition set_x (v : Q) (o : GameObject) : GameObject :=
  mkObject (oid o) v (y o) (width o) (height o) (scaleX o) (scaleY o)
    (active o) (body o).

Definition set_body (v : option Body) (o : GameObject) : GameObject :=
  mkObject (oid o) (x o) (y o) (width o) (height o) (scaleX o) (scaleY o)
    (active o) v.

Definition set_obj (v : GameObject) (e : Enemy) : Enemy :=
  mkEnemy v (isAlive e) (row e) (isSuperAlien e) (lastShotTime e).

(** The browser dimensions [sizes] and the sizes of the loaded textures
    (the image assets are not part of the sources). *)
Record Dimensions := mkDimensions { dim_width : Q; dim_height : Q }.

Record Textures := mkTextures {
  alienW : Q; alienH : Q;
  superAlienW : Q; superAlienH : Q;
  playerW : Q; playerH : Q
}.

(** Callbacks handed to [this.time.delayedCall]. *)
Inductive Callback :=
| ReleaseRowShooting    (* () => { this.rowShooting = null } *)
| ReleasePlayerHit.     (* () => { this.playerHitProcessing = false } *)

(** ** The scene *)

Record Game := mkGame {
  now : Q;  (* this.time.now: the scene clock, in milliseconds *)
  timers : list (Q * Callback);  (* pending this.time.delayedCall events, with their due times *)
  player : GameObject;  (* this.player *)
  enemies : list Enemy;  (* this.enemies (a plain array) *)
  playerBullets : list GameObject;  (* this.playerBullets.children *)
  enemyBullets : list GameObject;  (* this.enemyBullets.children *)
  score : Z;
  lives : Z;
  enemyDirection : Z;  (* 1 for right, -1 for left *)
  enemySpeed : Q;
  gameActive : bool;
  physicsPaused : bool;  (* this.physics.pause() / world.resume() *)
  gameStartDivShown : bool;  (* gameStartDiv.style.display is not 'none' *)
  gameEndDivShown : bool;  (* gameEndDiv.style.display is 'flex' *)
  enemyShootTimer : Q;
  playerShootTimer : Q;
  rowsCanShoot : gset nat;  (* rows that may still shoot in this volley *)
  rowShooting : option nat;  (* row holding the shooting lock; None is null *)
  playerHitProcessing : bool;
  lastSpawnedRowY : option Q;
  nextRowIndex : nat;
  lastSpawnCheckY : option Q;
  rowLastShotTime : gmap nat Q;
  spawnedRowCount : nat;
  powerUp : option GameObject;
  playerDoubleShot : bool;
  powerUpEndTime : Q;
  lastPowerUpSpawnRow : nat;
  nextId : nat  (* identity given to the next game object created *)
}.

Definition set_now (v : Q) (s : Game) : Game :=
  mkGame v (timers s) (player s) (enemies s) (playerBullets s)
    (enemyBullets s) (score s) (lives s) (enemyDirection s) (enemySpeed s)
    (gameActive s) (physicsPaused s) (gameStartDivShown s)
    (gameEndDivShown s) (enemyShootTimer s) (playerShootTimer s)
    (rowsCanShoot s) (rowShooting s) (playerHitProcessing s)
    (lastSpawnedRowY s) (nextRowIndex s) (lastSpawnCheckY s)
    (rowLastShotTime s) (spawnedRowCount s) (powerUp s) (playerDoubleShot s)
    (powerUpEndTime s) (lastPowerUpSpawnRow s) (nextId s).

Definition set_timers (v : list (Q * Callback)) (s : Game) : Game :=
  mkGame (now s) v (player s) (enemies s) (playerBullets s) (enemyBullets s)
    (score s) (lives s) (enemyDirection s) (enemySpeed s) (gameActive s)
    (physicsPaused s) (gameStartDivShown s) (gameEndDivShown s)
    (enemyShootTimer s) (playerShootTimer s) (rowsCanShoot s)
    (rowShooting s) (playerHitProcessing s) (lastSpawnedRowY s)
    (nextRowIndex s) (lastSpawnCheckY s) (rowLastShotTime s)
    (spawnedRowCount s) (powerUp s) (playerDoubleShot s) (powerUpEndTime s)
    (lastPowerUpSpawnRow s) (nextId s).

Definition set_player (v : GameObject) (s : Game) : Game :=
  mkGame (now s) (timers s) v (enemies s) (playerBullets s) (enemyBullets s)
    (score s) (lives s) (enemyDirection s) (enemySpeed s) (gameActive s)
    (physicsPaused s) (gameStartDivShown s) (gameEndDivShown s)
    (enemyShootTimer s) (playerShootTimer s) (rowsCanShoot s)
    (rowShooting s) (playerHitProcessing s) (lastSpawnedRowY s)
    (nextRowIndex s) (lastSpawnCheckY s) (rowLastShotTime s)
    (spawnedRowCount s) (powerUp s) (playerDoubleShot s) (powerUpEndTime s)
    (lastPowerUpSpawnRow s) (nextId s).

Definition set_enemies (v : list Enemy) (s : Game) : Game :=
  mkGame (now s) (timers s) (player s) v (playerBullets s) (enemyBullets s)
    (score s) (lives s) (enemyDirection s) (enemySpeed s) (gameActive s)
    (physicsPaused s) (gameStartDivShown s) (gameEndDivShown s)
    (enemyShootTimer s) (playerShootTimer s) (rowsCanShoot s)
    (rowShooting s) (playerHitProcessing s) (lastSpawnedRowY s)
    (nextRowIndex s) (lastSpawnCheckY s) (rowLastShotTime s)
    (spawnedRowCount s) (powerUp s) (playerDoubleShot s) (powerUpEndTime s)
    (lastPowerUpSpawnRow s) (nextId s).

Definition set_playerBullets (v : list GameObject) (s : Game) : Game :=
  mkGame (now s) (timers s) (player s) (enemies s) v (enemyBullets s)
    (score s) (lives s) (enemyDirection s) (enemySpeed s) (gameActive s)
    (physicsPaused s) (gameStartDivShown s) (gameEndDivShown s)
    (enemyShootTimer s) (playerShootTimer s) (rowsCanShoot s)
    (rowShooting s) (playerHitProcessing s) (lastSpawnedRowY s)
    (nextRowIndex s) (lastSpawnCheckY s) (rowLastShotTime s)
    (spawnedRowCount s) (powerUp s) (playerDoubleShot s) (powerUpEndTime s)
    (lastPowerUpSpawnRow s) (nextId s).

Definition set_enemyBullets (v : list GameObject) (s : Game) : Game :=
  mkGame (now s) (timers s) (player s) (enemies s) (playerBullets s) v
    (score s) (lives s) (enemyDirection s) (enemySpeed s) (gameActive s)
    (physicsPaused s) (gameStartDivShown s) (gameEndDivShown s)
    (enemyShootTimer s) (playerShootTimer s) (rowsCanShoot s)
    (rowShooting s) (playerHitProcessing s) (lastSpawnedRowY s)
    (nextRowIndex s) (lastSpawnCheckY s) (rowLastShotTime s)
    (spawnedRowCount s) (powerUp s) (playerDoubleShot s) (powerUpEndTime s)
    (lastPowerUpSpawnRow s) (nextId s).

Definition set_score (v : Z) (s : Game) : Game :=
  mkGame (now s) (timers s) (player s) (enemies s) (playerBullets s)
    (enemyBullets s) v (lives s) (enemyDirection s) (enemySpeed s)
    (gameActive s) (physicsPaused s) (gameStartDivShown s)
    (gameEndDivShown s) (enemyShootTimer s) (playerShootTimer s)
    (rowsCanShoot s) (rowShooting s) (playerHitProcessing s)
    (lastSpawnedRowY s) (nextRowIndex s) (lastSpawnCheckY s)
    (rowLastShotTime s) (spawnedRowCount s) (powerUp s) (playerDoubleShot s)
    (powerUpEndTime s) (lastPowerUpSpawnRow s) (nextId s).

Definition set_lives (v : Z) (s : Game) : Game :=
  mkGame (now s) (timers s) (player s) (enemies s) (playerBullets s)
    (enemyBullets s) (score s) v (enemyDirection s) (enemySpeed s)
    (gameActive s) (physicsPaused s) (gameStartDivShown s)
    (gameEndDivShown s) (enemyShootTimer s) (playerShootTimer s)
    (rowsCanShoot s) (rowShooting s) (playerHitProcessing s)
    (lastSpawnedRowY s) (nextRowIndex s) (lastSpawnCheckY s)
    (rowLastShotTime s) (spawnedRowCount s) (powerUp s) (playerDoubleShot s)
    (powerUpEndTime s) (lastPowerUpSpawnRow s) (nextId s).

Definition set_enemyDirection (v : Z) (s : Game) : Game :=
  mkGame (now s) (timers s) (player s) (enemies s) (playerBullets s)
    (enemyBullets s) (score s) (lives s) v (enemySpeed s) (gameActive s)
    (physicsPaused s) (gameStartDivShown s) (gameEndDivShown s)
    (enemyShootTimer s) (playerShootTimer s) (rowsCanShoot s)
    (rowShooting s) (playerHitProcessing s) (lastSpawnedRowY s)
    (nextRowIndex s) (lastSpawnCheckY s) (rowLastShotTime s)
    (spawnedRowCount s) (powerUp s) (playerDoubleShot s) (powerUpEndTime s)
    (lastPowerUpSpawnRow s) (nextId s).

Definition set_enemySpeed (v : Q) (s : Game) : Game :=
  mkGame (now s) (timers s) (player s) (enemies s) (playerBullets s)
    (enemyBullets s) (score s) (lives s) (enemyDirection s) v (gameActive s)
    (physicsPaused s) (gameStartDivShown s) (gameEndDivShown s)
    (enemyShootTimer s) (playerShootTimer s) (rowsCanShoot s)
    (rowShooting s) (playerHitProcessing s) (lastSpawnedRowY s)
    (nextRowIndex s) (lastSpawnCheckY s) (rowLastShotTime s)
    (spawnedRowCount s) (powerUp s) (playerDoubleShot s) (powerUpEndTime s)
    (lastPowerUpSpawnRow s) (nextId s).

Definition set_gameActive (v : bool) (s : Game) : Game :=
  mkGame (now s) (timers s) (player s) (enemies s) (playerBullets s)
    (enemyBullets s) (score s) (lives s) (enemyDirection s) (enemySpeed s) v
    (physicsPaused s) (gameStartDivShown s) (gameEndDivShown s)
    (enemyShootTimer s) (playerShootTimer s) (rowsCanShoot s)
    (rowShooting s) (playerHitProcessing s) (lastSpawnedRowY s)
    (nextRowIndex s) (lastSpawnCheckY s) (rowLastShotTime s)
    (spawnedRowCount s) (powerUp s) (playerDoubleShot s) (powerUpEndTime s)
    (lastPowerUpSpawnRow s) (nextId s).

Definition set_physicsPaused (v : bool) (s : Game) : Game :=
  mkGame (now s) (timers s) (player s) (enemies s) (playerBullets s)
    (enemyBullets s) (score s) (lives s) (enemyDirection s) (enemySpeed s)
    (gameActive s) v (gameStartDivShown s) (gameEndDivShown s)
    (enemyShootTimer s) (playerShootTimer s) (rowsCanShoot s)
    (rowShooting s) (playerHitProcessing s) (lastSpawnedRowY s)
    (nextRowIndex s) (lastSpawnCheckY s) (rowLastShotTime s)
    (spawnedRowCount s) (powerUp s) (playerDoubleShot s) (powerUpEndTime s)
    (lastPowerUpSpawnRow s) (nextId s).

Definition set_gameStartDivShown (v : bool) (s : Game) : Game :=
  mkGame (now s) (timers s) (player s) (enemies s) (playerBullets s)
    (enemyBullets s) (score s) (lives s) (enemyDirection s) (enemySpeed s)
    (gameActive s) (physicsPaused s) v (gameEndDivShown s)
    (enemyShootTimer s) (playerShootTimer s) (rowsCanShoot s)
    (rowShooting s) (playerHitProcessing s) (lastSpawnedRowY s)
    (nextRowIndex s) (lastSpawnCheckY s) (rowLastShotTime s)
    (spawnedRowCount s) (powerUp s) (playerDoubleShot s) (powerUpEndTime s)
    (lastPowerUpSpawnRow s) (nextId s).

Definition set_gameEndDivShown (v : bool) (s : Game) : Game :=
  mkGame (now s) (timers s) (player s) (enemies s) (playerBullets s)
    (enemyBullets s) (score s) (lives s) (enemyDirection s) (enemySpeed s)
    (gameActive s) (physicsPaused s) (gameStartDivShown s) v
    (enemyShootTimer s) (playerShootTimer s) (rowsCanShoot s)
    (rowShooting s) (playerHitProcessing s) (lastSpawnedRowY s)
    (nextRowIndex s) (lastSpawnCheckY s) (rowLastShotTime s)
    (spawnedRowCount s) (powerUp s) (playerDoubleShot s) (powerUpEndTime s)
    (lastPowerUpSpawnRow s) (nextId s).

Definition set_enemyShootTimer (v : Q) (s : Game) : Game :=
  mkGame (now s) (timers s) (player s) (enemies s) (playerBullets s)
    (enemyBullets s) (score s) (lives s) (enemyDirection s) (enemySpeed s)
    (gameActive s) (physicsPaused s) (gameStartDivShown s)
    (gameEndDivShown s) v (playerShootTimer s) (rowsCanShoot s)
    (rowShooting s) (playerHitProcessing s) (lastSpawnedRowY s)
    (nextRowIndex s) (lastSpawnCheckY s) (rowLastShotTime s)
    (spawnedRowCount s) (powerUp s) (playerDoubleShot s) (powerUpEndTime s)
    (lastPowerUpSpawnRow s) (nextId s).

Definition set_playerShootTimer (v : Q) (s : Game) : Game :=
  mkGame (now s) (timers s) (player s) (enemies s) (playerBullets s)
    (enemyBullets s) (score s) (lives s) (enemyDirection s) (enemySpeed s)
    (gameActive s) (physicsPaused s) (gameStartDivShown s)
    (gameEndDivShown s) (enemyShootTimer s) v (rowsCanShoot s)
    (rowShooting s) (playerHitProcessing s) (lastSpawnedRowY s)
    (nextRowIndex s) (lastSpawnCheckY s) (rowLastShotTime s)
    (spawnedRowCount s) (powerUp s) (playerDoubleShot s) (powerUpEndTime s)
    (lastPowerUpSpawnRow s) (nextId s).

Definition set_rowsCanShoot (v : gset nat) (s : Game) : Game :=
  mkGame (now s) (timers s) (player s) (enemies s) (playerBullets s)
    (enemyBullets s) (score s) (lives s) (enemyDirection s) (enemySpeed s)
    (gameActive s) (physicsPaused s) (gameStartDivShown s)
    (gameEndDivShown s) (enemyShootTimer s) (playerShootTimer s) v
    (rowShooting s) (playerHitProcessing s) (lastSpawnedRowY s)
    (nextRowIndex s) (lastSpawnCheckY s) (rowLastShotTime s)
    (spawnedRowCount s) (powerUp s) (playerDoubleShot s) (powerUpEndTime s)
    (lastPowerUpSpawnRow s) (nextId s).

Definition set_rowShooting (v : option nat) (s : Game) : Game :=
  mkGame (now s) (timers s) (player s) (enemies s) (playerBullets s)
    (enemyBullets s) (score s) (lives s) (enemyDirection s) (enemySpeed s)
    (gameActive s) (physicsPaused s) (gameStartDivShown s)
    (gameEndDivShown s) (enemyShootTimer s) (playerShootTimer s)
    (rowsCanShoot s) v (playerHitProcessing s) (lastSpawnedRowY s)
    (nextRowIndex s) (lastSpawnCheckY s) (rowLastShotTime s)
    (spawnedRowCount s) (powerUp s) (playerDoubleShot s) (powerUpEndTime s)
    (lastPowerUpSpawnRow s) (nextId s).

Definition set_playerHitProcessing (v : bool) (s : Game) : Game :=
  mkGame (now s) (timers s) (player s) (enemies s) (playerBullets s)
    (enemyBullets s) (score s) (lives s) (enemyDirection s) (enemySpeed s)
    (gameActive s) (physicsPaused s) (gameStartDivShown s)
    (gameEndDivShown s) (enemyShootTimer s) (playerShootTimer s)
    (rowsCanShoot s) (rowShooting s) v (lastSpawnedRowY s) (nextRowIndex s)
    (lastSpawnCheckY s) (rowLastShotTime s) (spawnedRowCount s) (powerUp s)
    (playerDoubleShot s) (powerUpEndTime s) (lastPowerUpSpawnRow s)
    (nextId s).

Definition set_lastSpawnedRowY (v : option Q) (s : Game) : Game :=
  mkGame (now s) (timers s) (player s) (enemies s) (playerBullets s)
    (enemyBullets s) (score s) (lives s) (enemyDirection s) (enemySpeed s)
    (gameActive s) (physicsPaused s) (gameStartDivShown s)
    (gameEndDivShown s) (enemyShootTimer s) (playerShootTimer s)
    (rowsCanShoot s) (rowShooting s) (playerHitProcessing s) v
    (nextRowIndex s) (lastSpawnCheckY s) (rowLastShotTime s)
    (spawnedRowCount s) (powerUp s) (playerDoubleShot s) (powerUpEndTime s)
    (lastPowerUpSpawnRow s) (nextId s).

Definition set_nextRowIndex (v : nat) (s : Game) : Game :=
  mkGame (now s) (timers s) (player s) (enemies s) (playerBullets s)
    (enemyBullets s) (score s) (lives s) (enemyDirection s) (enemySpeed s)
    (gameActive s) (physicsPaused s) (gameStartDivShown s)
    (gameEndDivShown s) (enemyShootTimer s) (playerShootTimer s)
    (rowsCanShoot s) (rowShooting s) (playerHitProcessing s)
    (lastSpawnedRowY s) v (lastSpawnCheckY s) (rowLastShotTime s)
    (spawnedRowCount s) (powerUp s) (playerDoubleShot s) (powerUpEndTime s)
    (lastPowerUpSpawnRow s) (nextId s).

Definition set_lastSpawnCheckY (v : option Q) (s : Game) : Game :=
  mkGame (now s) (timers s) (player s) (enemies s) (playerBullets s)
    (enemyBullets s) (score s) (lives s) (enemyDirection s) (enemySpeed s)
    (gameActive s) (physicsPaused s) (gameStartDivShown s)
    (gameEndDivShown s) (enemyShootTimer s) (playerShootTimer s)
    (rowsCanShoot s) (rowShooting s) (playerHitProcessing s)
    (lastSpawnedRowY s) (nextRowIndex s) v (rowLastShotTime s)
    (spawnedRowCount s) (powerUp s) (playerDoubleShot s) (powerUpEndTime s)
    (lastPowerUpSpawnRow s) (nextId s).

Definition set_rowLastShotTime (v : gmap nat Q) (s : Game) : Game :=
  mkGame (now s) (timers s) (player s) (enemies s) (playerBullets s)
    (enemyBullets s) (score s) (lives s) (enemyDirection s) (enemySpeed s)
    (gameActive s) (physicsPaused s) (gameStartDivShown s)
    (gameEndDivShown s) (enemyShootTimer s) (playerShootTimer s)
    (rowsCanShoot s) (rowShooting s) (playerHitProcessing s)
    (lastSpawnedRowY s) (nextRowIndex s) (lastSpawnCheckY s) v
    (spawnedRowCount s) (powerUp s) (playerDoubleShot s) (powerUpEndTime s)
    (lastPowerUpSpawnRow s) (nextId s).

Definition set_spawnedRowCount (v : nat) (s : Game) : Game :=
  mkGame (now s) (timers s) (player s) (enemies s) (playerBullets s)
    (enemyBullets s) (score s) (lives s) (enemyDirection s) (enemySpeed s)
    (gameActive s) (physicsPaused s) (gameStartDivShown s)
    (gameEndDivShown s) (enemyShootTimer s) (playerShootTimer s)
    (rowsCanShoot s) (rowShooting s) (playerHitProcessing s)
    (lastSpawnedRowY s) (nextRowIndex s) (lastSpawnCheckY s)
    (rowLastShotTime s) v (powerUp s) (playerDoubleShot s)
    (powerUpEndTime s) (lastPowerUpSpawnRow s) (nextId s).

Definition set_powerUp (v : option GameObject) (s : Game) : Game :=
  mkGame (now s) (timers s) (player s) (enemies s) (playerBullets s)
    (enemyBullets s) (score s) (lives s) (enemyDirection s) (enemySpeed s)
    (gameActive s) (physicsPaused s) (gameStartDivShown s)
    (gameEndDivShown s) (enemyShootTimer s) (playerShootTimer s)
    (rowsCanShoot s) (rowShooting s) (playerHitProcessing s)
    (lastSpawnedRowY s) (nextRowIndex s) (lastSpawnCheckY s)
    (rowLastShotTime s) (spawnedRowCount s) v (playerDoubleShot s)
    (powerUpEndTime s) (lastPowerUpSpawnRow s) (nextId s).

Definition set_playerDoubleShot (v : bool) (s : Game) : Game :=
  mkGame (now s) (timers s) (player s) (enemies s) (playerBullets s)
    (enemyBullets s) (score s) (lives s) (enemyDirection s) (enemySpeed s)
    (gameActive s) (physicsPaused s) (gameStartDivShown s)
    (gameEndDivShown s) (enemyShootTimer s) (playerShootTimer s)
    (rowsCanShoot s) (rowShooting s) (playerHitProcessing s)
    (lastSpawnedRowY s) (nextRowIndex s) (lastSpawnCheckY s)
    (rowLastShotTime s) (spawnedRowCount s) (powerUp s) v (powerUpEndTime s)
    (lastPowerUpSpawnRow s) (nextId s).

Definition set_powerUpEndTime (v : Q) (s : Game) : Game :=
  mkGame (now s) (timers s) (player s) (enemies s) (playerBullets s)
    (enemyBullets s) (score s) (lives s) (enemyDirection s) (enemySpeed s)
    (gameActive s) (physicsPaused s) (gameStartDivShown s)
    (gameEndDivShown s) (enemyShootTimer s) (playerShootTimer s)
    (rowsCanShoot s) (rowShooting s) (playerHitProcessing s)
    (lastSpawnedRowY s) (nextRowIndex s) (lastSpawnCheckY s)
    (rowLastShotTime s) (spawnedRowCount s) (powerUp s) (playerDoubleShot s)
    v (lastPowerUpSpawnRow s) (nextId s).

Definition set_lastPowerUpSpawnRow (v : nat) (s : Game) : Game :=
  mkGame (now s) (timers s) (player s) (enemies s) (playerBullets s)
    (enemyBullets s) (score s) (lives s) (enemyDirection s) (enemySpeed s)
    (gameActive s) (physicsPaused s) (gameStartDivShown s)
    (gameEndDivShown s) (enemyShootTimer s) (playerShootTimer s)
    (rowsCanShoot s) (rowShooting s) (playerHitProcessing s)
    (lastSpawnedRowY s) (nextRowIndex s) (lastSpawnCheckY s)
    (rowLastShotTime s) (spawnedRowCount s) (powerUp s) (playerDoubleShot s)
    (powerUpEndTime s) v (nextId s).

Definition set_nextId (v : nat) (s : Game) : Game :=
  mkGame (now s) (timers s) (player s) (enemies s) (playerBullets s)
    (enemyBullets s) (score s) (lives s) (enemyDirection s) (enemySpeed s)
    (gameActive s) (physicsPaused s) (gameStartDivShown s)
    (gameEndDivShown s) (enemyShootTimer s) (playerShootTimer s)
    (rowsCanShoot s) (rowShooting s) (playerHitProcessing s)
    (lastSpawnedRowY s) (nextRowIndex s) (lastSpawnCheckY s)
    (rowLastShotTime s) (spawnedRowCount s) (powerUp s) (playerDoubleShot s)
    (powerUpEndTime s) (lastPowerUpSpawnRow s) v.
(** ** Formation movement: [handleEnemyMovement] *)

Definition edgeMargin : Q := 30.

(** [enemiesByRow[enemy.row].push(enemy)], creating the row on first use.
    Rows are kept by ascending index, the order in which [for (row in ...)]
    enumerates integer keys. *)
Fixpoint pushRow (e : Enemy) (m : list (nat * list Enemy))
  : list (nat * list Enemy) :=
  match m with
  | [] => [(row e, [e])]
  | (k, es) :: m' =>
      if Nat.eqb k (row e) then (k, es ++ [e]) :: m'
      else if Nat.ltb (row e) k then (row e, [e]) :: (k, es) :: m'
      else (k, es) :: pushRow e m'
  end.

Definition groupByRow (es : list Enemy) : list (nat * list Enemy) :=
  fold_left (fun m e => if isAlive e then pushRow e m else m) es [].

(** The inner loop over a row: both extremes are tracked in one pass, and a
    later enemy replaces the current extreme only when strictly beyond it. *)
Definition extremes (first : Enemy) (rowEnemies : list Enemy)
  : Enemy * Enemy :=
  fold_left
    (fun lr e =>
       (if Qltb (x (obj e)) (x (obj (fst lr))) then e else fst lr,
        if Qgtb (x (obj e)) (x (obj (snd lr))) then e else snd lr))
    rowEnemies (first, first).

Definition halfWidth (e : Enemy) : Q :=
  (width (obj e) * scaleX (obj e)) / 2.

Section Scene.

Variable sizes : Dimensions.
Variable tex : Textures.

(** [scale]: the smaller of the two ratios to the 1080x1920 design size. *)
Definition scale : Q :=
  Qmin (dim_width sizes / 1080) (dim_height sizes / 1920).

(** The body of the loop over rows: does this row trigger the reversal? *)
Definition rowAtEdge (dir : Z) (rowEnemies : list Enemy) : bool :=
  match rowEnemies with
  | [] => false
  | first :: _ =>
      let (leftmostEnemy, rightmostEnemy) := extremes first rowEnemies in
      let leftmostHalfWidth := halfWidth leftmostEnemy in
      let rightmostHalfWidth := halfWidth rightmostEnemy in
      if Z.eqb dir 1
         && Qgeb (x (obj rightmostEnemy) + rightmostHalfWidth)
                 (dim_width sizes - edgeMargin)
      then true
      else Z.eqb dir (-1)
           && Qle_bool (x (obj leftmostEnemy) - leftmostHalfWidth) edgeMargin
  end.

(** The loop over rows stops at the first row that triggers; [shouldReverse]
    and [shouldMoveDown] are always set together. *)
Definition edgeReached (dir : Z) (es : list Enemy) : bool :=
  existsb (fun kv => rowAtEdge dir (snd kv)) (groupByRow es).

(** The second loop, for one enemy. *)
Definition moveBody (vx : Q) (b : Body) : Body :=
  mkBody true vx 0 0 false.

Definition moveEnemy (shouldMoveDown : bool) (vx : Q) (e : Enemy) : Enemy :=
  if negb (isAlive e) then e
  else
    let o1 := if shouldMoveDown
              then set_y (y (obj e) + ENEMY_DOWN_STEP) (obj e)
              else obj e in
    match body o1 with
    | Some b => set_obj (set_body (Some (moveBody vx b)) o1) e
    | None => set_obj o1 e
    end.

Definition handleEnemyMovement (s : Game) : Game :=
  match enemies s with
  | [] => s
  | _ :: _ =>
      let shouldReverse := edgeReached (enemyDirection s) (enemies s) in
      let shouldMoveDown := shouldReverse in
      let s1 :=
        if shouldReverse
        then set_enemySpeed (enemySpeed s + DIFFICULTY_ENEMY_SPEED_INCREASE)
               (set_enemyDirection (enemyDirection s * -1)%Z s)
        else s in
      set_enemies
        (map (moveEnemy shouldMoveDown
                (inject_Z (enemyDirection s1) * enemySpeed s1))
             (enemies s1))
        s1
  end.


(** ** Creating game objects *)

(** [this.add.rectangle(...)] followed by [this.physics.add.existing(...)]
    and the configuration of the body: enabled, vertical velocity [vy],
    no gravity. *)
Definition newRectangle (id : nat) (px py w h vy : Q) : GameObject :=
  mkObject id px py w h 1 1 true (Some (mkBody true 0 vy 0 false)).

(** [this.physics.add.image(x, y, key).setOrigin(0.5, 0.5).setScale(scale * 0.75)]
    with a body at rest. *)
Definition newImage (id : nat) (px py w h : Q) : GameObject :=
  mkObject id px py w h (scale * (3 # 4)) (scale * (3 # 4)) true
    (Some (mkBody true 0 0 0 false)).

Definition newEnemy (id : nat) (px py : Q) (rowIndex : nat) (super : bool)
  : Enemy :=
  mkEnemy
    (newImage id px py
       (if super then superAlienW tex else alienW tex)
       (if super then superAlienH tex else alienH tex))
    true rowIndex super 0.

(** [superAlienCols.includes(col)] *)
Definition includes (cols : list nat) (col : nat) : bool :=
  existsb (Nat.eqb col) cols.

(** The loop over columns shared by [spawnEnemyRow] and
    [spawnEnemyRowCentered]: one enemy per column, pushed in column order. *)
Definition rowOfEnemies (id0 : nat) (rowIndex : nat) (startX py : Q)
    (superAlienCols : list nat) : list Enemy :=
  map (fun col =>
         newEnemy (id0 + col) (startX + inject_Z (Z.of_nat col) * ENEMY_SPACING)
           py rowIndex (includes superAlienCols col))
      (seq 0 ENEMY_COLS).

(** [spawnEnemyRowCentered(rowIndex, startX, y, superAlienPositions)]; the
    callers always pass an array of columns. *)
Definition spawnEnemyRowCentered (rowIndex : nat) (startX py : Q)
    (superAlienPositions : list nat) (s : Game) : Game :=
  set_lastSpawnedRowY (Some py)
    (set_nextId (nextId s + ENEMY_COLS)
       (set_enemies
          (enemies s
           ++ rowOfEnemies (nextId s) rowIndex startX py superAlienPositions)
          s)).

(** [spawnEnemyRow(rowIndex, startX, bottomRowY, superAlienPositions)] *)
Definition spawnEnemyRow (rowIndex : nat) (startX bottomRowY : Q)
    (superAlienPositions : list nat) (s : Game) : Game :=
  spawnEnemyRowCentered rowIndex startX
    (bottomRowY - inject_Z (Z.of_nat rowIndex) * 50) superAlienPositions s.

(** ** Randomness *)

(** [Math.floor(Math.random() * n)] for a random number [r]. *)
Definition randIndex (r : Q) (n : nat) : nat :=
  Z.to_nat (Qfloor (r * inject_Z (Z.of_nat n))).

(** [Phaser.Math.Between(min, max)] *)
Definition between (r : Q) (lo hi : Q) : Q :=
  inject_Z (Qfloor (r * (hi - lo + 1) + lo)).

(** [[a[i], a[j]] = [a[j], a[i]]] on an array; both indices are in range
    whenever the random numbers are in [0,1). *)
Definition swap {A} (l : list A) (i j : nat) : list A :=
  match l !! i, l !! j with
  | Some a, Some b => <[j := a]> (<[i := b]> l)
  | _, _ => l
  end.

(** The Fisher-Yates loop [for (i = length - 1; i > 0; i--)], from index [i]
    downwards; [rnd i] is the random number drawn in the iteration at [i]. *)
Fixpoint shuffleFrom {A} (rnd : nat -> Q) (i : nat) (l : list A) : list A :=
  match i with
  | O => l
  | S i' => shuffleFrom rnd i' (swap l i (randIndex (rnd i) (i + 1)))
  end.

Definition shuffle {A} (rnd : nat -> Q) (l : list A) : list A :=
  shuffleFrom rnd (length l - 1) l.

(** The random numbers one [update] draws. *)
Record Random := mkRandom {
  shootShuffle : nat -> Q;    (* shuffle of the enemies ready to shoot *)
  shootPick : Q;              (* Phaser.Utils.Array.GetRandom *)
  columnShuffle : nat -> Q;   (* shuffle of the columns of a new row *)
  powerUpPlace : Q            (* Phaser.Math.Between for the power-up *)
}.

(** ** Timed callbacks *)

(** [this.time.delayedCall(delay, callback)] *)
Definition delayedCall (delay : Q) (c : Callback) (s : Game) : Game :=
  set_timers (timers s ++ [(now s + delay, c)]) s.

Definition runCallback (c : Callback) (s : Game) : Game :=
  match c with
  | ReleaseRowShooting => set_rowShooting None s
  | ReleasePlayerHit => set_playerHitProcessing false s
  end.

(** ** Player *)

Record Pointer := mkPointer { isDown : bool; pointerX : Q }.

(** [Phaser.Math.Clamp(value, min, max)] *)
Definition clamp (v lo hi : Q) : Q := Qmax lo (Qmin hi v).

Definition handlePlayerMovement (inp : Pointer) (s : Game) : Game :=
  if isDown inp then
    let mouseX := pointerX inp in
    let playerHalfWidth := (width (player s) * scaleX (player s)) / 2 in
    let clampedX :=
      clamp mouseX playerHalfWidth (dim_width sizes - playerHalfWidth) in
    set_player (set_x clampedX (player s)) s
  else s.

(** One player bullet, created at horizontal position [px] and added to the
    group. *)
Definition addPlayerBullet (px : Q) (s : Game) : Game :=
  let bullet :=
    newRectangle (nextId s) px
      (y (player s) - (height (player s) * scaleY (player s)) / 2 - 10)
      BULLET_WIDTH BULLET_HEIGHT (- BULLET_SPEED) in
  set_nextId (S (nextId s))
    (set_playerBullets (playerBullets s ++ [bullet]) s).

Definition handlePlayerShooting (s : Game) : Game :=
  let currentTime := now s in
  let s1 :=
    if Qeq_bool (playerShootTimer s) 0
    then set_playerShootTimer currentTime s else s in
  let timeSinceLastShot := currentTime - playerShootTimer s1 in
  if Qgeb timeSinceLastShot PLAYER_SHOOT_INTERVAL then
    let s2 := set_playerShootTimer currentTime s1 in
    let maxBullets := if playerDoubleShot s2 then 6%nat else 3%nat in
    let activeBullets := length (playerBullets s2) in
    if playerDoubleShot s2 then
      if Nat.ltb activeBullets maxBullets then
        let s3 := addPlayerBullet (x (player s2) - 10) s2 in
        if Nat.ltb (activeBullets + 1) maxBullets
        then addPlayerBullet (x (player s3) + 10) s3
        else s3
      else s2
    else
      if Nat.ltb activeBullets maxBullets
      then addPlayerBullet (x (player s2)) s2
      else s2
  else s1.

(** ** Enemy shooting *)

Definition addEnemyBullet (px py : Q) (s : Game) : Game :=
  let bullet :=
    newRectangle (nextId s) px py BULLET_WIDTH BULLET_HEIGHT
      ENEMY_BULLET_SPEED in
  set_nextId (S (nextId s))
    (set_enemyBullets (enemyBullets s ++ [bullet]) s).

Definition shootFromEnemy (enemy : Enemy) (s : Game) : Game :=
  if negb (active (obj enemy)) || negb (isAlive enemy) then s
  else
    let enemyHeight := height (obj enemy) * scaleY (obj enemy) in
    let bulletSpawnY := y (obj enemy) + enemyHeight / 2 + 5 in
    let s2 :=
      if isSuperAlien enemy then
        let s1 :=
          if Nat.ltb (length (enemyBullets s)) 28
          then addEnemyBullet (x (obj enemy) - 10) bulletSpawnY s
          else s in
        if Nat.ltb (length (enemyBullets s1)) 29
        then addEnemyBullet (x (obj enemy) + 10) bulletSpawnY s1
        else s1
      else
        if Nat.ltb (length (enemyBullets s)) 29
        then addEnemyBullet (x (obj enemy)) bulletSpawnY s
        else s in
    set_rowsCanShoot (rowsCanShoot s2 ∖ {[row enemy]}) s2.

(** The volley reset at the top of [handleEnemyShooting]. *)
Definition aliveEnemyRows (es : list Enemy) : gset nat :=
  list_to_set (map row (filter (fun e => isAlive e = true) es)).

Definition volleyReset (currentTime : Q) (s : Game) : Game :=
  set_rowShooting None
    (set_rowsCanShoot (aliveEnemyRows (enemies s))
       (set_enemyShootTimer currentTime s)).

(** The predicate of [this.enemies.filter(...)]. *)
Definition readyToShoot (currentTime : Q) (s : Game) (e : Enemy) : bool :=
  isAlive e
  && active (obj e)
  && bool_decide (row e ∈ rowsCanShoot s)
  && negb (Qltb (currentTime - default 0 (rowLastShotTime s !! row e))
             minTimeBetweenRowShots).

Definition enemiesReadyToShoot (currentTime : Q) (s : Game) : list Enemy :=
  filter (fun e => readyToShoot currentTime s e = true) (enemies s).

(** [Math.max(1, Math.floor(n * DIFFICULTY_ENEMY_SHOOT_PERCENTAGE))] *)
Definition numEnemiesThatCanShoot (n : nat) : nat :=
  Z.to_nat
    (Z.max 1 (Qfloor (inject_Z (Z.of_nat n) * DIFFICULTY_ENEMY_SHOOT_PERCENTAGE))).

Definition enemiesToChooseFrom (rnd : Random) (ready : list Enemy)
  : list Enemy :=
  take (numEnemiesThatCanShoot (length ready)) (shuffle (shootShuffle rnd) ready).

(** [Phaser.Utils.Array.GetRandom(array)] *)
Definition getRandom {A} (r : Q) (l : list A) : option A :=
  l !! randIndex r (length l).

Definition shootingEnemy (rnd : Random) (ready : list Enemy) : option Enemy :=
  getRandom (shootPick rnd) (enemiesToChooseFrom rnd ready).

(** What the chosen enemy does: its row takes the shooting lock, the time
    of the shot is recorded for the row, the enemy shoots, and the release of
    the lock is scheduled. *)
Definition fireFrom (enemy : Enemy) (currentTime : Q) (s : Game) : Game :=
  let s1 := set_rowShooting (Some (row enemy)) s in
  let s2 :=
    set_rowLastShotTime (<[row enemy := currentTime]> (rowLastShotTime s1)) s1 in
  let s3 := shootFromEnemy enemy s2 in
  delayedCall minTimeBetweenRowShots ReleaseRowShooting s3.

(** The part of [handleEnemyShooting] after the volley reset. *)
Definition tryShoot (rnd : Random) (currentTime : Q) (s : Game) : Game :=
  match rowShooting s with
  | Some _ => s
  | None =>
      let ready := enemiesReadyToShoot currentTime s in
      match ready with
      | [] => s
      | _ :: _ =>
          match shootingEnemy rnd ready with
          | None => s   (* not reached: the list chosen from is not empty *)
          | Some enemy => fireFrom enemy currentTime s
          end
      end
  end.

(** The timer part of [handleEnemyShooting]: the timer is initialised when
    unset, and every [ENEMY_SHOOT_INTERVAL] the volley is reset. *)
Definition volleyDue (currentTime : Q) (s : Game) : bool :=
  Qgeb (currentTime - enemyShootTimer s) ENEMY_SHOOT_INTERVAL.

Definition initShootTimer (s : Game) : Game :=
  if Qeq_bool (enemyShootTimer s) 0
  then set_enemyShootTimer (now s - ENEMY_SHOOT_INTERVAL + 1000) s
  else s.

Definition prepareVolley (s : Game) : Game :=
  let currentTime := now s in
  let s1 := initShootTimer s in
  if volleyDue currentTime s1 then volleyReset currentTime s1 else s1.

Definition handleEnemyShooting (rnd : Random) (s : Game) : Game :=
  match enemies s with
  | [] => s
  | _ :: _ => tryShoot rnd (now s) (prepareVolley s)
  end.

(** ** Bullets leaving the screen *)

Definition cleanupBullets (s : Game) : Game :=
  let s1 :=
    set_playerBullets
      (filter (fun b => Qltb (y b) 0 = false) (playerBullets s)) s in
  set_enemyBullets
    (filter (fun b => Qgtb (y b) (dim_height sizes) = false) (enemyBullets s1))
    s1.

(** ** Power-ups *)

Definition spawnPowerUp (rnd : Random) (s : Game) : Game :=
  let create :=
    let playerY := y (player s) in
    let powerUpX :=
      between (powerUpPlace rnd) POWERUP_SIZE (dim_width sizes - POWERUP_SIZE) in
    set_nextId (S (nextId s))
      (set_powerUp
         (Some (newRectangle (nextId s) powerUpX playerY
                  POWERUP_SIZE POWERUP_SIZE 0))
         s) in
  match powerUp s with
  | Some p => if active p then s else create
  | None => create
  end.

(** [collectPowerUp(player, powerUp)]: the overlap callback; [pu] is the
    power-up object handed over by the engine ([None] for a missing one). *)
Definition collectPowerUp (pu : option GameObject) (s : Game) : Game :=
  match pu with
  | None => s
  | Some p =>
      if negb (active p) then s
      else
        set_powerUpEndTime (now s + POWERUP_DURATION)
          (set_playerDoubleShot true (set_powerUp None s))
  end.

Definition checkPowerUpExpiration (s : Game) : Game :=
  if playerDoubleShot s && Qgeb (now s) (powerUpEndTime s)
  then set_playerDoubleShot false s
  else s.

(** ** Wave spawner: [checkSpawnNewRow] *)

(** The first loop: the smallest [y] among the alive, active enemies. *)
Definition topmostY (es : list Enemy) : option Q :=
  fold_left
    (fun top e =>
       if negb (isAlive e) || negb (active (obj e)) then top
       else match top with
            | None => Some (y (obj e))
            | Some t => if Qltb (y (obj e)) t then Some (y (obj e)) else top
            end)
    es None.

Definition inTopRow (top : Q) (e : Enemy) : bool :=
  isAlive e && Qltb (Qabs (y (obj e) - top)) 1.

Definition leftmostOfTopRow (top : Q) (es : list Enemy) : option Enemy :=
  fold_left
    (fun l e =>
       if inTopRow top e then
         match l with
         | None => Some e
         | Some l0 => if Qltb (x (obj e)) (x (obj l0)) then Some e else l
         end
       else l)
    es None.

(** [topRowEnemies.sort((a, b) => a.x - b.x)]: a stable sort by [x]. *)
Fixpoint insertByX (e : Enemy) (l : list Enemy) : list Enemy :=
  match l with
  | [] => [e]
  | h :: t => if Qltb (x (obj e)) (x (obj h)) then e :: h :: t
              else h :: insertByX e t
  end.

Definition sortByX (l : list Enemy) : list Enemy :=
  fold_left (fun acc e => insertByX e acc) l [].

Definition spawnStartX (top : Q) (es : list Enemy) : Q :=
  let sidePadding := 20 in
  let formationWidth := inject_Z (Z.of_nat (ENEMY_COLS - 1)) * ENEMY_SPACING in
  let startX :=
    sidePadding + (dim_width sizes - formationWidth - sidePadding * 2) / 2 in
  match leftmostOfTopRow top es with
  | None => startX
  | Some _ =>
      match sortByX (filter (fun e => inTopRow top e = true) es) with
      | [] => startX
      | e0 :: _ => x (obj e0)
      end
  end.

Definition numSuperAliens (s : Game) : nat :=
  1 + spawnedRowCount s / DIFFICULTY_SUPER_ALIENS_INCREASE_AFTER_LINES.

(** The columns of the super aliens of a new row: the first [n] entries of
    the shuffled column indices (all of them when [n] exceeds their number). *)
Definition superAlienPositions (rnd : Random) (n : nat) : list nat :=
  take n (shuffle (columnShuffle rnd) (seq 0 ENEMY_COLS)).

(** [enemy.setVelocityX(...)], [setVelocityY(0)], ... on the new row. *)
Definition launchEnemy (vx : Q) (e : Enemy) : Enemy :=
  match isAlive e, body (obj e) with
  | true, Some b => set_obj (set_body (Some (mkBody true vx 0 0 false)) (obj e)) e
  | _, _ => e
  end.

Definition shouldSpawn (top : Q) (s : Game) : bool :=
  let spawnThreshold := -100 in
  Qgeb top spawnThreshold
  && match lastSpawnCheckY s with
     | None => true
     | Some c => Qgtb top c
     end.

(** The power-up check made after a row has been spawned (every
    [POWERUP_SPAWN_AFTER_ROWS] rows). *)
Definition powerUpMilestone (rnd : Random) (s : Game) : Game :=
  if Nat.eqb (spawnedRowCount s mod POWERUP_SPAWN_AFTER_ROWS) 0
     && negb (Nat.eqb (spawnedRowCount s) (lastPowerUpSpawnRow s))
  then set_lastPowerUpSpawnRow (spawnedRowCount s) (spawnPowerUp rnd s)
  else s.

(** The new row takes the current formation velocity at once. *)
Definition launchRow (s : Game) : Game :=
  set_enemies
    (map (fun e =>
            if Nat.eqb (row e) (nextRowIndex s)
            then launchEnemy (inject_Z (enemyDirection s) * enemySpeed s) e
            else e)
         (enemies s))
    s.

(** The body of [if (shouldSpawn)]. *)
Definition spawnNewRow (rnd : Random) (topmostEnemyY : Q) (s : Game) : Game :=
  let rowSpacing := 50 in
  let startX := spawnStartX topmostEnemyY (enemies s) in
  let newRowY := topmostEnemyY - rowSpacing in
  let positions := superAlienPositions rnd (numSuperAliens s) in
  let s1 :=
    spawnEnemyRowCentered (nextRowIndex s) startX newRowY positions s in
  let s2 := set_lastSpawnedRowY (Some newRowY) s1 in
  let s3 := set_lastSpawnCheckY (Some topmostEnemyY) s2 in
  let s4 := set_spawnedRowCount (S (spawnedRowCount s3)) s3 in
  let s5 := powerUpMilestone rnd s4 in
  let s6 := set_rowsCanShoot ({[nextRowIndex s5]} ∪ rowsCanShoot s5) s5 in
  let s7 := launchRow s6 in
  set_nextRowIndex (S (nextRowIndex s7)) s7.

Definition checkSpawnNewRow (rnd : Random) (s : Game) : Game :=
  if Z.leb (lives s) 0 then s
  else
    match lastSpawnedRowY s with
    | None => s
    | Some _ =>
        match topmostY (enemies s) with
        | None => s
        | Some topmostEnemyY =>
            if shouldSpawn topmostEnemyY s
            then spawnNewRow rnd topmostEnemyY s
            else s
        end
    end.

(** ** Game over *)

Definition gameOver (s : Game) : Game :=
  set_gameEndDivShown true (set_physicsPaused true (set_gameActive false s)).

Definition reachedPlayer (gameOverThreshold : Q) (e : Enemy) : bool :=
  isAlive e
  && active (obj e)
  && Qgeb (y (obj e) + (height (obj e) * scaleY (obj e)) / 2)
          gameOverThreshold.

Definition checkGameOver (s : Game) : Game :=
  let playerY := y (player s) in
  let playerHeight := height (player s) * scaleY (player s) in
  let playerBottom := playerY + playerHeight / 2 in
  let gameOverThreshold := playerBottom - 10 in
  if existsb (reachedPlayer gameOverThreshold) (enemies s)
  then gameOver s
  else s.

(** ** Collision handlers *)

Definition updateScore (points : Z) (s : Game) : Game :=
  set_score (score s + points)%Z s.

(** [bullet.destroy()]: the object leaves every group that holds it. *)
Definition withoutObject (id : nat) (l : list GameObject) : list GameObject :=
  filter (fun b => oid b ≠ id) l.

Definition destroyBullet (bullet : GameObject) (s : Game) : Game :=
  set_enemyBullets (withoutObject (oid bullet) (enemyBullets s))
    (set_playerBullets (withoutObject (oid bullet) (playerBullets s)) s).

(** [this.enemies.splice(this.enemies.indexOf(enemy), 1)] when the enemy is
    found: the first entry that is this object is removed. *)
Fixpoint spliceEnemy (id : nat) (l : list Enemy) : list Enemy :=
  match l with
  | [] => []
  | e :: l' => if Nat.eqb (oid (obj e)) id then l' else e :: spliceEnemy id l'
  end.

Definition hitEnemy (bullet : GameObject) (enemy : Enemy) (s : Game) : Game :=
  if negb (active bullet) then s
  else if negb (active (obj enemy)) then s
  else
    let s1 := destroyBullet bullet s in
    let isSuper := isSuperAlien enemy in
    let s2 := set_enemies (spliceEnemy (oid (obj enemy)) (enemies s1)) s1 in
    let rowHasAliveEnemies :=
      existsb (fun e => isAlive e && active (obj e)
                        && Nat.eqb (row e) (row enemy))
              (enemies s2) in
    let s3 :=
      if rowHasAliveEnemies then s2
      else set_rowsCanShoot (rowsCanShoot s2 ∖ {[row enemy]}) s2 in
    let points := if isSuper then 7%Z else 5%Z in
    updateScore points s3.

Definition hitPlayer (bullet : GameObject) (s : Game) : Game :=
  if playerHitProcessing s then s
  else if negb (active bullet) then s
  else if Z.leb (lives s) 0 then s
  else
    let s1 := set_playerHitProcessing true s in
    let s2 := destroyBullet bullet s1 in
    let s3 := set_lives (lives s2 - 1)%Z s2 in
    let s4 := if Z.leb (lives s3) 0 then gameOver s3 else s3 in
    delayedCall 500 ReleasePlayerHit s4.

(** ** One frame of the scene: [update] *)

Definition update (inp : Pointer) (rnd : Random) (s : Game) : Game :=
  if negb (gameActive s) then s
  else
    let s1 := handlePlayerMovement inp s in
    let s2 := handlePlayerShooting s1 in
    let s3 := handleEnemyMovement s2 in
    let s4 := handleEnemyShooting rnd s3 in
    let s5 := cleanupBullets s4 in
    let s6 := checkSpawnNewRow rnd s5 in
    let s7 := checkPowerUpExpiration s6 in
    checkGameOver s7.

(** ** Creating the scene: the constructor and [create] *)

Definition createPlayer (id : nat) : GameObject :=
  newImage id (dim_width sizes / 2) (dim_height sizes * (3 # 4))
    (playerW tex) (playerH tex).

(** The initial rows: row [r] gets one super alien, in the column
    [Phaser.Math.Between(0, ENEMY_COLS - 1)] drawn with [rnd r]. *)
Definition createEnemies (rnd : nat -> Q) (s : Game) : Game :=
  let sidePadding := 20 in
  let formationWidth := inject_Z (Z.of_nat (ENEMY_COLS - 1)) * ENEMY_SPACING in
  let startX :=
    sidePadding + (dim_width sizes - formationWidth - sidePadding * 2) / 2 in
  let bottomRowY := dim_height sizes * (1 # 10) in
  let s1 :=
    fold_left
      (fun acc r =>
         spawnEnemyRow r startX bottomRowY
           [Z.to_nat (Qfloor (between (rnd r) 0
                                (inject_Z (Z.of_nat (ENEMY_COLS - 1)))))]
           acc)
      (seq 0 ENEMY_ROWS) (set_enemies [] s) in
  let s2 :=
    set_lastSpawnedRowY
      (Some (bottomRowY - inject_Z (Z.of_nat (ENEMY_ROWS - 1)) * 50)) s1 in
  let s3 := set_nextRowIndex ENEMY_ROWS s2 in
  let s4 :=
    fold_left
      (fun acc i => set_rowsCanShoot ({[i]} ∪ rowsCanShoot acc) acc)
      (seq 0 ENEMY_ROWS) s3 in
  set_enemyShootTimer (now s4 - ENEMY_SHOOT_INTERVAL + 1000) s4.

(** The scene after the constructor and [create], at clock time [t0]. *)
Definition initial (t0 : Q) (rnd : nat -> Q) : Game :=
  createEnemies rnd
    (mkGame t0 [] (createPlayer 0) [] [] [] 0 3 1 ENEMY_HORIZONTAL_SPEED
       false false true false 0 0 ∅ None false None 0 None ∅ 0 None false
       0 0 1).

(** ** The engine as environment *)

(** The click handler of the start button. *)
Definition startEnemy (vx : Q) (e : Enemy) : Enemy :=
  match isAlive e, body (obj e) with
  | true, Some b =>
      set_obj
        (set_body (Some (mkBody true vx 0 (gravityY b) (allowGravity b)))
           (obj e))
        e
  | _, _ => e
  end.

Definition startGame (s : Game) : Game :=
  let s1 := set_gameStartDivShown false s in
  let s2 := set_gameActive true s1 in
  let s3 := set_physicsPaused false s2 in
  let s4 :=
    set_enemyShootTimer (now s3 - ENEMY_SHOOT_INTERVAL + 1000) s3 in
  let s5 := set_playerShootTimer (now s4) s4 in
  set_enemies
    (map (startEnemy (inject_Z (enemyDirection s5) * enemySpeed s5))
         (enemies s5))
    s5.

(** The scene clock: [now] advances to [t] and the delayed calls that are
    due run, in the order in which they were scheduled. *)
Definition isDue (t : Q) (tc : Q * Callback) : bool := Qle_bool (fst tc) t.

Definition clockUpdate (t : Q) (s : Game) : Game :=
  let s1 := set_now t s in
  let due := filter (fun tc => isDue t tc = true) (timers s1) in
  let pending := filter (fun tc => isDue t tc = false) (timers s1) in
  fold_left (fun acc tc => runCallback (snd tc) acc) due
    (set_timers pending s1).

(** The Arcade physics step over [dt] milliseconds: every enabled body moves
    by its velocity (pixels per second). *)
Definition integrate (dt : Q) (o : GameObject) : GameObject :=
  match body o with
  | Some b =>
      if enable b
      then set_y (y o + velocityY b * dt / 1000)
             (set_x (x o + velocityX b * dt / 1000) o)
      else o
  | None => o
  end.

Definition worldStep (dt : Q) (s : Game) : Game :=
  set_enemyBullets (map (integrate dt) (enemyBullets s))
    (set_playerBullets (map (integrate dt) (playerBullets s))
       (set_enemies (map (fun e => set_obj (integrate dt (obj e)) e)
                         (enemies s))
          s)).

Definition findObject (id : nat) (l : list GameObject) : option GameObject :=
  List.find (fun o => Nat.eqb (oid o) id) l.

Definition findEnemy (id : nat) (l : list Enemy) : option Enemy :=
  List.find (fun e => Nat.eqb (oid (obj e)) id) l.

(** What can happen to the scene.  Overlaps are reported by the engine for
    members of the groups and arrays the colliders were registered on; the
    objects are named by their identities. *)
Inductive Event :=
| ClockUpdate (t : Q)
| WorldStep (dt : Q)
| OverlapBulletEnemy (bulletId enemyId : nat)
| OverlapBulletPlayer (bulletId : nat)
| OverlapPlayerPowerUp
| SceneUpdate (inp : Pointer) (rnd : Random)
| StartClick.

Definition step (ev : Event) (s : Game) : Game :=
  match ev with
  | ClockUpdate t => clockUpdate t s
  | WorldStep dt => if physicsPaused s then s else worldStep dt s
  | OverlapBulletEnemy bulletId enemyId =>
      if physicsPaused s then s
      else
        match findObject bulletId (playerBullets s),
              findEnemy enemyId (enemies s) with
        | Some bullet, Some enemy => hitEnemy bullet enemy s
        | _, _ => s
        end
  | OverlapBulletPlayer bulletId =>
      if physicsPaused s then s
      else
        match findObject bulletId (enemyBullets s) with
        | Some bullet => hitPlayer bullet s
        | None => s
        end
  | OverlapPlayerPowerUp =>
      if physicsPaused s then s else collectPowerUp (powerUp s) s
  | SceneUpdate inp rnd => update inp rnd s
  | StartClick => if gameStartDivShown s then startGame s else s
  end.

Definition run (evs : list Event) (s : Game) : Game :=
  fold_left (fun acc ev => step ev acc) evs s.

End Scene.

(** The states a session can be in. *)
Inductive reachable (sizes : Dimensions) (tex : Textures) : Game -> Prop :=
| reachable_initial t0 rnd : reachable sizes tex (initial sizes tex t0 rnd)
| reachable_step ev s :
    reachable sizes tex s -> reachable sizes tex (step sizes tex ev s).

(** ** The earlier variant of the formation movement

    The first version of the game checks every alive enemy against the edge
    margins and only moves enemies whose body is enabled. *)
Module Legacy.

Definition ENEMY_SPEED_INCREASE : Q := 2.

Section Movement.

Variable sizes : Dimensions.

Definition atEdge (dir : Z) (enemy : Enemy) : bool :=
  let enemyHalfWidth := halfWidth enemy in
  if Z.eqb dir 1
     && Qgeb (x (obj enemy) + enemyHalfWidth) (dim_width sizes - edgeMargin)
  then true
  else Z.eqb dir (-1)
       && Qle_bool (x (obj enemy) - enemyHalfWidth) edgeMargin.

Definition edgeReached (dir : Z) (es : list Enemy) : bool :=
  existsb (fun e => isAlive e && atEdge dir e) es.

Definition moveEnemy (shouldMoveDown : bool) (vx : Q) (e : Enemy) : Enemy :=
  if negb (isAlive e) then e
  else
    let o1 := if shouldMoveDown
              then set_y (y (obj e) + ENEMY_DOWN_STEP) (obj e)
              else obj e in
    match body o1 with
    | Some b =>
        if enable b
        then set_obj (set_body (Some (mkBody true vx 0 0 false)) o1) e
        else set_obj o1 e
    | None => set_obj o1 e
    end.

Definition handleEnemyMovement (s : Game) : Game :=
  match enemies s with
  | [] => s
  | _ :: _ =>
      let shouldReverse := edgeReached (enemyDirection s) (enemies s) in
      let shouldMoveDown := shouldReverse in
      let s1 :=
        if shouldReverse
        then set_enemySpeed (enemySpeed s + ENEMY_SPEED_INCREASE)
               (set_enemyDirection (enemyDirection s * -1)%Z s)
        else s in
      set_enemies
        (map (moveEnemy shouldMoveDown
                (inject_Z (enemyDirection s1) * enemySpeed s1))
             (enemies s1))
        s1
  end.

End Movement.

End Legacy.

(** * Predicates of the statements and concrete scenes *)

(** ** Grouping by row *)

(** Every group is non-empty, and its members satisfy [P] and carry the
    row index of the group. *)
Definition groupsOk (P : Enemy -> Prop) (m : list (nat * list Enemy)) : Prop :=
  forall k l, (k, l) ∈ m -> l <> [] /\ forall a, a ∈ l -> P a /\ row a = k.

(** The enemy [a] is a member of the group of its row. *)
Definition covers (m : list (nat * list Enemy)) (a : Enemy) : Prop :=
  exists l, (row a, l) ∈ m /\ a ∈ l.

(** ** Edge detection *)

(** All alive enemies of a row have the same scaled half width. *)
Definition uniformRows (es : list Enemy) : Prop :=
  forall a b, a ∈ es -> b ∈ es -> isAlive a = true -> isAlive b = true ->
    row a = row b -> halfWidth a == halfWidth b.

(** The condition of the exhaustive check, as a proposition: some alive
    enemy has its edge within the margin on the side the formation moves to. *)
Definition someEnemyAtEdge (sizes : Dimensions) (dir : Z) (es : list Enemy)
  : Prop :=
  exists e, e ∈ es /\ isAlive e = true
    /\ ((dir = 1%Z
         /\ dim_width sizes - edgeMargin <= x (obj e) + halfWidth e)
        \/ (dir = (-1)%Z /\ x (obj e) - halfWidth e <= edgeMargin)).

(** A decision procedure for [uniformRows], used on concrete scenes. *)
Definition uniformRowsb (es : list Enemy) : bool :=
  forallb
    (fun a =>
       forallb
         (fun b =>
            negb (isAlive a && isAlive b && Nat.eqb (row a) (row b))
            || Qeq_bool (halfWidth a) (halfWidth b))
         es)
    es.

(** ** Bullet caps *)

(** The cap of [handlePlayerShooting]: [this.playerDoubleShot ? 6 : 3]. *)
Definition playerCap (s : Game) : nat := if playerDoubleShot s then 6 else 3.

(** The number of bullets a shot adds to [n] enemy bullets in flight. *)
Definition enemyShots (super : bool) (n : nat) : nat :=
  if super then
    (if Nat.ltb n 28 then 2 else if Nat.ltb n 29 then 1 else 0)%nat
  else (if Nat.ltb n 29 then 1 else 0)%nat.

(** ** Session invariants *)


Definition isPlayerHitRelease (tc : Q * Callback) : bool :=
  match snd tc with
  | ReleasePlayerHit => true
  | ReleaseRowShooting => false
  end.

(** The scene after a hit that is processed, before the game-over check. *)
Definition afterHit (b : GameObject) (s : Game) : Game :=
  set_lives (lives s - 1)%Z (destroyBullet b (set_playerHitProcessing true s)).

(** The line [checkGameOver] compares the lower edge of the enemies with. *)
Definition gameOverThreshold (s : Game) : Q :=
  y (player s) + (height (player s) * scaleY (player s)) / 2 - 10.

(** While a hit is being processed: the flag is set, the lives are [L], the
    release scheduled for time [T] is pending and no release is due before. *)
Definition hitHeld (T : Q) (L : Z) (s : Game) : Prop :=
  playerHitProcessing s = true
  /\ lives s = L
  /\ (T, ReleasePlayerHit) ∈ timers s
  /\ Forall (fun tc => isPlayerHitRelease tc = true -> T <= fst tc) (timers s).

(** The event does not advance the clock to [T] or beyond. *)
Definition before (T : Q) (ev : Event) : Prop :=
  match ev with
  | ClockUpdate t => t < T
  | _ => True
  end.

(** At most one release of the hit flag is pending, and none while the flag
    is clear. *)
Definition hitInv (s : Game) : Prop :=
  (length (filter (fun tc => isPlayerHitRelease tc = true) (timers s)) <= 1)%nat
  /\ (playerHitProcessing s = false ->
      Forall (fun tc => isPlayerHitRelease tc = false) (timers s)).



(** ** Power-up milestones *)

(** The power-up check of a row spawn, on the count after the spawn. *)
Definition milestoneDue (s : Game) : bool :=
  Nat.eqb (S (spawnedRowCount s) mod POWERUP_SPAWN_AFTER_ROWS) 0
  && negb (Nat.eqb (S (spawnedRowCount s)) (lastPowerUpSpawnRow s)).

(** ** Row spawning *)

(** The velocity given to the enemies of the row being spawned. *)
Definition launch (s : Game) (e : Enemy) : Enemy :=
  if Nat.eqb (row e) (nextRowIndex s)
  then launchEnemy (inject_Z (enemyDirection s) * enemySpeed s) e
  else e.

(** ** Enemy volleys *)

(** A result of [Math.random()]. *)
Definition inUnit (r : Q) : Prop := 0 <= r /\ r < 1.



(** ** Concrete scenes *)

(** A 1080x1920 screen, so that [scale] is 1. *)
Definition demoSizes : Dimensions := mkDimensions 1080 1920.

(** All three textures 64 pixels wide and high. *)
Definition demoTextures : Textures := mkTextures 64 64 64 64 64 64.

(** A super-alien texture four times as wide as the alien texture. *)
Definition wideSuperTextures : Textures := mkTextures 64 64 256 64 64 64.

Definition constRandom (r : Q) : Random :=
  mkRandom (fun _ => r) r (fun _ => r) r.

Definition noPointer : Pointer := mkPointer false 0.

(** The formation after the start click and 12.1 s of movement to the right:
    the rightmost column has reached the right margin. *)
Definition sceneAtRightEdge : Game :=
  run demoSizes demoTextures [StartClick; WorldStep 12100]
    (initial demoSizes demoTextures 0 (fun _ => 1 # 2)).

(** With the wide super-alien texture and the super alien of every row in
    column 4: after 11.5 s the super aliens reach into the right margin while
    the regular aliens of column 5, further right, do not. *)
Definition sceneWideSuperAtEdge : Game :=
  run demoSizes wideSuperTextures [StartClick; WorldStep 11500]
    (initial demoSizes wideSuperTextures 0 (fun _ => 7 # 10)).

(** A narrow window, 300 pixels wide: the formation spans both edge margins,
    so that every frame reverses it and steps it down. *)
Definition narrowSizes : Dimensions := mkDimensions 300 1920.


(** [n] frames, [dt] milliseconds apart, the first at [t0 + dt]: the clock,
    the physics step, the scene update. *)
Definition frames (t0 dt : Q) (n : nat) : list Event :=
  flat_map
    (fun k =>
       [ClockUpdate (t0 + inject_Z (Z.of_nat (S k)) * dt); WorldStep dt;
        SceneUpdate noPointer (constRandom (1 # 2))])
    (seq 0 n).

(** The same without physics steps (frames that come faster than the fixed
    physics step). *)
Definition ticks (t0 dt : Q) (n : nat) : list Event :=
  flat_map
    (fun k =>
       [ClockUpdate (t0 + inject_Z (Z.of_nat (S k)) * dt);
        SceneUpdate noPointer (constRandom (1 # 2))])
    (seq 0 n).

(** The scene on entry to [checkSpawnNewRow] within a frame. *)
Definition beforeSpawn (sizes : Dimensions) (inp : Pointer) (rnd : Random)
    (s : Game) : Game :=
  cleanupBullets sizes
    (handleEnemyShooting rnd
       (handleEnemyMovement sizes
          (handlePlayerShooting (handlePlayerMovement sizes inp s)))).

Definition demoStart : Game :=
  initial demoSizes demoTextures 0 (fun _ => 1 # 2).

Definition narrowStart : Game :=
  initial narrowSizes demoTextures 0 (fun _ => 1 # 2).


(** After the first scene update: an enemy has fired. *)
Definition sceneUnderFire : Game :=
  run demoSizes demoTextures
    [StartClick; ClockUpdate 1000;
     SceneUpdate noPointer (constRandom (1 # 2))]
    demoStart.

Definition firstEnemyBullet (s : Game) : GameObject :=
  hd (newRectangle 0 0 0 0 0 0) (enemyBullets s).

Definition pendingPowerUp (s : Game) : GameObject :=
  match powerUp s with
  | Some p => p
  | None => newRectangle 0 0 0 0 0 0
  end.

Definition highestY (s : Game) : Q :=
  match topmostY (enemies s) with
  | Some top => top
  | None => 0
  end.

Definition firstEnemy (s : Game) : Enemy :=
  hd (mkEnemy (newRectangle 0 0 0 0 0 0) false 0 false 0) (enemies s).

(** The narrow session after 15 frames, at the clock of the 16th: 5 rows
    have been spawned and the 16th frame spawns the next. *)
Definition sceneFiveRows : Game :=
  run narrowSizes demoTextures
    (StartClick :: ticks 0 16 15 ++ [ClockUpdate 256]) narrowStart.

(** The narrow session after 28 frames: the 10th row has been spawned and
    with it the power-up. *)
Definition sceneWithPowerUp : Game :=
  run narrowSizes demoTextures (StartClick :: ticks 0 16 28) narrowStart.

(** The power-up is collected at 448 ms; 14 frames, 750 ms apart, follow:
    the last is the first at or after the expiry at 10448 ms. *)
Definition sceneAfterExpiry : Game :=
  run narrowSizes demoTextures
    (OverlapPlayerPowerUp :: frames 448 750 14) sceneWithPowerUp.

(** The narrow session with the power-up never collected, after 57 frames,
    at the clock of the 58th: 19 rows have been spawned. *)
Definition sceneNineteenRows : Game :=
  run narrowSizes demoTextures
    (StartClick :: ticks 0 16 57 ++ [ClockUpdate 928]) narrowStart.


(** The 16th frame of the narrow session on entry to [checkSpawnNewRow]. *)
Definition sceneSixthRowDue : Game :=
  beforeSpawn narrowSizes noPointer (constRandom (1 # 2)) sceneFiveRows.

(** The 58th frame of the narrow session on entry to [checkSpawnNewRow]: the
    20th row is due while the power-up of the 10th is still on screen. *)
Definition sceneTwentiethRowDue : Game :=
  beforeSpawn narrowSizes noPointer (constRandom (1 # 2)) sceneNineteenRows.


(** ** What a method leaves alone

    [butX s] is the scene [s] with the fields that X may write reset to
    fixed values: a method changes nothing else when it commutes with it. *)

(** The fields written by [handlePlayerMovement]. *)
Definition butPlayer (s : Game) : Game :=
  set_player (mkObject 0 0 0 0 0 0 0 false None) s.

(** The fields written by [checkPowerUpExpiration]. *)
Definition butBuff (s : Game) : Game :=
  set_playerDoubleShot false s.

(** The fields written by [handlePlayerShooting]. *)
Definition butPlayerShooting (s : Game) : Game :=
  set_playerShootTimer 0 (set_playerBullets [] (set_nextId 0%nat s)).

(** The fields written by [handleEnemyMovement]. *)
Definition butMovement (s : Game) : Game :=
  set_enemies [] (set_enemyDirection 0%Z (set_enemySpeed 0 s)).

(** The fields written by [prepareVolley]. *)
Definition butVolley (s : Game) : Game :=
  set_enemyShootTimer 0 (set_rowsCanShoot ∅ (set_rowShooting None s)).

(** The fields written by [shootFromEnemy]. *)
Definition butShot (s : Game) : Game :=
  set_enemyBullets [] (set_nextId 0%nat (set_rowsCanShoot ∅ s)).

(** The fields written by [fireFrom], [tryShoot]. *)
Definition butFire (s : Game) : Game :=
  set_rowShooting None (set_rowLastShotTime ∅ (set_enemyBullets [] (
    set_nextId 0%nat (set_rowsCanShoot ∅ (set_timers [] s))))).

(** The fields written by [handleEnemyShooting]. *)
Definition butEnemyShooting (s : Game) : Game :=
  set_enemyShootTimer 0 (set_rowsCanShoot ∅ (set_rowShooting None (
    set_rowLastShotTime ∅ (set_enemyBullets [] (set_nextId 0%nat (
    set_timers [] s)))))).

(** The fields written by [cleanupBullets]. *)
Definition butBullets (s : Game) : Game :=
  set_playerBullets [] (set_enemyBullets [] s).

(** The fields written by [spawnPowerUp], [powerUpMilestone]. *)
Definition butMilestone (s : Game) : Game :=
  set_powerUp None (set_nextId 0%nat (set_lastPowerUpSpawnRow 0%nat s)).

(** The fields written by [spawnNewRow], [checkSpawnNewRow]. *)
Definition butSpawn (s : Game) : Game :=
  set_enemies [] (set_nextId 0%nat (set_lastSpawnedRowY None (
    set_lastSpawnCheckY None (set_spawnedRowCount 0%nat (set_powerUp None (
    set_lastPowerUpSpawnRow 0%nat (set_rowsCanShoot ∅ (
    set_nextRowIndex 0%nat s)))))))).

(** The fields written by [gameOver], [checkGameOver]. *)
Definition butGameOver (s : Game) : Game :=
  set_gameActive false (set_physicsPaused false (set_gameEndDivShown false s)).

(** The fields written by [hitEnemy]. *)
Definition butHitEnemy (s : Game) : Game :=
  set_playerBullets [] (set_enemyBullets [] (set_enemies [] (
    set_rowsCanShoot ∅ (set_score 0%Z s)))).

(** The fields written by [hitPlayer]. *)
Definition butHitPlayer (s : Game) : Game :=
  set_playerHitProcessing false (set_playerBullets [] (set_enemyBullets [] (
    set_lives 0%Z (set_timers [] (set_gameActive false (
    set_physicsPaused false (set_gameEndDivShown false s))))))).

(** The fields written by [collectPowerUp]. *)
Definition butCollect (s : Game) : Game :=
  set_powerUp None (set_playerDoubleShot false (set_powerUpEndTime 0 s)).

(** The fields written by [runCallback]. *)
Definition butCallbacks (s : Game) : Game :=
  set_rowShooting None (set_playerHitProcessing false s).

(** The fields written by [clockUpdate]. *)
Definition butClock (s : Game) : Game :=
  set_now 0 (set_timers [] (set_rowShooting None (
    set_playerHitProcessing false s))).

(** The fields written by [worldStep]. *)
Definition butWorld (s : Game) : Game :=
  set_enemies [] (set_playerBullets [] (set_enemyBullets [] s)).

(** The fields written by [startGame]. *)
Definition butStart (s : Game) : Game :=
  set_gameStartDivShown false (set_gameActive false (
    set_physicsPaused false (set_enemyShootTimer 0 (set_playerShootTimer 0 (
    set_enemies [] s))))).

(** The fields written by [update]. *)
Definition butUpdate (s : Game) : Game :=
  set_player (mkObject 0 0 0 0 0 0 0 false None) (set_playerShootTimer 0 (
    set_playerBullets [] (set_nextId 0%nat (set_enemies [] (
    set_enemyDirection 0%Z (set_enemySpeed 0 (set_enemyShootTimer 0 (
    set_rowsCanShoot ∅ (set_rowShooting None (set_rowLastShotTime ∅ (
    set_enemyBullets [] (set_timers [] (set_lastSpawnedRowY None (
    set_lastSpawnCheckY None (set_spawnedRowCount 0%nat (set_powerUp None (
    set_lastPowerUpSpawnRow 0%nat (set_nextRowIndex 0%nat (
    set_playerDoubleShot false (set_gameActive false (
    set_physicsPaused false (set_gameEndDivShown false s)))))))))))))))))))))).

(** * Further parts of the scene *)

(** ** The heads-up display: [createUI] *)

(** [Math.max(20, Math.min(35, sizes.width / 30))] *)
Definition fontSize (sizes : Dimensions) : Q :=
  Qmax 20 (Qmin 35 (dim_width sizes / 30)).

(** [Math.max(1, Math.min(3, sizes.width / 400))] *)
Definition strokeThickness (sizes : Dimensions) : Q :=
  Qmax 1 (Qmin 3 (dim_width sizes / 400)).

(** ** Shots *)

(** The number of bullets a player shot adds to [n] bullets in flight. *)
Definition playerShots (double : bool) (n : nat) : nat :=
  if double then
    (if Nat.ltb n 6 then (if Nat.ltb (n + 1) 6 then 2 else 1) else 0)%nat
  else (if Nat.ltb n 3 then 1 else 0)%nat.

(** The body of a bullet: enabled, moving vertically at [vy], no gravity. *)
Definition bulletBody (vy : Q) : option Body :=
  Some (mkBody true 0 vy 0 false).

(** Where a bullet of the player starts: 10 pixels above its upper edge. *)
Definition muzzleY (s : Game) : Q :=
  y (player s) - (height (player s) * scaleY (player s)) / 2 - 10.

(** Where a bullet of an enemy starts: 5 pixels below its lower edge. *)
Definition bulletSpawnY (e : Enemy) : Q :=
  y (obj e) + (height (obj e) * scaleY (obj e)) / 2 + 5.

(** ** Phases of a session *)


Definition running (s : Game) : Prop :=
  gameStartDivShown s = false /\ gameActive s = true
  /\ physicsPaused s = false /\ gameEndDivShown s = false.


(** ** Scores *)


(** Is a player shot due?  The timer is set and the interval has passed. *)
Definition shotDue (s : Game) : bool :=
  negb (Qeq_bool (playerShootTimer s) 0)
  && Qgeb (now s - playerShootTimer s) PLAYER_SHOOT_INTERVAL.

(** ** Overlap reports *)

(** An overlap of the player bullet [bulletId] with some enemy. *)
Definition sameBullet (bulletId : nat) (ev : Event) : Prop :=
  exists enemyId, ev = OverlapBulletEnemy bulletId enemyId.

(** ** The initial formation *)

(** The column of the super alien of the initial row [r]:
    [Phaser.Math.Between(0, ENEMY_COLS - 1)] drawn with [rnd r]. *)
Definition initialSuperColumn (rnd : nat -> Q) (r : nat) : nat :=
  Z.to_nat
    (Qfloor (between (rnd r) 0 (inject_Z (Z.of_nat (ENEMY_COLS - 1))))).

(** ** The hit flag *)

(** A release of the hit flag is pending at time [T]. *)
Definition releasePending (T : Q) (s : Game) : Prop :=
  (T, ReleasePlayerHit) ∈ timers s.

(** ** Further concrete scenes *)

(** The frame at 1750 ms: the player has fired its first bullet. *)
Definition sceneWithShot : Game :=
  run demoSizes demoTextures
    [ClockUpdate 1750; SceneUpdate noPointer (constRandom (1 # 2))]
    sceneUnderFire.

Definition firstPlayerBullet (s : Game) : GameObject :=
  hd (newRectangle 0 0 0 0 0 0) (playerBullets s).

(** The first enemy bullet has hit the player. *)
Definition sceneHit : Game :=
  step demoSizes demoTextures
    (OverlapBulletPlayer (oid (firstEnemyBullet sceneUnderFire)))
    sceneUnderFire.

(** * The first version of the game

    The earliest version of the scene ([part_001]): a fixed formation of
    5 rows of 10 enemies, no lives (one hit ends the game), no power-ups and
    no new rows; the game also ends when the last enemy is killed, and a
    retry button restarts it.  Its formation movement is [Legacy] above; the
    player movement and [cleanupBullets] are those of the later version.
    The methods of a frame are modelled one by one. *)
Module LegacyScene.

(** The game parameters that differ from the later version. *)
Definition ENEMY_BULLET_SPEED : Q := 400.
Definition PLAYER_SHOOT_INTERVAL : Q := 1000.
Definition ENEMY_COLS : nat := 10.
Definition ENEMY_SPACING : Q := 60.

Section Scene.

Variable sizes : Dimensions.
Variable tex : Textures.

(** What adding a game object to a physics group does to its body (the
    group applies its defaults): this version configures the body of a
    bullet before it adds the bullet to its group. *)
Variable groupDefaults : Body -> Body.

(** [this.physics.add.image(x, y, key).setOrigin(0.5, 0.5).setScale(scale * 0.45)]
    with a body at rest. *)
Definition newImage (id : nat) (px py w h : Q) : GameObject :=
  mkObject id px py w h (scale sizes * (9 # 20)) (scale sizes * (9 # 20)) true
    (Some (mkBody true 0 0 0 false)).

Definition createPlayer (id : nat) : GameObject :=
  newImage id (dim_width sizes / 2) (dim_height sizes - 50)
    (playerW tex) (playerH tex).

(** The body of the two loops of [createEnemies]. *)
Definition newEnemy (id0 : nat) (startX startY : Q) (r col : nat) : Enemy :=
  let px := startX + inject_Z (Z.of_nat col) * ENEMY_SPACING in
  let py := startY + inject_Z (Z.of_nat r) * 50 in
  let isSuper := Nat.eqb ((r * ENEMY_COLS + col) mod 5) 0 in
  mkEnemy
    (newImage (id0 + (r * ENEMY_COLS + col)) px py
       (if isSuper then superAlienW tex else alienW tex)
       (if isSuper then superAlienH tex else alienH tex))
    true r isSuper 0.

Definition createEnemies (s : Game) : Game :=
  let startX :=
    (dim_width sizes - inject_Z (Z.of_nat ENEMY_COLS) * ENEMY_SPACING) / 2 in
  let startY := 100 in
  let s1 :=
    set_nextId (nextId s + ENEMY_ROWS * ENEMY_COLS)
      (set_enemies
         (flat_map
            (fun r =>
               map (fun col => newEnemy (nextId s) startX startY r col)
                   (seq 0 ENEMY_COLS))
            (seq 0 ENEMY_ROWS))
         s) in
  let s2 :=
    fold_left
      (fun acc i => set_rowsCanShoot ({[i]} ∪ rowsCanShoot acc) acc)
      (seq 0 ENEMY_ROWS) s1 in
  set_enemyShootTimer (now s2 - ENEMY_SHOOT_INTERVAL + 1000) s2.

(** A bullet: the rectangle gets its body, the body its velocity, and then
    the bullet is added to its group. *)
Definition newBullet (id : nat) (px py vy : Q) : GameObject :=
  mkObject id px py BULLET_WIDTH BULLET_HEIGHT 1 1 true
    (Some (groupDefaults (mkBody true 0 vy 0 false))).

Definition handlePlayerShooting (s : Game) : Game :=
  let currentTime := now s in
  let s1 :=
    if Qeq_bool (playerShootTimer s) 0
    then set_playerShootTimer currentTime s else s in
  let timeSinceLastShot := currentTime - playerShootTimer s1 in
  if Qgeb timeSinceLastShot PLAYER_SHOOT_INTERVAL then
    let s2 := set_playerShootTimer currentTime s1 in
    let activeBullets := length (playerBullets s2) in
    if Nat.ltb activeBullets 3 then
      let bullet :=
        newBullet (nextId s2) (x (player s2))
          (y (player s2) - (height (player s2) * scaleY (player s2)) / 2 - 10)
          (- BULLET_SPEED) in
      set_nextId (S (nextId s2))
        (set_playerBullets (playerBullets s2 ++ [bullet]) s2)
    else s2
  else s1.

Definition addEnemyBullet (px py : Q) (s : Game) : Game :=
  set_nextId (S (nextId s))
    (set_enemyBullets
       (enemyBullets s ++ [newBullet (nextId s) px py ENEMY_BULLET_SPEED])
       s).

Definition shootFromEnemy (enemy : Enemy) (s : Game) : Game :=
  let s2 :=
    if isSuperAlien enemy then
      let s1 :=
        if Nat.ltb (length (enemyBullets s)) 28
        then addEnemyBullet (x (obj enemy) - 10) (y (obj enemy) + 20) s
        else s in
      if Nat.ltb (length (enemyBullets s1)) 29
      then addEnemyBullet (x (obj enemy) + 10) (y (obj enemy) + 20) s1
      else s1
    else
      if Nat.ltb (length (enemyBullets s)) 29
      then addEnemyBullet (x (obj enemy)) (y (obj enemy) + 20) s
      else s in
  set_rowsCanShoot (rowsCanShoot s2 ∖ {[row enemy]}) s2.

(** The volley reset: only the rows [0 .. ENEMY_ROWS - 1] are looked at. *)
Definition rowsWithAliveEnemies (es : list Enemy) : gset nat :=
  list_to_set
    (filter
       (fun i => existsb (fun e => isAlive e && Nat.eqb (row e) i) es = true)
       (seq 0 ENEMY_ROWS)).

Definition volleyReset (currentTime : Q) (s : Game) : Game :=
  set_rowShooting None
    (set_rowsCanShoot (rowsWithAliveEnemies (enemies s))
       (set_enemyShootTimer currentTime s)).

Definition prepareVolley (s : Game) : Game :=
  let currentTime := now s in
  let s1 := initShootTimer s in
  if volleyDue currentTime s1 then volleyReset currentTime s1 else s1.

Definition canShoot (s : Game) (e : Enemy) : bool :=
  isAlive e && bool_decide (row e ∈ rowsCanShoot s).

Definition enemiesReadyToShoot (s : Game) : list Enemy :=
  filter (fun e => canShoot s e = true) (enemies s).

Definition fireFrom (enemy : Enemy) (s : Game) : Game :=
  let s1 := set_rowShooting (Some (row enemy)) s in
  let s2 := shootFromEnemy enemy s1 in
  delayedCall 100 ReleaseRowShooting s2.

Definition handleEnemyShooting (rnd : Random) (s : Game) : Game :=
  match enemies s with
  | [] => s
  | _ :: _ =>
      let s1 := prepareVolley s in
      match rowShooting s1 with
      | Some _ => s1
      | None =>
          match getRandom (shootPick rnd) (enemiesReadyToShoot s1) with
          | None => s1
          | Some enemy => fireFrom enemy s1
          end
      end
  end.

Definition reachedLine (e : Enemy) : bool :=
  isAlive e && Qgeb (y (obj e)) (dim_height sizes - 100).

Definition checkGameOver (s : Game) : Game :=
  if existsb reachedLine (enemies s) then gameOver s
  else
    match filter (fun e => isAlive e = true) (enemies s) with
    | [] => gameOver s
    | _ :: _ => s
    end.

Definition hitEnemy (bullet : GameObject) (enemy : Enemy) (s : Game) : Game :=
  if negb (isAlive enemy) then s
  else
    let s1 := set_enemies (spliceEnemy (oid (obj enemy)) (enemies s)) s in
    let s2 := destroyBullet bullet s1 in
    updateScore 10 s2.

Definition hitPlayer (bullet : GameObject) (s : Game) : Game :=
  gameOver (destroyBullet bullet s).


(** [enemy.setVelocityX(...)] and [enemy.setVelocityY(0)] at the end of
    [restart]. *)
Definition launchEnemy (vx : Q) (e : Enemy) : Enemy :=
  match isAlive e, body (obj e) with
  | true, Some b =>
      set_obj
        (set_body
           (Some (mkBody (enable b) vx 0 (gravityY b) (allowGravity b)))
           (obj e))
        e
  | _, _ => e
  end.



(** The scene after the constructor and [create], at clock time [t0]; the
    fields this version does not have keep fixed values. *)
Definition initial (t0 : Q) : Game :=
  createEnemies
    (mkGame t0 [] (createPlayer 0) [] [] [] 0 0 1 ENEMY_HORIZONTAL_SPEED
       false false true false 0 0 ∅ None false None 0 None ∅ 0 None false
       0 0 1).

End Scene.

End LegacyScene.

Definition isRowRelease (tc : Q * Callback) : bool :=
  match snd tc with
  | ReleaseRowShooting => true
  | ReleasePlayerHit => false
  end.

(** The first version, one second after its creation at time 0. *)
Definition legacySceneReady : Game :=
  set_now 1000 (LegacyScene.initial demoSizes demoTextures 0).

(** ** Shapes that stay *)


(** The bullet is active and flies vertically at [vy]. *)
Definition fliesAt (vy : Q) (b : GameObject) : Prop :=
  active b = true /\ body b = bulletBody vy.

Definition bulletsOk (s : Game) : Prop :=
  Forall (fliesAt (- BULLET_SPEED)) (playerBullets s)
  /\ Forall (fliesAt ENEMY_BULLET_SPEED) (enemyBullets s).

(** * Properties *)

(** ** Comparisons *)

Lemma Qgeb_true (a b : Q) : Qgeb a b = true <-> b <= a.
Proof. unfold Qgeb. apply Qle_bool_iff. Qed.

Lemma Qltb_true (a b : Q) : Qltb a b = true <-> a < b.
Proof.
  unfold Qltb. rewrite negb_true_iff, <- not_true_iff_false, Qle_bool_iff.
  split; [apply Qnot_le_lt | apply Qlt_not_le].
Qed.

Lemma Qgtb_true (a b : Q) : Qgtb a b = true <-> b < a.
Proof.
  unfold Qgtb. rewrite negb_true_iff, <- not_true_iff_false, Qle_bool_iff.
  split; [apply Qnot_le_lt | apply Qlt_not_le].
Qed.

Lemma Qltb_false (a b : Q) : Qltb a b = false <-> b <= a.
Proof.
  rewrite <- not_true_iff_false, Qltb_true.
  split; [apply Qnot_lt_le | apply Qle_not_lt].
Qed.

Lemma Qgtb_false (a b : Q) : Qgtb a b = false <-> a <= b.
Proof.
  rewrite <- not_true_iff_false, Qgtb_true.
  split; [apply Qnot_lt_le | apply Qle_not_lt].
Qed.

(** ** Grouping the alive enemies by row *)

Lemma pushRow_groupsOk P e m :
  groupsOk P m -> P e -> groupsOk P (pushRow e m).
Proof.
  intros Hm He. induction m as [|[k es] m IH]; simpl.
  - intros k l Hin. apply list_elem_of_singleton in Hin. inversion Hin; subst.
    split; [discriminate|]. intros a Ha.
    apply list_elem_of_singleton in Ha. subst. auto.
  - assert (Hhd : es <> [] /\ forall a, a ∈ es -> P a /\ row a = k)
      by (apply Hm; left).
    assert (Htl : groupsOk P m)
      by (intros k' l' Hin; apply Hm; right; exact Hin).
    destruct (Nat.eqb_spec k (row e)) as [Heq|Hne].
    + intros k' l' Hin. apply elem_of_cons in Hin as [Hin|Hin].
      * inversion Hin; subst. split.
        { intros Happ. apply app_eq_nil in Happ as [_ Happ]. discriminate. }
        intros a Ha. apply elem_of_app in Ha as [Ha|Ha].
        { apply Hhd; exact Ha. }
        apply list_elem_of_singleton in Ha. subst. auto.
      * apply Htl; exact Hin.
    + destruct (Nat.ltb (row e) k).
      * intros k' l' Hin. apply elem_of_cons in Hin as [Hin|Hin].
        { inversion Hin; subst. split; [discriminate|]. intros a Ha.
          apply list_elem_of_singleton in Ha. subst. auto. }
        apply Hm; exact Hin.
      * intros k' l' Hin. apply elem_of_cons in Hin as [Hin|Hin].
        { inversion Hin; subst. exact Hhd. }
        apply IH; [exact Htl | exact Hin].
Qed.

Lemma pushRow_covers_new e m : covers (pushRow e m) e.
Proof.
  induction m as [|[k es] m IH]; simpl.
  - exists [e]. split; apply list_elem_of_singleton; reflexivity.
  - destruct (Nat.eqb_spec k (row e)) as [Heq|Hne].
    + exists (es ++ [e]). subst k. split; [left|].
      apply elem_of_app; right. apply list_elem_of_singleton; reflexivity.
    + destruct (Nat.ltb (row e) k).
      * exists [e]. split; [left | apply list_elem_of_singleton; reflexivity].
      * destruct IH as (l & Hl & He). exists l. split; [right|]; assumption.
Qed.

Lemma pushRow_covers_old e m a : covers m a -> covers (pushRow e m) a.
Proof.
  intros (l & Hl & Ha). induction m as [|[k es] m IH]; simpl.
  - inversion Hl.
  - apply elem_of_cons in Hl as [Hl|Hl].
    + injection Hl as Hk Hes. subst k es.
      destruct (Nat.eqb (row a) (row e)).
      * exists (l ++ [e]). split; [left|]. apply elem_of_app; left; exact Ha.
      * destruct (Nat.ltb (row e) (row a)).
        { exists l. split; [right; left | exact Ha]. }
        exists l. split; [left | exact Ha].
    + destruct (Nat.eqb k (row e)).
      * exists l. split; [right|]; assumption.
      * destruct (Nat.ltb (row e) k).
        { exists l. split; [right; right|]; assumption. }
        destruct (IH Hl) as (l' & Hl' & Ha'). exists l'.
        split; [right|]; assumption.
Qed.

Lemma groupByRow_fold_ok P es m :
  groupsOk P m ->
  (forall e, e ∈ es -> isAlive e = true -> P e) ->
  groupsOk P
    (fold_left (fun m e => if isAlive e then pushRow e m else m) es m).
Proof.
  revert m. induction es as [|e es IH]; intros m Hm HP; simpl; [exact Hm|].
  apply IH.
  - destruct (isAlive e) eqn:Ha; [|exact Hm].
    apply pushRow_groupsOk; [exact Hm|]. apply HP; [left | exact Ha].
  - intros e' He'. apply HP. right; exact He'.
Qed.

Lemma groupByRow_fold_covers es m a :
  covers m a \/ (a ∈ es /\ isAlive a = true) ->
  covers (fold_left (fun m e => if isAlive e then pushRow e m else m) es m) a.
Proof.
  revert m. induction es as [|e es IH]; intros m H; simpl.
  - destruct H as [H|[H _]]; [exact H | inversion H].
  - apply IH. destruct H as [H|[H Ha]].
    + left. destruct (isAlive e); [apply pushRow_covers_old|]; exact H.
    + apply elem_of_cons in H as [H|H].
      * subst e. rewrite Ha. left. apply pushRow_covers_new.
      * right. split; assumption.
Qed.

Lemma groupByRow_sound es k l :
  (k, l) ∈ groupByRow es ->
  l <> [] /\ forall a, a ∈ l -> (a ∈ es /\ isAlive a = true) /\ row a = k.
Proof.
  apply (groupByRow_fold_ok (fun a => a ∈ es /\ isAlive a = true)).
  - intros k' l' Hin. inversion Hin.
  - auto.
Qed.

Lemma groupByRow_complete es a :
  a ∈ es -> isAlive a = true -> covers (groupByRow es) a.
Proof. intros. apply groupByRow_fold_covers. right. auto. Qed.

(** ** The extremes of a row *)

Lemma extremes_fold es a b l r :
  fold_left
    (fun lr e =>
       (if Qltb (x (obj e)) (x (obj (fst lr))) then e else fst lr,
        if Qgtb (x (obj e)) (x (obj (snd lr))) then e else snd lr))
    es (a, b) = (l, r) ->
  (l = a \/ l ∈ es) /\ (r = b \/ r ∈ es)
  /\ x (obj l) <= x (obj a) /\ x (obj b) <= x (obj r)
  /\ forall e, e ∈ es -> x (obj l) <= x (obj e) /\ x (obj e) <= x (obj r).
Proof.
  revert a b. induction es as [|e es IH]; intros a b H; simpl in H.
  - inversion H; subst. repeat split; auto; try apply Qle_refl.
    all: match goal with Hin : _ ∈ [] |- _ => inversion Hin end.
  - apply IH in H as (Hl & Hr & Hla & Hbr & Hall).
    assert (Ha' : x (obj (if Qltb (x (obj e)) (x (obj a)) then e else a))
                  <= x (obj a)
                  /\ x (obj (if Qltb (x (obj e)) (x (obj a)) then e else a))
                     <= x (obj e)).
    { destruct (Qltb (x (obj e)) (x (obj a))) eqn:Hc.
      - apply Qltb_true in Hc. split; [apply Qlt_le_weak; exact Hc|apply Qle_refl].
      - apply Qltb_false in Hc. split; [apply Qle_refl | exact Hc]. }
    assert (Hb' : x (obj b)
                  <= x (obj (if Qgtb (x (obj e)) (x (obj b)) then e else b))
                  /\ x (obj e)
                     <= x (obj (if Qgtb (x (obj e)) (x (obj b)) then e else b))).
    { destruct (Qgtb (x (obj e)) (x (obj b))) eqn:Hc.
      - apply Qgtb_true in Hc. split; [apply Qlt_le_weak; exact Hc|apply Qle_refl].
      - apply Qgtb_false in Hc. split; [apply Qle_refl | exact Hc]. }
    destruct Ha' as [Ha1 Ha2], Hb' as [Hb1 Hb2].
    repeat split.
    + destruct Hl as [->|Hl]; [|right; right; exact Hl].
      destruct (Qltb (x (obj e)) (x (obj a))); [right; left | left; reflexivity].
    + destruct Hr as [->|Hr]; [|right; right; exact Hr].
      destruct (Qgtb (x (obj e)) (x (obj b))); [right; left | left; reflexivity].
    + eapply Qle_trans; eassumption.
    + eapply Qle_trans; eassumption.
    + apply elem_of_cons in H as [->|H]; [|apply Hall; exact H].
      eapply Qle_trans; eassumption.
    + apply elem_of_cons in H as [->|H]; [|apply Hall; exact H].
      eapply Qle_trans; eassumption.
Qed.

Lemma extremes_spec first rest l r :
  extremes first (first :: rest) = (l, r) ->
  l ∈ first :: rest /\ r ∈ first :: rest
  /\ forall e, e ∈ first :: rest ->
       x (obj l) <= x (obj e) /\ x (obj e) <= x (obj r).
Proof.
  intros H. apply extremes_fold in H as (Hl & Hr & _ & _ & Hall).
  repeat split.
  - destruct Hl as [->|Hl]; [left | exact Hl].
  - destruct Hr as [->|Hr]; [left | exact Hr].
  - apply Hall; assumption.
  - apply Hall; assumption.
Qed.

(** ** The per-row check against the check of every enemy *)

Lemma atEdge_true sizes dir e :
  Legacy.atEdge sizes dir e = true <->
  (dir = 1%Z /\ dim_width sizes - edgeMargin <= x (obj e) + halfWidth e)
  \/ (dir = (-1)%Z /\ x (obj e) - halfWidth e <= edgeMargin).
Proof.
  unfold Legacy.atEdge.
  destruct (Z.eqb_spec dir 1) as [H1|H1]; simpl.
  - destruct (Qgeb _ _) eqn:Hc.
    + split; [|reflexivity]. intros _. left. split; [exact H1|].
      apply Qgeb_true; exact Hc.
    + destruct (Z.eqb_spec dir (-1)) as [H2|H2]; [lia|]. simpl.
      split; [discriminate|]. intros [[_ H]|[H _]]; [|lia].
      apply Qgeb_true in H. congruence.
  - destruct (Z.eqb_spec dir (-1)) as [H2|H2]; simpl.
    + rewrite Qle_bool_iff. split; [intros H; right; auto|].
      intros [[H _]|[_ H]]; [lia | exact H].
    + split; [discriminate|]. intros [[H _]|[H _]]; lia.
Qed.

Lemma legacy_edgeReached_true sizes dir es :
  Legacy.edgeReached sizes dir es = true <-> someEnemyAtEdge sizes dir es.
Proof.
  unfold Legacy.edgeReached, someEnemyAtEdge. rewrite existsb_exists.
  split.
  - intros (e & Hin & H). apply andb_true_iff in H as [Ha He].
    exists e. rewrite list_elem_of_In. rewrite atEdge_true in He. auto.
  - intros (e & Hin & Ha & He). exists e. rewrite <- list_elem_of_In.
    split; [exact Hin|]. rewrite Ha. simpl. apply atEdge_true. exact He.
Qed.

Lemma rowAtEdge_true sizes dir l :
  l <> [] ->
  (forall a b, a ∈ l -> b ∈ l -> halfWidth a == halfWidth b) ->
  rowAtEdge sizes dir l = true <->
  exists e, e ∈ l /\ Legacy.atEdge sizes dir e = true.
Proof.
  intros Hne Hu. destruct l as [|first rest]; [congruence|].
  unfold rowAtEdge.
  destruct (extremes first (first :: rest)) as [lm rm] eqn:Hex.
  apply extremes_spec in Hex as (Hl & Hr & Hall).
  split.
  - intros H.
    destruct (Z.eqb_spec dir 1) as [H1|H1]; simpl in H.
    + destruct (Qgeb _ _) eqn:Hc.
      * exists rm. split; [exact Hr|]. apply atEdge_true. left.
        split; [exact H1 | apply Qgeb_true; exact Hc].
      * destruct (Z.eqb_spec dir (-1)); [lia | discriminate].
    + destruct (Z.eqb_spec dir (-1)) as [H2|H2]; simpl in H; [|discriminate].
      exists lm. split; [exact Hl|]. apply atEdge_true. right.
      split; [exact H2 | apply Qle_bool_iff; exact H].
  - intros (e & He & Hat). apply atEdge_true in Hat.
    destruct Hat as [[H1 Hc]|[H2 Hc]].
    + subst dir. simpl.
      assert (Hg : Qgeb (x (obj rm) + halfWidth rm)
                     (dim_width sizes - edgeMargin) = true).
      { apply Qgeb_true. destruct (Hall e He) as [_ Hx].
        pose proof (Hu e rm He Hr) as Hw. lra. }
      rewrite Hg. reflexivity.
    + subst dir. simpl. apply Qle_bool_iff.
      destruct (Hall e He) as [Hx _].
      pose proof (Hu e lm He Hl) as Hw. lra.
Qed.

(** The helper behind the refinement: with uniform half widths per row the
    check of the row extremes decides the same as the check of everyone. *)
Lemma edgeReached_true sizes dir es :
  uniformRows es ->
  edgeReached sizes dir es = true <-> someEnemyAtEdge sizes dir es.
Proof.
  intros Hu. unfold edgeReached. rewrite existsb_exists. split.
  - intros ([k l] & Hin & H). simpl in H.
    apply list_elem_of_In in Hin.
    destruct (groupByRow_sound _ _ _ Hin) as [Hne Hmem].
    apply rowAtEdge_true in H as (e & He & Hat); [|exact Hne|].
    + exists e. destruct (Hmem e He) as [[H1 H2] _].
      rewrite atEdge_true in Hat. auto.
    + intros a b Ha Hb.
      destruct (Hmem a Ha) as [[? ?] ?], (Hmem b Hb) as [[? ?] ?].
      apply Hu; auto; congruence.
  - intros (e & Hin & Ha & He).
    destruct (groupByRow_complete es e Hin Ha) as (l & Hl & Hel).
    exists (row e, l). split; [apply list_elem_of_In; exact Hl|]. simpl.
    destruct (groupByRow_sound _ _ _ Hl) as [Hne Hmem].
    apply rowAtEdge_true; [exact Hne| |].
    + intros a b Ha' Hb'.
      destruct (Hmem a Ha') as [[? ?] ?], (Hmem b Hb') as [[? ?] ?].
      apply Hu; auto; congruence.
    + exists e. split; [exact Hel|]. apply atEdge_true. exact He.
Qed.

Lemma uniformRowsb_sound es : uniformRowsb es = true -> uniformRows es.
Proof.
  unfold uniformRowsb, uniformRows. rewrite forallb_forall.
  intros H a b Ha Hb Haa Hab Hrow.
  apply list_elem_of_In in Ha, Hb.
  specialize (H a Ha). rewrite forallb_forall in H. specialize (H b Hb).
  rewrite Haa, Hab, Hrow, Nat.eqb_refl in H. simpl in H.
  apply Qeq_bool_iff. exact H.
Qed.

(** ** The movement update, enemy by enemy *)




Lemma Forall2_map_r {A B} (R : A -> B -> Prop) (f : A -> B) (l : list A) :
  (forall a, a ∈ l -> R a (f a)) -> Forall2 R l (map f l).
Proof.
  induction l as [|a l IH]; intros H; simpl; constructor.
  - apply H. left.
  - apply IH. intros a' Ha'. apply H. right. exact Ha'.
Qed.




(** C9 (as amended).  When the alive enemies of each row share one scaled
    half width, the check of the per-row extremes (leftmost member when
    moving left, rightmost when moving right) signals a reversal exactly when
    the exhaustive check of every alive enemy does, for every list of
    enemies and every direction. *)
Theorem edge_check_refinement (sizes : Dimensions) (dir : Z)
    (es : list Enemy) :
  uniformRows es ->
  edgeReached sizes dir es = Legacy.edgeReached sizes dir es.
Proof.
  intros Hu. apply eq_true_iff_eq.
  rewrite edgeReached_true by exact Hu.
  rewrite legacy_edgeReached_true. reflexivity.
Qed.


(** ** Frame lemmas: what each method leaves alone *)

Ltac frame :=
  intros;
  unfold update, handlePlayerMovement, handlePlayerShooting,
    handleEnemyMovement, handleEnemyShooting, prepareVolley, initShootTimer,
    tryShoot,
    fireFrom, volleyReset, shootFromEnemy, cleanupBullets, checkSpawnNewRow,
    spawnNewRow, powerUpMilestone, spawnPowerUp, checkPowerUpExpiration,
    checkGameOver, gameOver, hitEnemy, hitPlayer, destroyBullet, updateScore,
    collectPowerUp, runCallback, startGame, worldStep;
  repeat case_match; reflexivity.

(** [scene_cbn]: fields of explicitly updated scenes. *)
Ltac scene_cbn :=
  cbn [
    now timers player enemies playerBullets enemyBullets score lives
    enemyDirection enemySpeed gameActive physicsPaused gameStartDivShown
    gameEndDivShown enemyShootTimer playerShootTimer rowsCanShoot
    rowShooting playerHitProcessing lastSpawnedRowY nextRowIndex
    lastSpawnCheckY rowLastShotTime spawnedRowCount powerUp
    playerDoubleShot powerUpEndTime lastPowerUpSpawnRow nextId set_now
    set_timers set_player set_enemies set_playerBullets set_enemyBullets
    set_score set_lives set_enemyDirection set_enemySpeed set_gameActive
    set_physicsPaused set_gameStartDivShown set_gameEndDivShown
    set_enemyShootTimer set_playerShootTimer set_rowsCanShoot
    set_rowShooting set_playerHitProcessing set_lastSpawnedRowY
    set_nextRowIndex set_lastSpawnCheckY set_rowLastShotTime
    set_spawnedRowCount set_powerUp set_playerDoubleShot set_powerUpEndTime
    set_lastPowerUpSpawnRow set_nextId
    spawnEnemyRowCentered delayedCall gameOver updateScore destroyBullet
    addPlayerBullet addEnemyBullet volleyReset launchRow].

(** [frw L], for [L : butX (f s) = butX s]: every field of [f s] in the goal
    that [f] leaves alone is replaced by the field of [s]. *)
Ltac frw L :=
  match type of L with
  | ?e ?a = ?e ?b =>
      repeat match goal with
             | |- context [?p a] =>
                 progress (rewrite (f_equal p L : p a = p b))
             end
  end.

Ltac frw_in L H :=
  match type of L with
  | ?e ?a = ?e ?b =>
      repeat match type of H with
             | context [?p a] =>
                 progress (rewrite (f_equal p L : p a = p b) in H)
             end
  end.

Lemma handlePlayerMovement_frame sizes inp s :
  butPlayer (handlePlayerMovement sizes inp s) = butPlayer s.
Proof. frame. Qed.

Lemma handlePlayerShooting_frame s :
  butPlayerShooting (handlePlayerShooting s) = butPlayerShooting s.
Proof. frame. Qed.

Lemma handleEnemyMovement_frame sizes s :
  butMovement (handleEnemyMovement sizes s) = butMovement s.
Proof. frame. Qed.

Lemma prepareVolley_frame s : butVolley (prepareVolley s) = butVolley s.
Proof. frame. Qed.

Lemma shootFromEnemy_frame e s : butShot (shootFromEnemy e s) = butShot s.
Proof. frame. Qed.


Lemma tryShoot_frame rnd t s : butFire (tryShoot rnd t s) = butFire s.
Proof. frame. Qed.

(** [peel Lf]: one step of a chain of methods, by the frame lemma [Lf] of the
    outermost one. *)
Ltac peel Lf :=
  match goal with
  | |- ?e (?g ?X) = _ =>
      let H := fresh "H" in
      assert (H : forall y, e (g y) = e y)
        by (let y := fresh "y" in intro y; exact (f_equal e (Lf y)));
      transitivity (e X); [apply H|clear H]
  end.

Lemma handleEnemyShooting_frame rnd s :
  butEnemyShooting (handleEnemyShooting rnd s) = butEnemyShooting s.
Proof.
  unfold handleEnemyShooting. destruct (enemies s); [reflexivity|].
  peel (tryShoot_frame rnd (now s)).
  exact (f_equal butEnemyShooting (prepareVolley_frame s)).
Qed.

Lemma cleanupBullets_frame sizes s :
  butBullets (cleanupBullets sizes s) = butBullets s.
Proof. frame. Qed.

Lemma powerUpMilestone_frame sizes rnd s :
  butMilestone (powerUpMilestone sizes rnd s) = butMilestone s.
Proof. frame. Qed.

Lemma spawnNewRow_frame sizes tex rnd top s :
  butSpawn (spawnNewRow sizes tex rnd top s) = butSpawn s.
Proof. frame. Qed.

Lemma checkSpawnNewRow_frame sizes tex rnd s :
  butSpawn (checkSpawnNewRow sizes tex rnd s) = butSpawn s.
Proof.
  unfold checkSpawnNewRow. repeat case_match; try reflexivity.
  apply spawnNewRow_frame.
Qed.

Lemma checkPowerUpExpiration_frame s :
  butBuff (checkPowerUpExpiration s) = butBuff s.
Proof. frame. Qed.

Lemma checkGameOver_frame s : butGameOver (checkGameOver s) = butGameOver s.
Proof. frame. Qed.

Lemma hitEnemy_frame b e s : butHitEnemy (hitEnemy b e s) = butHitEnemy s.
Proof. frame. Qed.

Lemma hitPlayer_frame b s : butHitPlayer (hitPlayer b s) = butHitPlayer s.
Proof. frame. Qed.

Lemma collectPowerUp_frame pu s :
  butCollect (collectPowerUp pu s) = butCollect s.
Proof. frame. Qed.

Lemma runCallback_frame c s : butCallbacks (runCallback c s) = butCallbacks s.
Proof. frame. Qed.

Lemma runCallbacks_frame (l : list (Q * Callback)) s :
  butCallbacks (fold_left (fun acc tc => runCallback (snd tc) acc) l s)
  = butCallbacks s.
Proof.
  revert s. induction l as [|tc l IH]; intros s; simpl; [reflexivity|].
  rewrite IH. apply runCallback_frame.
Qed.

Lemma clockUpdate_frame t s : butClock (clockUpdate t s) = butClock s.
Proof.
  unfold clockUpdate.
  exact (f_equal butClock (runCallbacks_frame _ _)).
Qed.

Lemma worldStep_frame dt s : butWorld (worldStep dt s) = butWorld s.
Proof. frame. Qed.

Lemma startGame_frame s : butStart (startGame s) = butStart s.
Proof. frame. Qed.

Lemma update_frame sizes tex inp rnd s :
  butUpdate (update sizes tex inp rnd s) = butUpdate s.
Proof.
  unfold update. destruct (gameActive s); [|reflexivity].
  cbn [negb]. cbv zeta.
  peel checkGameOver_frame.
  peel checkPowerUpExpiration_frame.
  peel (checkSpawnNewRow_frame sizes tex rnd).
  peel (cleanupBullets_frame sizes).
  peel (handleEnemyShooting_frame rnd).
  peel (handleEnemyMovement_frame sizes).
  peel handlePlayerShooting_frame.
  exact (f_equal butUpdate (handlePlayerMovement_frame sizes inp s)).
Qed.

(** [frwp p g Lf]: the field [p] passes through the method [g], whose frame
    lemma is [Lf]. *)
Ltac frwp p g Lf :=
  let H := fresh "H" in
  assert (H : forall y, p (g y) = p y)
    by (let y := fresh "y" in intro y; exact (f_equal p (Lf y)));
  rewrite ?H; clear H.

Lemma update_inactive sizes tex inp rnd s :
  gameActive s = false -> update sizes tex inp rnd s = s.
Proof. unfold update. intros ->. reflexivity. Qed.

Lemma update_active sizes tex inp rnd s :
  gameActive s = true ->
  update sizes tex inp rnd s
  = checkGameOver
      (checkPowerUpExpiration
         (checkSpawnNewRow sizes tex rnd
            (cleanupBullets sizes
               (handleEnemyShooting rnd
                  (handleEnemyMovement sizes
                     (handlePlayerShooting
                        (handlePlayerMovement sizes inp s))))))).
Proof. unfold update. intros ->. reflexivity. Qed.

(** ** Bullets *)

Lemma handlePlayerShooting_bullets s :
  (length (playerBullets (handlePlayerShooting s))
   <= Nat.max (length (playerBullets s)) (playerCap s))%nat.
Proof.
  unfold handlePlayerShooting, playerCap, addPlayerBullet.
  repeat case_match; simpl in *; rewrite ?length_app; simpl;
    repeat match goal with
           | H : Nat.ltb _ _ = true |- _ => apply Nat.ltb_lt in H
           | H : Nat.ltb _ _ = false |- _ => apply Nat.ltb_ge in H
           end;
    try congruence; lia.
Qed.

Lemma shootFromEnemy_bullets e s :
  length (enemyBullets (shootFromEnemy e s))
  = if active (obj e) && isAlive e
    then (length (enemyBullets s)
          + enemyShots (isSuperAlien e) (length (enemyBullets s)))%nat
    else length (enemyBullets s).
Proof.
  unfold shootFromEnemy, enemyShots, addEnemyBullet.
  destruct (active (obj e)), (isAlive e); simpl; try reflexivity.
  destruct (isSuperAlien e); simpl.
  - destruct (Nat.ltb_spec (length (enemyBullets s)) 28); simpl.
    + rewrite length_app. simpl.
      destruct (Nat.ltb_spec (length (enemyBullets s) + 1) 29); simpl;
        [|lia]. rewrite !length_app. simpl. lia.
    + destruct (Nat.ltb_spec (length (enemyBullets s)) 29); simpl;
        rewrite ?length_app; simpl; lia.
  - destruct (Nat.ltb_spec (length (enemyBullets s)) 29); simpl;
      rewrite ?length_app; simpl; lia.
Qed.

Lemma enemyShots_cap super n : (n + enemyShots super n <= Nat.max n 29)%nat.
Proof.
  unfold enemyShots.
  destruct super; repeat case_match;
    repeat match goal with
           | H : Nat.ltb _ _ = true |- _ => apply Nat.ltb_lt in H
           | H : Nat.ltb _ _ = false |- _ => apply Nat.ltb_ge in H
           end; lia.
Qed.

Lemma shootFromEnemy_cap e s :
  (length (enemyBullets (shootFromEnemy e s))
   <= Nat.max (length (enemyBullets s)) 29)%nat.
Proof.
  rewrite shootFromEnemy_bullets.
  destruct (active (obj e) && isAlive e); [apply enemyShots_cap | lia].
Qed.

Lemma handleEnemyShooting_cap rnd s :
  (length (enemyBullets (handleEnemyShooting rnd s))
   <= Nat.max (length (enemyBullets s)) 29)%nat.
Proof.
  unfold handleEnemyShooting. destruct (enemies s); [lia|].
  assert (Hv : enemyBullets (prepareVolley s) = enemyBullets s)
    by exact (f_equal enemyBullets (prepareVolley_frame s)).
  rewrite <- Hv. generalize (prepareVolley s) (now s). intros s1 t.
  unfold tryShoot. repeat case_match; try lia.
  unfold fireFrom, delayedCall. simpl.
  etransitivity; [apply shootFromEnemy_cap|]. simpl. lia.
Qed.

Lemma length_withoutObject id (l : list GameObject) :
  (length (withoutObject id l) <= length l)%nat.
Proof. unfold withoutObject. apply length_filter. Qed.

Lemma cleanupBullets_bullets sizes s :
  (length (playerBullets (cleanupBullets sizes s))
   <= length (playerBullets s))%nat
  /\ (length (enemyBullets (cleanupBullets sizes s))
      <= length (enemyBullets s))%nat.
Proof. unfold cleanupBullets. simpl. split; apply length_filter. Qed.

Lemma update_playerDoubleShot sizes tex inp rnd s :
  playerDoubleShot (update sizes tex inp rnd s) = true ->
  playerDoubleShot s = true.
Proof.
  destruct (gameActive s) eqn:Ha;
    [rewrite update_active by exact Ha
    |rewrite update_inactive by exact Ha; auto].
  frwp playerDoubleShot checkGameOver checkGameOver_frame.
  intros H.
  assert (H1 : forall y, playerDoubleShot (checkPowerUpExpiration y) = true ->
                         playerDoubleShot y = true).
  { intros y. unfold checkPowerUpExpiration.
    destruct (playerDoubleShot y) eqn:Hy; [reflexivity|].
    simpl. rewrite Hy. auto. }
  apply H1 in H. revert H.
  frwp playerDoubleShot (checkSpawnNewRow sizes tex rnd)
    (checkSpawnNewRow_frame sizes tex rnd).
  frwp playerDoubleShot (cleanupBullets sizes) (cleanupBullets_frame sizes).
  frwp playerDoubleShot (handleEnemyShooting rnd)
    (handleEnemyShooting_frame rnd).
  frwp playerDoubleShot (handleEnemyMovement sizes)
    (handleEnemyMovement_frame sizes).
  frwp playerDoubleShot handlePlayerShooting handlePlayerShooting_frame.
  frwp playerDoubleShot (handlePlayerMovement sizes inp)
    (handlePlayerMovement_frame sizes inp).
  auto.
Qed.

Lemma update_playerBullets sizes tex inp rnd s :
  (length (playerBullets (update sizes tex inp rnd s))
   <= Nat.max (length (playerBullets s)) (playerCap s))%nat.
Proof.
  destruct (gameActive s) eqn:Ha;
    [rewrite update_active by exact Ha
    |rewrite update_inactive by exact Ha; lia].
  frwp playerBullets checkGameOver checkGameOver_frame.
  frwp playerBullets checkPowerUpExpiration checkPowerUpExpiration_frame.
  frwp playerBullets (checkSpawnNewRow sizes tex rnd)
    (checkSpawnNewRow_frame sizes tex rnd).
  etransitivity; [apply cleanupBullets_bullets|].
  frwp playerBullets (handleEnemyShooting rnd) (handleEnemyShooting_frame rnd).
  frwp playerBullets (handleEnemyMovement sizes)
    (handleEnemyMovement_frame sizes).
  etransitivity; [apply handlePlayerShooting_bullets|].
  unfold playerCap.
  frwp playerBullets (handlePlayerMovement sizes inp)
    (handlePlayerMovement_frame sizes inp).
  frwp playerDoubleShot (handlePlayerMovement sizes inp)
    (handlePlayerMovement_frame sizes inp).
  lia.
Qed.

Lemma update_enemyBullets sizes tex inp rnd s :
  (length (enemyBullets (update sizes tex inp rnd s))
   <= Nat.max (length (enemyBullets s)) 29)%nat.
Proof.
  destruct (gameActive s) eqn:Ha;
    [rewrite update_active by exact Ha
    |rewrite update_inactive by exact Ha; lia].
  frwp enemyBullets checkGameOver checkGameOver_frame.
  frwp enemyBullets checkPowerUpExpiration checkPowerUpExpiration_frame.
  frwp enemyBullets (checkSpawnNewRow sizes tex rnd)
    (checkSpawnNewRow_frame sizes tex rnd).
  etransitivity; [apply cleanupBullets_bullets|].
  etransitivity; [apply handleEnemyShooting_cap|].
  frwp enemyBullets (handleEnemyMovement sizes)
    (handleEnemyMovement_frame sizes).
  frwp enemyBullets handlePlayerShooting handlePlayerShooting_frame.
  frwp enemyBullets (handlePlayerMovement sizes inp)
    (handlePlayerMovement_frame sizes inp).
  lia.
Qed.

Lemma hitEnemy_bullets b e s :
  (length (playerBullets (hitEnemy b e s)) <= length (playerBullets s))%nat
  /\ (length (enemyBullets (hitEnemy b e s)) <= length (enemyBullets s))%nat.
Proof.
  unfold hitEnemy, updateScore, destroyBullet.
  repeat case_match; simpl; split; auto using length_withoutObject.
Qed.

Lemma hitPlayer_bullets b s :
  (length (playerBullets (hitPlayer b s)) <= length (playerBullets s))%nat
  /\ (length (enemyBullets (hitPlayer b s)) <= length (enemyBullets s))%nat.
Proof.
  unfold hitPlayer, delayedCall, gameOver, destroyBullet.
  repeat case_match; simpl; split; auto using length_withoutObject.
Qed.

Lemma worldStep_bullets dt s :
  length (playerBullets (worldStep dt s)) = length (playerBullets s)
  /\ length (enemyBullets (worldStep dt s)) = length (enemyBullets s).
Proof. unfold worldStep. simpl. rewrite !length_map. auto. Qed.

(** One event: the counts stay below the larger of their old value and the
    cap, and double-shot is switched on by nothing but a collected power-up. *)
Lemma step_bullets sizes tex ev s :
  (length (playerBullets (step sizes tex ev s))
   <= Nat.max (length (playerBullets s)) (playerCap s))%nat
  /\ (length (enemyBullets (step sizes tex ev s))
      <= Nat.max (length (enemyBullets s)) 29)%nat
  /\ (ev <> OverlapPlayerPowerUp ->
      playerDoubleShot (step sizes tex ev s) = true ->
      playerDoubleShot s = true).
Proof.
  destruct ev as [t|dt|bid eid|bid| |inp rnd|]; simpl.
  - frw (clockUpdate_frame t s). repeat split; auto; lia.
  - destruct (physicsPaused s); [repeat split; auto; lia|].
    destruct (worldStep_bullets dt s) as [-> ->].
    frw (worldStep_frame dt s). repeat split; auto; lia.
  - destruct (physicsPaused s); [repeat split; auto; lia|].
    repeat case_match; try (repeat split; auto; lia).
    pose proof (hitEnemy_bullets g e s) as [? ?].
    frw (hitEnemy_frame g e s). repeat split; auto; lia.
  - destruct (physicsPaused s); [repeat split; auto; lia|].
    repeat case_match; try (repeat split; auto; lia).
    pose proof (hitPlayer_bullets g s) as [? ?].
    frw (hitPlayer_frame g s). repeat split; auto; lia.
  - destruct (physicsPaused s); [repeat split; auto; lia|].
    frw (collectPowerUp_frame (powerUp s) s).
    repeat split; try lia. congruence.
  - split; [apply update_playerBullets|].
    split; [apply update_enemyBullets|].
    intros _. apply update_playerDoubleShot.
  - destruct (gameStartDivShown s); [|repeat split; auto; lia].
    frw (startGame_frame s). repeat split; auto; lia.
Qed.

(** C2 (as amended).  Over any sequence of events, from a scene within the
    bounds: there are never more than 6 player bullets and never more than 29
    enemy bullets; and as long as double-shot is off and no power-up overlap
    is reported, there are never more than 3 player bullets.  (A shot is only
    spawned below the cap in force, [handlePlayerShooting_bullets] and
    [shootFromEnemy_bullets]; bullets fired under double-shot stay in flight
    when it expires.) *)
Theorem bullet_caps (sizes : Dimensions) (tex : Textures)
    (evs : list Event) (s : Game) :
  (length (playerBullets s) <= 6)%nat ->
  (length (enemyBullets s) <= 29)%nat ->
  let s' := run sizes tex evs s in
  (length (playerBullets s') <= 6)%nat
  /\ (length (enemyBullets s') <= 29)%nat
  /\ (playerDoubleShot s = false ->
      (length (playerBullets s) <= 3)%nat ->
      Forall (fun ev => ev <> OverlapPlayerPowerUp) evs ->
      (length (playerBullets s') <= 3)%nat /\ playerDoubleShot s' = false).
Proof.
  revert s. induction evs as [|ev evs IH]; intros s Hp He; simpl.
  - auto.
  - destruct (step_bullets sizes tex ev s) as (Hp1 & He1 & Hd1).
    assert (Hcap : (playerCap s <= 6)%nat)
      by (unfold playerCap; destruct (playerDoubleShot s); lia).
    destruct (IH (step sizes tex ev s)) as (Hp2 & He2 & H3); [lia|lia|].
    split; [exact Hp2|]. split; [exact He2|].
    intros Hd H3' Hall. inversion Hall as [|? ? Hev Hall']; subst.
    assert (Hd' : playerDoubleShot (step sizes tex ev s) = false).
    { apply not_true_is_false. intros E.
      rewrite (Hd1 Hev E) in Hd. discriminate. }
    apply H3; [exact Hd'| |exact Hall'].
    unfold playerCap in Hp1. rewrite Hd in Hp1. lia.
Qed.

(** ** Score, lives and the end of the session *)

Lemma hitPlayer_skipped b s :
  playerHitProcessing s = true \/ active b = false \/ (lives s <= 0)%Z ->
  hitPlayer b s = s.
Proof.
  unfold hitPlayer. intros [H|[H|H]].
  - rewrite H. reflexivity.
  - rewrite H. destruct (playerHitProcessing s); reflexivity.
  - apply Z.leb_le in H. rewrite H.
    destruct (playerHitProcessing s), (active b); reflexivity.
Qed.

Lemma hitPlayer_processed b s :
  playerHitProcessing s = false -> active b = true -> (0 < lives s)%Z ->
  hitPlayer b s
  = delayedCall 500 ReleasePlayerHit
      (if Z.leb (lives s - 1) 0 then gameOver (afterHit b s)
       else afterHit b s).
Proof.
  unfold hitPlayer. intros -> -> H. apply Z.leb_gt in H. rewrite H.
  reflexivity.
Qed.

Lemma hitPlayer_cases b s :
  hitPlayer b s = s
  \/ (playerHitProcessing s = false /\ active b = true /\ (0 < lives s)%Z).
Proof.
  destruct (playerHitProcessing s) eqn:Hf;
    [left; apply hitPlayer_skipped; auto|].
  destruct (active b) eqn:Ha; [|left; apply hitPlayer_skipped; auto].
  destruct (Z.leb_spec (lives s) 0);
    [left; apply hitPlayer_skipped; auto|].
  right. auto.
Qed.

Lemma hitEnemy_score b e s :
  score (hitEnemy b e s)
  = if active b && active (obj e)
    then (score s + (if isSuperAlien e then 7 else 5))%Z
    else score s.
Proof.
  unfold hitEnemy, updateScore.
  destruct (active b), (active (obj e)); simpl; try reflexivity.
  repeat case_match; reflexivity.
Qed.





Lemma initial_fields sizes tex t0 rnd :
  lives (initial sizes tex t0 rnd) = 3%Z
  /\ gameStartDivShown (initial sizes tex t0 rnd) = true
  /\ gameActive (initial sizes tex t0 rnd) = false
  /\ enemyBullets (initial sizes tex t0 rnd) = []
  /\ timers (initial sizes tex t0 rnd) = []
  /\ playerHitProcessing (initial sizes tex t0 rnd) = false
  /\ nextRowIndex (initial sizes tex t0 rnd) = ENEMY_ROWS.
Proof. repeat split; reflexivity. Qed.




Lemma reachable_run sizes tex evs s :
  reachable sizes tex s -> reachable sizes tex (run sizes tex evs s).
Proof.
  revert s. induction evs as [|ev evs IH]; intros s H; simpl; [exact H|].
  apply IH. constructor. exact H.
Qed.


(** ** The hit flag and its release *)

Lemma runCallbacks_flag (l : list (Q * Callback)) s :
  playerHitProcessing
    (fold_left (fun acc tc => runCallback (snd tc) acc) l s)
  = if existsb isPlayerHitRelease l then false else playerHitProcessing s.
Proof.
  revert s. induction l as [|[d c] l IH]; intros s; simpl; [reflexivity|].
  rewrite IH. unfold isPlayerHitRelease at 2. simpl.
  destruct c; simpl; [reflexivity|].
  destruct (existsb isPlayerHitRelease l); reflexivity.
Qed.

Lemma clockUpdate_timers t s :
  timers (clockUpdate t s)
  = filter (fun tc => isDue t tc = false) (timers s).
Proof.
  unfold clockUpdate.
  exact (f_equal timers (runCallbacks_frame _ _)).
Qed.

Lemma clockUpdate_flag t s :
  playerHitProcessing (clockUpdate t s)
  = if existsb isPlayerHitRelease
         (filter (fun tc => isDue t tc = true) (timers s))
    then false else playerHitProcessing s.
Proof. unfold clockUpdate. rewrite runCallbacks_flag. reflexivity. Qed.

Lemma filter_partition_length {A} (P Q : A -> bool) (l : list A) :
  length (filter (fun a => P a = true) l)
  = (length (filter (fun a => P a = true) (filter (fun a => Q a = true) l))
     + length (filter (fun a => P a = true)
                 (filter (fun a => Q a = false) l)))%nat.
Proof.
  induction l as [|a l IH]; [reflexivity|].
  destruct (Q a) eqn:Hq, (P a) eqn:Hp.
  - rewrite (filter_cons_True (fun a => Q a = true)) by exact Hq.
    rewrite (filter_cons_False (fun a => Q a = false)) by congruence.
    rewrite !(filter_cons_True (fun a => P a = true)) by exact Hp.
    simpl. lia.
  - rewrite (filter_cons_True (fun a => Q a = true)) by exact Hq.
    rewrite (filter_cons_False (fun a => Q a = false)) by congruence.
    rewrite !(filter_cons_False (fun a => P a = true)) by congruence.
    exact IH.
  - rewrite (filter_cons_False (fun a => Q a = true)) by congruence.
    rewrite (filter_cons_True (fun a => Q a = false)) by exact Hq.
    rewrite !(filter_cons_True (fun a => P a = true)) by exact Hp.
    simpl. lia.
  - rewrite (filter_cons_False (fun a => Q a = true)) by congruence.
    rewrite (filter_cons_True (fun a => Q a = false)) by exact Hq.
    rewrite !(filter_cons_False (fun a => P a = true)) by congruence.
    exact IH.
Qed.

Lemma existsb_filter_length {A} (P : A -> bool) (l : list A) :
  existsb P l = true -> (1 <= length (filter (fun a => P a = true) l))%nat.
Proof.
  induction l as [|a l IH]; simpl; [discriminate|].
  destruct (P a) eqn:Hp; simpl.
  - intros _. rewrite filter_cons_True by exact Hp. simpl. lia.
  - intros H. rewrite filter_cons_False by congruence. auto.
Qed.

Lemma filter_length_0_Forall {A} (P : A -> bool) (l : list A) :
  length (filter (fun a => P a = true) l) = 0%nat ->
  Forall (fun a => P a = false) l.
Proof.
  induction l as [|a l IH]; [constructor|].
  destruct (P a) eqn:Hp.
  - rewrite filter_cons_True by exact Hp. discriminate.
  - rewrite filter_cons_False by congruence.
    intros H. constructor; auto.
Qed.

Lemma Forall_filter_length_0 {A} (P : A -> bool) (l : list A) :
  Forall (fun a => P a = false) l ->
  length (filter (fun a => P a = true) l) = 0%nat.
Proof.
  induction 1 as [|a l Ha _ IH]; [reflexivity|].
  rewrite filter_cons_False by congruence. exact IH.
Qed.

Lemma fireFrom_timers e t s :
  timers (fireFrom e t s)
  = timers s ++ [(now s + minTimeBetweenRowShots, ReleaseRowShooting)].
Proof.
  unfold fireFrom, delayedCall. simpl.
  match goal with
  | |- context [shootFromEnemy e ?X] => frw (shootFromEnemy_frame e X)
  end.
  reflexivity.
Qed.

Lemma handleEnemyShooting_timers rnd s :
  timers (handleEnemyShooting rnd s) = timers s
  \/ timers (handleEnemyShooting rnd s)
     = timers s ++ [(now s + minTimeBetweenRowShots, ReleaseRowShooting)].
Proof.
  unfold handleEnemyShooting. destruct (enemies s); [left; reflexivity|].
  assert (Ht : timers (prepareVolley s) = timers s)
    by exact (f_equal timers (prepareVolley_frame s)).
  assert (Hn : now (prepareVolley s) = now s)
    by exact (f_equal now (prepareVolley_frame s)).
  rewrite <- Ht, <- Hn. generalize (prepareVolley s) (now s). intros s1 t.
  unfold tryShoot. repeat case_match; auto.
  right. apply fireFrom_timers.
Qed.

Lemma update_timers sizes tex inp rnd s :
  timers (update sizes tex inp rnd s) = timers s
  \/ exists d, timers (update sizes tex inp rnd s)
               = timers s ++ [(d, ReleaseRowShooting)].
Proof.
  destruct (gameActive s) eqn:Ha;
    [rewrite update_active by exact Ha
    |rewrite update_inactive by exact Ha; auto].
  frwp timers checkGameOver checkGameOver_frame.
  frwp timers checkPowerUpExpiration checkPowerUpExpiration_frame.
  frwp timers (checkSpawnNewRow sizes tex rnd)
    (checkSpawnNewRow_frame sizes tex rnd).
  frwp timers (cleanupBullets sizes) (cleanupBullets_frame sizes).
  match goal with
  | |- context [handleEnemyShooting rnd ?X] =>
      assert (Ht : timers X = timers s);
      [|destruct (handleEnemyShooting_timers rnd X) as [->| ->];
        rewrite Ht; eauto]
  end.
  frwp timers (handleEnemyMovement sizes) (handleEnemyMovement_frame sizes).
  frwp timers handlePlayerShooting handlePlayerShooting_frame.
  frwp timers (handlePlayerMovement sizes inp)
    (handlePlayerMovement_frame sizes inp).
  reflexivity.
Qed.

Lemma hitPlayer_timers b s :
  playerHitProcessing s = false -> active b = true -> (0 < lives s)%Z ->
  timers (hitPlayer b s) = timers s ++ [(now s + 500, ReleasePlayerHit)]
  /\ playerHitProcessing (hitPlayer b s) = true
  /\ lives (hitPlayer b s) = (lives s - 1)%Z.
Proof.
  intros Hf Ha Hl. rewrite (hitPlayer_processed b s Hf Ha Hl).
  unfold delayedCall, gameOver, afterHit.
  destruct (Z.leb (lives s - 1) 0); simpl; auto.
Qed.

Lemma initial_hitInv sizes tex t0 rnd : hitInv (initial sizes tex t0 rnd).
Proof.
  unfold hitInv.
  destruct (initial_fields sizes tex t0 rnd) as (_ & _ & _ & _ & -> & _).
  split; [simpl; lia | intros _; constructor].
Qed.

Lemma hitInv_same s s' :
  timers s' = timers s -> playerHitProcessing s' = playerHitProcessing s ->
  hitInv s -> hitInv s'.
Proof. unfold hitInv. intros -> ->. auto. Qed.

Lemma step_hitInv sizes tex ev s : hitInv s -> hitInv (step sizes tex ev s).
Proof.
  intros Hinv.
  destruct ev as [t|dt|bid eid|bid| |inp rnd|]; simpl.
  - destruct Hinv as [Hc Hn]. unfold hitInv.
    rewrite clockUpdate_timers, clockUpdate_flag.
    pose proof (filter_partition_length isPlayerHitRelease (isDue t)
                  (timers s)) as Hp.
    split; [lia|].
    destruct (existsb isPlayerHitRelease
                (filter (fun tc => isDue t tc = true) (timers s))) eqn:He.
    + intros _. apply existsb_filter_length in He.
      apply filter_length_0_Forall. lia.
    + intros Hf. apply filter_length_0_Forall.
      pose proof (Forall_filter_length_0 _ _ (Hn Hf)). lia.
  - destruct (physicsPaused s); [exact Hinv|].
    apply (hitInv_same s); [| |exact Hinv].
    + exact (f_equal timers (worldStep_frame dt s)).
    + exact (f_equal playerHitProcessing (worldStep_frame dt s)).
  - destruct (physicsPaused s); [exact Hinv|].
    repeat case_match; try exact Hinv.
    apply (hitInv_same s); [| |exact Hinv].
    + exact (f_equal timers (hitEnemy_frame g e s)).
    + exact (f_equal playerHitProcessing (hitEnemy_frame g e s)).
  - destruct (physicsPaused s); [exact Hinv|].
    repeat case_match; try exact Hinv.
    destruct (hitPlayer_cases g s) as [->|(Hf & Ha & Hl)]; [exact Hinv|].
    destruct (hitPlayer_timers g s Hf Ha Hl) as (Ht & Hflag & _).
    destruct Hinv as [Hc Hn]. unfold hitInv. rewrite Ht, Hflag.
    split; [|discriminate].
    rewrite filter_app, length_app.
    rewrite (Forall_filter_length_0 _ _ (Hn Hf)). simpl. lia.
  - destruct (physicsPaused s); [exact Hinv|].
    apply (hitInv_same s); [| |exact Hinv].
    + exact (f_equal timers (collectPowerUp_frame (powerUp s) s)).
    + exact (f_equal playerHitProcessing
               (collectPowerUp_frame (powerUp s) s)).
  - destruct Hinv as [Hc Hn]. unfold hitInv.
    frw (update_frame sizes tex inp rnd s).
    destruct (update_timers sizes tex inp rnd s) as [->|[d ->]]; [auto|].
    rewrite filter_app, length_app. simpl. split; [simpl; lia|].
    intros Hf. apply Forall_app. split; [auto|].
    constructor; [reflexivity | constructor].
  - destruct (gameStartDivShown s); [|exact Hinv].
    apply (hitInv_same s); [| |exact Hinv].
    + exact (f_equal timers (startGame_frame s)).
    + exact (f_equal playerHitProcessing (startGame_frame s)).
Qed.

Lemma reachable_hitInv sizes tex s : reachable sizes tex s -> hitInv s.
Proof.
  induction 1; [apply initial_hitInv | apply step_hitInv; assumption].
Qed.

Lemma hitHeld_same T L s s' :
  timers s' = timers s -> playerHitProcessing s' = playerHitProcessing s ->
  lives s' = lives s -> hitHeld T L s -> hitHeld T L s'.
Proof. unfold hitHeld. intros -> -> ->. auto. Qed.

Lemma step_hitHeld sizes tex T L ev s :
  hitHeld T L s -> before T ev -> hitHeld T L (step sizes tex ev s).
Proof.
  intros Hheld Hev.
  destruct ev as [t|dt|bid eid|bid| |inp rnd|]; simpl in *.
  - destruct Hheld as (Hf & Hl & Hin & Hall). unfold hitHeld.
    rewrite clockUpdate_timers, clockUpdate_flag.
    frw (clockUpdate_frame t s).
    assert (Hnone : existsb isPlayerHitRelease
                      (filter (fun tc => isDue t tc = true) (timers s))
                    = false).
    { apply not_true_is_false. intros He.
      apply existsb_exists in He as (tc & Hin' & Hrel).
      apply list_elem_of_In, list_elem_of_filter in Hin' as [Hdue Hin'].
      rewrite Forall_forall in Hall. specialize (Hall tc Hin' Hrel).
      unfold isDue in Hdue. apply Qle_bool_iff in Hdue. lra. }
    rewrite Hnone. split; [exact Hf|]. split; [exact Hl|]. split.
    + apply list_elem_of_filter. split; [|exact Hin].
      unfold isDue. simpl. apply not_true_is_false. intros Hd.
      apply Qle_bool_iff in Hd. lra.
    + apply Forall_forall. intros tc Htc.
      apply list_elem_of_filter in Htc as [_ Htc].
      rewrite Forall_forall in Hall. auto.
  - destruct (physicsPaused s); [exact Hheld|].
    apply (hitHeld_same T L s); [| | |exact Hheld].
    + exact (f_equal timers (worldStep_frame dt s)).
    + exact (f_equal playerHitProcessing (worldStep_frame dt s)).
    + exact (f_equal lives (worldStep_frame dt s)).
  - destruct (physicsPaused s); [exact Hheld|].
    repeat case_match; try exact Hheld.
    apply (hitHeld_same T L s); [| | |exact Hheld].
    + exact (f_equal timers (hitEnemy_frame g e s)).
    + exact (f_equal playerHitProcessing (hitEnemy_frame g e s)).
    + exact (f_equal lives (hitEnemy_frame g e s)).
  - destruct (physicsPaused s); [exact Hheld|].
    repeat case_match; try exact Hheld.
    rewrite hitPlayer_skipped; [exact Hheld|]. left. apply Hheld.
  - destruct (physicsPaused s); [exact Hheld|].
    apply (hitHeld_same T L s); [| | |exact Hheld].
    + exact (f_equal timers (collectPowerUp_frame (powerUp s) s)).
    + exact (f_equal playerHitProcessing
               (collectPowerUp_frame (powerUp s) s)).
    + exact (f_equal lives (collectPowerUp_frame (powerUp s) s)).
  - destruct Hheld as (Hf & Hl & Hin & Hall). unfold hitHeld.
    frw (update_frame sizes tex inp rnd s).
    split; [exact Hf|]. split; [exact Hl|].
    destruct (update_timers sizes tex inp rnd s) as [->|[d ->]]; [auto|].
    split; [apply elem_of_app; left; exact Hin|].
    apply Forall_app. split; [exact Hall|].
    constructor; [discriminate | constructor].
  - destruct (gameStartDivShown s); [|exact Hheld].
    apply (hitHeld_same T L s); [| | |exact Hheld].
    + exact (f_equal timers (startGame_frame s)).
    + exact (f_equal playerHitProcessing (startGame_frame s)).
    + exact (f_equal lives (startGame_frame s)).
Qed.

Lemma run_hitHeld sizes tex T L evs s :
  hitHeld T L s -> Forall (before T) evs ->
  hitHeld T L (run sizes tex evs s).
Proof.
  revert s. induction evs as [|ev evs IH]; intros s Hh Hall; simpl;
    [exact Hh|].
  inversion Hall; subst. apply IH; [|assumption].
  apply step_hitHeld; assumption.
Qed.

(** C3.  A call of [hitPlayer] while the flag [playerHitProcessing] is set
    changes nothing.  A hit that is processed (flag clear, active bullet,
    lives left) sets the flag, takes exactly one life and schedules the
    release 500 ms ahead; after it, whatever events follow before the clock
    reaches that time (further overlaps of bullets with the player among
    them), the flag stays set and the lives stay at one less; the first clock
    update at or after that time clears the flag. *)
Theorem hitPlayer_once (sizes : Dimensions) (tex : Textures)
    (s : Game) (b : GameObject) (evs : list Event) :
  reachable sizes tex s ->
  playerHitProcessing s = false -> active b = true -> (0 < lives s)%Z ->
  Forall (before (now s + 500)) evs ->
  let s1 := hitPlayer b s in
  let s2 := run sizes tex evs s1 in
  (forall b' s', playerHitProcessing s' = true -> hitPlayer b' s' = s')
  /\ playerHitProcessing s1 = true
  /\ lives s1 = (lives s - 1)%Z
  /\ (forall b', lives (hitPlayer b' s1) = (lives s - 1)%Z)
  /\ playerHitProcessing s2 = true
  /\ lives s2 = (lives s - 1)%Z
  /\ (forall t, now s + 500 <= t ->
        playerHitProcessing (clockUpdate t s2) = false).
Proof.
  intros Hr Hf Ha Hl Hevs s1 s2.
  destruct (hitPlayer_timers b s Hf Ha Hl) as (Ht & Hflag & Hlives).
  assert (Hheld : hitHeld (now s + 500) (lives s - 1) s1).
  { unfold hitHeld. subst s1. rewrite Ht, Hflag, Hlives.
    split; [reflexivity|]. split; [reflexivity|]. split.
    - apply elem_of_app. right. left.
    - apply Forall_app. split.
      + apply reachable_hitInv in Hr as [_ Hn].
        eapply Forall_impl; [exact (Hn Hf)|].
        intros tc H1 H2. congruence.
      + constructor; [|constructor]. intros _. apply Qle_refl. }
  pose proof (run_hitHeld sizes tex _ _ evs s1 Hheld Hevs) as Hheld2.
  fold s2 in Hheld2. destruct Hheld2 as (Hf2 & Hl2 & Hin2 & _).
  split; [intros b' s' H; apply hitPlayer_skipped; auto|].
  split; [exact Hflag|]. split; [exact Hlives|]. split.
  { intros b'. rewrite hitPlayer_skipped; [exact Hlives | left; exact Hflag]. }
  split; [exact Hf2|]. split; [exact Hl2|].
  intros t Hle. rewrite clockUpdate_flag.
  assert (He : existsb isPlayerHitRelease
                 (filter (fun tc => isDue t tc = true) (timers s2)) = true).
  { apply existsb_exists. exists (now s + 500, ReleasePlayerHit).
    split; [|reflexivity].
    apply list_elem_of_In, list_elem_of_filter. split; [|exact Hin2].
    unfold isDue. simpl. apply Qle_bool_iff. exact Hle. }
  rewrite He. reflexivity.
Qed.

(** ** The double-shot buff *)






(** ** Power-up milestones *)

Lemma spawnPowerUp_active sizes rnd s p :
  powerUp s = Some p -> active p = true -> spawnPowerUp sizes rnd s = s.
Proof. unfold spawnPowerUp. intros -> ->. reflexivity. Qed.

Lemma checkSpawnNewRow_cases sizes tex rnd s :
  checkSpawnNewRow sizes tex rnd s = s
  \/ exists top,
       (0 < lives s)%Z /\ topmostY (enemies s) = Some top
       /\ shouldSpawn top s = true
       /\ checkSpawnNewRow sizes tex rnd s = spawnNewRow sizes tex rnd top s.
Proof.
  unfold checkSpawnNewRow.
  destruct (Z.leb_spec (lives s) 0); [auto|].
  destruct (lastSpawnedRowY s); [|auto].
  destruct (topmostY (enemies s)) as [top|]; [|auto].
  destruct (shouldSpawn top s) eqn:Hs; [|auto].
  right. exists top. auto.
Qed.

Lemma spawnNewRow_count sizes tex rnd top s :
  spawnedRowCount (spawnNewRow sizes tex rnd top s) = S (spawnedRowCount s).
Proof.
  unfold spawnNewRow, launchRow, powerUpMilestone, spawnPowerUp.
  repeat case_match; reflexivity.
Qed.

Lemma spawnNewRow_powerUp sizes tex rnd top s :
  powerUp (spawnNewRow sizes tex rnd top s) = powerUp s
  \/ (milestoneDue s = true
      /\ (forall p, powerUp s = Some p -> active p = false)).
Proof.
  unfold spawnNewRow, launchRow, powerUpMilestone, milestoneDue. simpl.
  destruct (_ && _) eqn:Hc; [|left; reflexivity].
  unfold spawnPowerUp. simpl.
  destruct (powerUp s) as [p|] eqn:Hp; simpl.
  - destruct (active p) eqn:Ha; simpl; [left; exact Hp|].
    right. split; [reflexivity|]. intros p' Hp'. congruence.
  - right. split; [reflexivity|]. discriminate.
Qed.

Lemma spawnNewRow_lastPowerUpSpawnRow sizes tex rnd top s :
  S (spawnedRowCount s) mod POWERUP_SPAWN_AFTER_ROWS = 0%nat ->
  lastPowerUpSpawnRow (spawnNewRow sizes tex rnd top s)
  = S (spawnedRowCount s).
Proof.
  intros Hm. unfold spawnNewRow, powerUpMilestone. scene_cbn.
  rewrite Hm. scene_cbn.
  destruct (Nat.eqb_spec (S (spawnedRowCount s)) (lastPowerUpSpawnRow s));
    simpl; auto.
Qed.

Lemma update_spawner sizes tex inp rnd s :
  update sizes tex inp rnd s = s
  \/ exists y,
       spawnedRowCount y = spawnedRowCount s
       /\ powerUp y = powerUp s
       /\ lastPowerUpSpawnRow y = lastPowerUpSpawnRow s
       /\ spawnedRowCount (update sizes tex inp rnd s)
          = spawnedRowCount (checkSpawnNewRow sizes tex rnd y)
       /\ powerUp (update sizes tex inp rnd s)
          = powerUp (checkSpawnNewRow sizes tex rnd y)
       /\ lastPowerUpSpawnRow (update sizes tex inp rnd s)
          = lastPowerUpSpawnRow (checkSpawnNewRow sizes tex rnd y).
Proof.
  destruct (gameActive s) eqn:Ha;
    [rewrite update_active by exact Ha
    |rewrite update_inactive by exact Ha; auto].
  right.
  exists (cleanupBullets sizes
            (handleEnemyShooting rnd
               (handleEnemyMovement sizes
                  (handlePlayerShooting (handlePlayerMovement sizes inp s))))).
  repeat split.
  1-3: frwp spawnedRowCount (cleanupBullets sizes)
         (cleanupBullets_frame sizes);
       frwp powerUp (cleanupBullets sizes) (cleanupBullets_frame sizes);
       frwp lastPowerUpSpawnRow (cleanupBullets sizes)
         (cleanupBullets_frame sizes);
       frwp spawnedRowCount (handleEnemyShooting rnd)
         (handleEnemyShooting_frame rnd);
       frwp powerUp (handleEnemyShooting rnd) (handleEnemyShooting_frame rnd);
       frwp lastPowerUpSpawnRow (handleEnemyShooting rnd)
         (handleEnemyShooting_frame rnd);
       frwp spawnedRowCount (handleEnemyMovement sizes)
         (handleEnemyMovement_frame sizes);
       frwp powerUp (handleEnemyMovement sizes)
         (handleEnemyMovement_frame sizes);
       frwp lastPowerUpSpawnRow (handleEnemyMovement sizes)
         (handleEnemyMovement_frame sizes);
       frwp spawnedRowCount handlePlayerShooting handlePlayerShooting_frame;
       frwp powerUp handlePlayerShooting handlePlayerShooting_frame;
       frwp lastPowerUpSpawnRow handlePlayerShooting
         handlePlayerShooting_frame;
       frwp spawnedRowCount (handlePlayerMovement sizes inp)
         (handlePlayerMovement_frame sizes inp);
       frwp powerUp (handlePlayerMovement sizes inp)
         (handlePlayerMovement_frame sizes inp);
       frwp lastPowerUpSpawnRow (handlePlayerMovement sizes inp)
         (handlePlayerMovement_frame sizes inp);
       reflexivity.
  all: frwp spawnedRowCount checkGameOver checkGameOver_frame;
       frwp powerUp checkGameOver checkGameOver_frame;
       frwp lastPowerUpSpawnRow checkGameOver checkGameOver_frame;
       frwp spawnedRowCount checkPowerUpExpiration
         checkPowerUpExpiration_frame;
       frwp powerUp checkPowerUpExpiration checkPowerUpExpiration_frame;
       frwp lastPowerUpSpawnRow checkPowerUpExpiration
         checkPowerUpExpiration_frame;
       reflexivity.
Qed.

(** One event: the count of spawned rows never decreases, and the power-up
    on the field stays, goes, or is created by a row spawn whose count is a
    multiple of [POWERUP_SPAWN_AFTER_ROWS]. *)
Lemma step_powerUp sizes tex ev s :
  (spawnedRowCount s <= spawnedRowCount (step sizes tex ev s))%nat
  /\ (powerUp (step sizes tex ev s) = powerUp s
      \/ powerUp (step sizes tex ev s) = None
      \/ (spawnedRowCount (step sizes tex ev s) = S (spawnedRowCount s)
          /\ spawnedRowCount (step sizes tex ev s)
             mod POWERUP_SPAWN_AFTER_ROWS = 0%nat)).
Proof.
  destruct ev as [t|dt|bid eid|bid| |inp rnd|]; simpl.
  - frw (clockUpdate_frame t s). auto.
  - destruct (physicsPaused s); [auto|]. frw (worldStep_frame dt s). auto.
  - destruct (physicsPaused s); [auto|]. repeat case_match; auto.
    frw (hitEnemy_frame g e s). auto.
  - destruct (physicsPaused s); [auto|]. repeat case_match; auto.
    frw (hitPlayer_frame g s). auto.
  - destruct (physicsPaused s); [auto|].
    frw (collectPowerUp_frame (powerUp s) s). split; [lia|].
    unfold collectPowerUp. repeat case_match; auto.
  - destruct (update_spawner sizes tex inp rnd s)
      as [->|(y & Hc & Hp & _ & -> & -> & _)]; [auto|].
    destruct (checkSpawnNewRow_cases sizes tex rnd y)
      as [->|(top & _ & _ & _ & ->)]; [rewrite Hc, Hp; auto|].
    rewrite spawnNewRow_count, Hc. split; [lia|].
    destruct (spawnNewRow_powerUp sizes tex rnd top y) as [->|[Hdue _]];
      [left; exact Hp|].
    right. right. split; [reflexivity|].
    unfold milestoneDue in Hdue. apply andb_true_iff in Hdue as [Hm _].
    apply Nat.eqb_eq in Hm. rewrite Hc in Hm. exact Hm.
  - destruct (gameStartDivShown s); [|auto]. frw (startGame_frame s). auto.
Qed.

Lemma run_spawnedRowCount sizes tex evs s :
  (spawnedRowCount s <= spawnedRowCount (run sizes tex evs s))%nat.
Proof.
  revert s. induction evs as [|ev evs IH]; intros s; simpl; [lia|].
  etransitivity; [|apply IH]. apply step_powerUp.
Qed.

(** C10.  When [checkSpawnNewRow] spawns the row that brings the count of
    spawned rows to a multiple of 10 while a power-up is active on the
    field, [spawnPowerUp] returns without spawning: the power-up on the field
    is still the old one, and [lastPowerUpSpawnRow] is that count.  Whatever
    events follow, a step creates a power-up only at a count of spawned rows
    that is a later multiple of 10: none is spawned for the skipped
    milestone. *)
Theorem skipped_powerUp_not_deferred (sizes : Dimensions) (tex : Textures)
    (rnd : Random) (s : Game) (p : GameObject)
    (evs : list Event) (ev : Event) :
  powerUp s = Some p -> active p = true ->
  let s1 := checkSpawnNewRow sizes tex rnd s in
  spawnedRowCount s1 = S (spawnedRowCount s) ->
  S (spawnedRowCount s) mod POWERUP_SPAWN_AFTER_ROWS = 0%nat ->
  let a := run sizes tex evs s1 in
  let b := step sizes tex ev a in
  spawnPowerUp sizes rnd s = s
  /\ powerUp s1 = Some p
  /\ lastPowerUpSpawnRow s1 = spawnedRowCount s1
  /\ (powerUp b = powerUp a
      \/ powerUp b = None
      \/ ((spawnedRowCount s1 < spawnedRowCount b)%nat
          /\ spawnedRowCount b mod POWERUP_SPAWN_AFTER_ROWS = 0%nat)).
Proof.
  intros Hp Ha s1 Hcount Hmod a b.
  split; [exact (spawnPowerUp_active sizes rnd s p Hp Ha)|].
  assert (Hs1 : exists top, s1 = spawnNewRow sizes tex rnd top s).
  { subst s1.
    destruct (checkSpawnNewRow_cases sizes tex rnd s)
      as [Heq|(top & _ & _ & _ & Heq)]; [|eauto].
    rewrite Heq in Hcount. lia. }
  destruct Hs1 as [top Hs1]. split.
  { rewrite Hs1.
    destruct (spawnNewRow_powerUp sizes tex rnd top s) as [->|[_ Hn]];
      [exact Hp|].
    rewrite (Hn p Hp) in Ha. discriminate. }
  split.
  { rewrite Hcount, Hs1.
    apply spawnNewRow_lastPowerUpSpawnRow. exact Hmod. }
  pose proof (run_spawnedRowCount sizes tex evs s1) as Hle. fold a in Hle.
  destruct (step_powerUp sizes tex ev a) as [_ Hstep]. fold b in Hstep.
  destruct Hstep as [H|[H|[H1 H2]]].
  - left. exact H.
  - right. left. exact H.
  - right. right. split; [lia | exact H2].
Qed.

(** ** The shuffle and the super aliens of a new row *)









Lemma launchEnemy_fields vx e :
  isSuperAlien (launchEnemy vx e) = isSuperAlien e
  /\ x (obj (launchEnemy vx e)) = x (obj e)
  /\ y (obj (launchEnemy vx e)) = y (obj e)
  /\ row (launchEnemy vx e) = row e
  /\ isAlive (launchEnemy vx e) = isAlive e.
Proof.
  unfold launchEnemy. destruct (isAlive e) eqn:Ha, (body (obj e)); simpl; auto.
Qed.

Lemma launch_fields s e :
  isSuperAlien (launch s e) = isSuperAlien e
  /\ x (obj (launch s e)) = x (obj e)
  /\ y (obj (launch s e)) = y (obj e)
  /\ row (launch s e) = row e
  /\ isAlive (launch s e) = isAlive e.
Proof.
  unfold launch. destruct (Nat.eqb _ _); [apply launchEnemy_fields|auto].
Qed.

Lemma spawnNewRow_enemies sizes tex rnd top s :
  enemies (spawnNewRow sizes tex rnd top s)
  = map (launch s)
      (enemies s
       ++ rowOfEnemies sizes tex (nextId s) (nextRowIndex s)
            (spawnStartX sizes top (enemies s)) (top - 50)
            (superAlienPositions rnd (numSuperAliens s))).
Proof.
  unfold spawnNewRow, launch. scene_cbn.
  match goal with
  | |- context [powerUpMilestone sizes rnd ?X] =>
      frw (powerUpMilestone_frame sizes rnd X)
  end.
  reflexivity.
Qed.

Lemma spawnNewRow_nextRowIndex sizes tex rnd top s :
  nextRowIndex (spawnNewRow sizes tex rnd top s) = S (nextRowIndex s).
Proof.
  unfold spawnNewRow. scene_cbn.
  match goal with
  | |- context [powerUpMilestone sizes rnd ?X] =>
      frw (powerUpMilestone_frame sizes rnd X)
  end.
  reflexivity.
Qed.


(** ** The enemies of the array *)


Lemma Forall_map_same {A} (P : A -> Prop) (f : A -> A) (l : list A) :
  (forall a, P a -> P (f a)) -> Forall P l -> Forall P (map f l).
Proof.
  intros Hf H. induction H; simpl; constructor; auto.
Qed.



Lemma integrate_fields dt o :
  body (integrate dt o) = body o /\ active (integrate dt o) = active o.
Proof.
  unfold integrate. destruct (body o) as [b|] eqn:Hb; [|auto].
  destruct (enable b); simpl; auto.
Qed.

























(** ** Vertical velocity *)






(** ** Enemy volleys *)


Lemma randIndex_lt r n : inUnit r -> (0 < n)%nat -> (randIndex r n < n)%nat.
Proof.
  intros [H0 H1] Hn. unfold randIndex.
  assert (Hq : r * inject_Z (Z.of_nat n) < inject_Z (Z.of_nat n)).
  { assert (Hpos : 0 < inject_Z (Z.of_nat n)).
    { change 0 with (inject_Z 0). rewrite <- Zlt_Qlt. lia. }
    nra. }
  assert (Hlt : (Qfloor (r * inject_Z (Z.of_nat n)) < Z.of_nat n)%Z).
  { apply Z.nle_gt. intros Hge.
    pose proof (Qfloor_le (r * inject_Z (Z.of_nat n))) as Hf.
    rewrite Zle_Qle in Hge. lra. }
  assert (Hge0 : (0 <= Qfloor (r * inject_Z (Z.of_nat n)))%Z).
  { change 0%Z with (Qfloor 0). apply Qfloor_resp_le.
    assert (0 <= inject_Z (Z.of_nat n)).
    { change 0 with (inject_Z 0). rewrite <- Zle_Qle. lia. }
    nra. }
  lia.
Qed.

Lemma getRandom_Some {A} r (l : list A) :
  inUnit r -> l <> [] -> exists a, getRandom r l = Some a /\ a ∈ l.
Proof.
  intros Hr Hl. unfold getRandom.
  assert (Hn : (0 < length l)%nat) by (destruct l; [congruence|simpl; lia]).
  destruct (lookup_lt_is_Some_2 l (randIndex r (length l))
              (randIndex_lt r _ Hr Hn)) as [a Ha].
  exists a. split; [exact Ha|]. eapply list_elem_of_lookup_2. exact Ha.
Qed.














(** * Concrete scenes: witnesses and counterexamples *)

(** C9, on the scene at the right edge: both checks signal the reversal. *)
Lemma edge_check_refinement_witness :
  uniformRows (enemies sceneAtRightEdge)
  /\ edgeReached demoSizes 1 (enemies sceneAtRightEdge)
     = Legacy.edgeReached demoSizes 1 (enemies sceneAtRightEdge).
Proof.
  assert (H : uniformRows (enemies sceneAtRightEdge))
    by (apply uniformRowsb_sound; vm_compute; reflexivity).
  split; [exact H | exact (edge_check_refinement demoSizes 1 _ H)].
Defined.

(** C9 as stated fails: with a super alien wider than the alien to its right,
    the exhaustive check signals a reversal and the per-row check does not. *)
Lemma edge_check_refinement_counterexample :
  Legacy.edgeReached demoSizes 1 (enemies sceneWideSuperAtEdge) = true
  /\ edgeReached demoSizes 1 (enemies sceneWideSuperAtEdge) = false.
Proof. split; vm_compute; reflexivity. Qed.



(** C2, on the narrow session up to the expiry of double-shot. *)
Lemma bullet_caps_witness :
  (length (playerBullets sceneWithPowerUp) <= 6)%nat
  /\ (length (enemyBullets sceneWithPowerUp) <= 29)%nat
  /\ (length (playerBullets sceneAfterExpiry) <= 6)%nat
  /\ (length (enemyBullets sceneAfterExpiry) <= 29)%nat.
Proof.
  assert (H1 : (length (playerBullets sceneWithPowerUp) <= 6)%nat)
    by (vm_compute; lia).
  assert (H2 : (length (enemyBullets sceneWithPowerUp) <= 29)%nat)
    by (vm_compute; lia).
  split; [exact H1|]. split; [exact H2|].
  destruct (bullet_caps narrowSizes demoTextures
              (OverlapPlayerPowerUp :: frames 448 750 14)
              sceneWithPowerUp H1 H2) as (H3 & H4 & _).
  split; [exact H3 | exact H4].
Defined.

(** C2 as stated fails: in a reachable scene, at the end of the frame in
    which double-shot expires, six player bullets are in flight while
    double-shot is off. *)
Lemma bullet_caps_counterexample :
  reachable narrowSizes demoTextures sceneAfterExpiry
  /\ playerDoubleShot sceneAfterExpiry = false
  /\ length (playerBullets sceneAfterExpiry) = 6%nat.
Proof.
  split.
  - unfold sceneAfterExpiry, sceneWithPowerUp, narrowStart.
    apply reachable_run, reachable_run, reachable_initial.
  - vm_compute. split; reflexivity.
Qed.

(** C3, on the scene under fire: the bullet overlaps the player, the overlap
    is reported again, and a frame passes 400 ms later. *)
Lemma hitPlayer_once_witness :
  reachable demoSizes demoTextures sceneUnderFire
  /\ playerHitProcessing sceneUnderFire = false
  /\ active (firstEnemyBullet sceneUnderFire) = true
  /\ (0 < lives sceneUnderFire)%Z
  /\ lives (run demoSizes demoTextures
              [OverlapBulletPlayer (oid (firstEnemyBullet sceneUnderFire));
               ClockUpdate 1400;
               SceneUpdate noPointer (constRandom (1 # 2))]
              (hitPlayer (firstEnemyBullet sceneUnderFire) sceneUnderFire))
     = 2%Z.
Proof.
  assert (Hr : reachable demoSizes demoTextures sceneUnderFire)
    by (apply reachable_run, reachable_initial).
  assert (Hf : playerHitProcessing sceneUnderFire = false)
    by (vm_compute; reflexivity).
  assert (Ha : active (firstEnemyBullet sceneUnderFire) = true)
    by (vm_compute; reflexivity).
  assert (Hl : (0 < lives sceneUnderFire)%Z) by (vm_compute; reflexivity).
  assert (He : Forall (before (now sceneUnderFire + 500))
                 [OverlapBulletPlayer (oid (firstEnemyBullet sceneUnderFire));
                  ClockUpdate 1400;
                  SceneUpdate noPointer (constRandom (1 # 2))]).
  { repeat (constructor; [first [exact I | vm_compute; reflexivity]|]).
    constructor. }
  split; [exact Hr|]. split; [exact Hf|]. split; [exact Ha|].
  split; [exact Hl|].
  destruct (hitPlayer_once demoSizes demoTextures sceneUnderFire
              (firstEnemyBullet sceneUnderFire) _ Hr Hf Ha Hl He)
    as (_ & _ & _ & _ & _ & H & _).
  rewrite H. vm_compute. reflexivity.
Defined.







(** C10, on the 58th frame of the narrow session: the 20th row is spawned
    while the power-up of the 10th row is still on screen. *)
Lemma skipped_powerUp_not_deferred_witness :
  powerUp sceneTwentiethRowDue = Some (pendingPowerUp sceneTwentiethRowDue)
  /\ active (pendingPowerUp sceneTwentiethRowDue) = true
  /\ spawnedRowCount sceneTwentiethRowDue = 19%nat
  /\ spawnedRowCount
       (checkSpawnNewRow narrowSizes demoTextures (constRandom (1 # 2))
          sceneTwentiethRowDue) = 20%nat
  /\ powerUp
       (checkSpawnNewRow narrowSizes demoTextures (constRandom (1 # 2))
          sceneTwentiethRowDue)
     = Some (pendingPowerUp sceneTwentiethRowDue)
  /\ lastPowerUpSpawnRow
       (checkSpawnNewRow narrowSizes demoTextures (constRandom (1 # 2))
          sceneTwentiethRowDue) = 20%nat.
Proof.
  assert (Hp : powerUp sceneTwentiethRowDue
               = Some (pendingPowerUp sceneTwentiethRowDue))
    by (vm_compute; reflexivity).
  assert (Ha : active (pendingPowerUp sceneTwentiethRowDue) = true)
    by (vm_compute; reflexivity).
  assert (H19 : spawnedRowCount sceneTwentiethRowDue = 19%nat)
    by (vm_compute; reflexivity).
  assert (Hc : spawnedRowCount
                 (checkSpawnNewRow narrowSizes demoTextures
                    (constRandom (1 # 2)) sceneTwentiethRowDue)
               = S (spawnedRowCount sceneTwentiethRowDue))
    by (vm_compute; reflexivity).
  assert (Hm : S (spawnedRowCount sceneTwentiethRowDue)
                 mod POWERUP_SPAWN_AFTER_ROWS = 0%nat)
    by (vm_compute; reflexivity).
  destruct (skipped_powerUp_not_deferred narrowSizes demoTextures
              (constRandom (1 # 2)) sceneTwentiethRowDue
              (pendingPowerUp sceneTwentiethRowDue) [] (ClockUpdate 944)
              Hp Ha Hc Hm) as (_ & H1 & H2 & _).
  split; [exact Hp|]. split; [exact Ha|]. split; [exact H19|].
  split; [rewrite Hc, H19; reflexivity|]. split; [exact H1|].
  rewrite H2, Hc, H19. reflexivity.
Defined.

(** * Further properties of the scene *)

(** ** Scaling and the heads-up display *)


(** X2.  Whatever the width of the window, the font size of the score and
    lives texts lies between 20 and 35 pixels and the stroke thickness
    between 1 and 3; between these bounds they are the 30th and the 400th
    part of the width. *)
Theorem createUI_bounds (sizes : Dimensions) :
  20 <= fontSize sizes <= 35
  /\ 1 <= strokeThickness sizes <= 3
  /\ (600 <= dim_width sizes <= 1050 ->
      fontSize sizes == dim_width sizes / 30)
  /\ (400 <= dim_width sizes <= 1200 ->
      strokeThickness sizes == dim_width sizes / 400).
Proof.
  unfold fontSize, strokeThickness.
  set (w := dim_width sizes).
  assert (Hf : w == 30 * (w / 30)) by field.
  assert (Ht : w == 400 * (w / 400)) by field.
  pose proof (Q.le_max_l 20 (Qmin 35 (w / 30))).
  pose proof (Q.le_min_l 35 (w / 30)).
  pose proof (Q.le_max_l 1 (Qmin 3 (w / 400))).
  pose proof (Q.le_min_l 3 (w / 400)).
  split; [split; [assumption|apply Q.max_lub; [lra|assumption]]|].
  split; [split; [assumption|apply Q.max_lub; [lra|assumption]]|].
  split.
  - intros [Hlo Hhi].
    rewrite Q.max_r, Q.min_r; [reflexivity| |]; [lra|].
    rewrite Q.min_r; lra.
  - intros [Hlo Hhi].
    rewrite Q.max_r, Q.min_r; [reflexivity| |]; [lra|].
    rewrite Q.min_r; lra.
Qed.

(** ** The player *)

(** X3.  [handlePlayerMovement] does nothing while the pointer is up.
    While it is down it changes the player's x and nothing else: the
    player's centre then is never left of its half width, it is never right
    of the window width minus its half width when the window is wide enough
    to hold the player, and it is the pointer position when that lies
    between the two. *)
Theorem handlePlayerMovement_clamps (sizes : Dimensions) (inp : Pointer)
    (s : Game) :
  let half := (width (player s) * scaleX (player s)) / 2 in
  let s' := handlePlayerMovement sizes inp s in
  (isDown inp = false -> s' = s)
  /\ (isDown inp = true ->
      s' = set_player (set_x (x (player s')) (player s)) s
      /\ half <= x (player s')
      /\ (half <= dim_width sizes - half ->
          x (player s') <= dim_width sizes - half)
      /\ (half <= pointerX inp <= dim_width sizes - half ->
          x (player s') == pointerX inp)).
Proof.
  intros half s'. subst s'. unfold handlePlayerMovement.
  split; [intros ->; reflexivity|]. intros ->. fold half.
  cbn [player set_player x set_x]. unfold clamp.
  set (hi := dim_width sizes - half).
  split; [reflexivity|].
  split; [apply Q.le_max_l|].
  split.
  - intros Hfit. apply Q.max_lub; [exact Hfit | apply Q.le_min_l].
  - intros [Hlo Hhi].
    rewrite Q.max_r; rewrite Q.min_r; try reflexivity; assumption.
Qed.

(** ** Bullets leaving the screen *)

Lemma filter_idemp {A} (P : A -> Prop) `{forall a, Decision (P a)}
    (l : list A) :
  filter P (filter P l) = filter P l.
Proof.
  induction l as [|a l IH]; [reflexivity|].
  destruct (decide (P a)) as [Ha|Ha].
  - rewrite (filter_cons_True P a l Ha), (filter_cons_True P a _ Ha), IH.
    reflexivity.
  - rewrite (filter_cons_False P a l Ha). exact IH.
Qed.

(** X4.  After [cleanupBullets] the player bullets are exactly those that
    were not above the upper edge of the window ([y >= 0]) and the enemy
    bullets exactly those not below its lower edge ([y <= height]), in their
    order; a bullet on the edge itself is kept; nothing else changes, and a
    second call changes nothing. *)
Theorem cleanupBullets_on_screen (sizes : Dimensions) (s : Game) :
  let s' := cleanupBullets sizes s in
  (forall b, b ∈ playerBullets s' <-> b ∈ playerBullets s /\ 0 <= y b)
  /\ (forall b, b ∈ enemyBullets s'
                <-> b ∈ enemyBullets s /\ y b <= dim_height sizes)
  /\ playerBullets s' `sublist_of` playerBullets s
  /\ enemyBullets s' `sublist_of` enemyBullets s
  /\ s' = set_enemyBullets (enemyBullets s')
            (set_playerBullets (playerBullets s') s)
  /\ cleanupBullets sizes s' = s'.
Proof.
  intros s'. subst s'. unfold cleanupBullets. scene_cbn.
  split; [|split; [|split; [|split; [|split]]]].
  - intros b. rewrite list_elem_of_filter. unfold Qltb.
    rewrite negb_false_iff, Qle_bool_iff. tauto.
  - intros b. rewrite list_elem_of_filter. unfold Qgtb.
    rewrite negb_false_iff, Qle_bool_iff. tauto.
  - apply sublist_filter.
  - apply sublist_filter.
  - reflexivity.
  - rewrite !filter_idemp. reflexivity.
Qed.

(** ** Shots *)

Lemma Qgeb_self_false (t d : Q) : 0 < d -> Qgeb (t - t) d = false.
Proof.
  intros Hd. unfold Qgeb. apply not_true_iff_false. rewrite Qle_bool_iff.
  lra.
Qed.

Lemma Qeq_bool_false (a b : Q) : ~ a == b -> Qeq_bool a b = false.
Proof.
  intros H. apply not_true_iff_false. rewrite Qeq_bool_iff. exact H.
Qed.

(** X5.  [handlePlayerShooting] fires only when the shoot timer is set and
    at least 750 ms have passed since it was set; it then restarts the timer
    and adds as many bullets as the cap allows: one at the player's x below 3
    bullets, or under double-shot the pair at x-10 and x+10 below 5 bullets
    and only the left one at 5.  The new bullets start 10 pixels above the
    player and move up at the bullet speed.  An unset timer (0) is set to
    the current time without a shot. *)
Theorem handlePlayerShooting_shot (s : Game) :
  let s' := handlePlayerShooting s in
  exists new,
    playerBullets s' = playerBullets s ++ new
    /\ length new
       = (if shotDue s
          then playerShots (playerDoubleShot s) (length (playerBullets s))
          else 0%nat)
    /\ map x new
       = take (length new)
           (if playerDoubleShot s
            then [x (player s) - 10; x (player s) + 10]
            else [x (player s)])
    /\ Forall (fun b => y b = muzzleY s
                        /\ body b = bulletBody (- BULLET_SPEED)
                        /\ active b = true
                        /\ width b = BULLET_WIDTH
                        /\ height b = BULLET_HEIGHT)
         new
    /\ playerShootTimer s'
       = (if shotDue s || Qeq_bool (playerShootTimer s) 0
          then now s else playerShootTimer s).
Proof.
  intros s'. subst s'. unfold handlePlayerShooting, shotDue.
  destruct (Qeq_bool (playerShootTimer s) 0) eqn:Hz; cbn [negb andb orb].
  - scene_cbn. rewrite Qgeb_self_false by reflexivity.
    exists []. rewrite app_nil_r. repeat split; constructor.
  - destruct (Qgeb (now s - playerShootTimer s) PLAYER_SHOOT_INTERVAL);
      [|exists []; rewrite app_nil_r; repeat split; constructor].
    cbn [orb]. unfold playerShots, addPlayerBullet, muzzleY, bulletBody.
    scene_cbn.
    destruct (playerDoubleShot s).
    + destruct (Nat.ltb (length (playerBullets s)) 6);
        [|exists []; rewrite app_nil_r; repeat split; constructor].
      destruct (Nat.ltb (length (playerBullets s) + 1) 6).
      * eexists [_; _]. scene_cbn. rewrite <- app_assoc.
        split; [reflexivity|]. repeat split; repeat constructor.
      * eexists [_]. scene_cbn.
        split; [reflexivity|]. repeat split; repeat constructor.
    + destruct (Nat.ltb (length (playerBullets s)) 3);
        [|exists []; rewrite app_nil_r; repeat split; constructor].
      eexists [_]. scene_cbn.
      split; [reflexivity|]. repeat split; repeat constructor.
Qed.

(** X6.  A shot of an alive, active enemy: a regular alien adds one bullet
    at its x while fewer than 29 enemy bullets exist; a super alien adds the
    pair at x-10 and x+10 while fewer than 28 exist and only the right one
    at 28.  The new bullets start 5 pixels below the enemy and move down at
    the enemy bullet speed.  The row of the enemy loses its eligibility also
    when the cap leaves no room for a bullet.  An enemy that is not alive or
    not active does nothing. *)
Theorem shootFromEnemy_shot (enemy : Enemy) (s : Game) :
  let s' := shootFromEnemy enemy s in
  (active (obj enemy) && isAlive enemy = false -> s' = s)
  /\ (active (obj enemy) && isAlive enemy = true ->
      exists new,
        enemyBullets s' = enemyBullets s ++ new
        /\ length new
           = enemyShots (isSuperAlien enemy) (length (enemyBullets s))
        /\ map x new
           = (if isSuperAlien enemy
              then drop (2 - length new)
                     [x (obj enemy) - 10; x (obj enemy) + 10]
              else take (length new) [x (obj enemy)])
        /\ Forall (fun b => y b = bulletSpawnY enemy
                            /\ body b = bulletBody ENEMY_BULLET_SPEED
                            /\ active b = true
                            /\ width b = BULLET_WIDTH
                            /\ height b = BULLET_HEIGHT)
             new
        /\ rowsCanShoot s' = rowsCanShoot s ∖ {[row enemy]}).
Proof.
  intros s'. subst s'. unfold shootFromEnemy.
  destruct (active (obj enemy)), (isAlive enemy); cbn [negb andb orb];
    (split; [try reflexivity; discriminate|]); try discriminate.
  intros _. unfold enemyShots, addEnemyBullet, bulletSpawnY, bulletBody.
  destruct (isSuperAlien enemy).
  - destruct (Nat.ltb (length (enemyBullets s)) 28) eqn:H28.
    + scene_cbn. rewrite length_app. cbn [length].
      apply Nat.ltb_lt in H28.
      destruct (Nat.ltb_spec (length (enemyBullets s) + 1) 29); [|lia].
      eexists [_; _]. scene_cbn. rewrite <- app_assoc.
      split; [reflexivity|]. repeat split; repeat constructor.
    + destruct (Nat.ltb (length (enemyBullets s)) 29).
      * eexists [_]. scene_cbn.
        split; [reflexivity|]. repeat split; repeat constructor.
      * exists []. scene_cbn. rewrite app_nil_r.
        repeat split; constructor.
  - destruct (Nat.ltb (length (enemyBullets s)) 29).
    + eexists [_]. scene_cbn.
      split; [reflexivity|]. repeat split; repeat constructor.
    + exists []. scene_cbn. rewrite app_nil_r. repeat split; constructor.
Qed.

(** ** Volleys *)

(** X7.  The volley reset of [handleEnemyShooting]: when the volley timer is
    set and at least 5000 ms have passed since, the timer restarts, the
    shooting lock is released, and the rows that can shoot become exactly
    the rows that have an alive enemy in the array.  Before that nothing
    changes.  An unset timer (0) is put 4000 ms into the past, so that the
    reset is not due in that frame. *)
Theorem prepareVolley_reset (s : Game) :
  let s' := prepareVolley s in
  (enemyShootTimer s == 0 ->
   s' = set_enemyShootTimer (now s - ENEMY_SHOOT_INTERVAL + 1000) s)
  /\ (~ enemyShootTimer s == 0 ->
      now s < enemyShootTimer s + ENEMY_SHOOT_INTERVAL -> s' = s)
  /\ (~ enemyShootTimer s == 0 ->
      enemyShootTimer s + ENEMY_SHOOT_INTERVAL <= now s ->
      enemyShootTimer s' = now s
      /\ rowShooting s' = None
      /\ (forall r, r ∈ rowsCanShoot s'
                    <-> exists e, e ∈ enemies s /\ isAlive e = true
                                  /\ row e = r)
      /\ s' = set_rowShooting None
                (set_rowsCanShoot (rowsCanShoot s')
                   (set_enemyShootTimer (now s) s))).
Proof.
  intros s'. subst s'. unfold prepareVolley, initShootTimer, volleyDue.
  split; [|split].
  - intros Hz. apply Qeq_bool_iff in Hz. rewrite Hz. scene_cbn.
    replace (Qgeb _ _) with false; [reflexivity|].
    symmetry. unfold Qgeb. apply not_true_iff_false. rewrite Qle_bool_iff.
    unfold ENEMY_SHOOT_INTERVAL. lra.
  - intros Hz Hlt. apply Qeq_bool_false in Hz. rewrite Hz.
    replace (Qgeb _ _) with false; [reflexivity|].
    symmetry. unfold Qgeb. apply not_true_iff_false. rewrite Qle_bool_iff.
    lra.
  - intros Hz Hge. apply Qeq_bool_false in Hz. rewrite Hz.
    replace (Qgeb _ _) with true
      by (symmetry; unfold Qgeb; apply Qle_bool_iff; lra).
    unfold volleyReset. scene_cbn.
    split; [reflexivity|]. split; [reflexivity|]. split; [|reflexivity].
    intros r. unfold aliveEnemyRows.
    rewrite elem_of_list_to_set, list_elem_of_fmap.
    split.
    + intros (e & -> & He). apply list_elem_of_filter in He as [Ha He].
      eauto.
    + intros (e & He & Ha & <-). exists e. split; [reflexivity|].
      apply list_elem_of_filter. auto.
Qed.

(** ** The wave spawner *)

Lemma topmostY_fold_map (f : Enemy -> Enemy) (l : list Enemy) acc :
  (forall e, isAlive (f e) = isAlive e /\ active (obj (f e)) = active (obj e)
             /\ y (obj (f e)) = y (obj e)) ->
  fold_left
    (fun top e =>
       if negb (isAlive e) || negb (active (obj e)) then top
       else match top with
            | None => Some (y (obj e))
            | Some t => if Qltb (y (obj e)) t then Some (y (obj e)) else top
            end)
    (map f l) acc
  = fold_left
      (fun top e =>
         if negb (isAlive e) || negb (active (obj e)) then top
         else match top with
              | None => Some (y (obj e))
              | Some t => if Qltb (y (obj e)) t then Some (y (obj e)) else top
              end)
      l acc.
Proof.
  intros Hf. revert acc. induction l as [|e l IH]; intros acc; simpl;
    [reflexivity|].
  destruct (Hf e) as (-> & -> & ->). apply IH.
Qed.

Lemma topmostY_map (f : Enemy -> Enemy) (l : list Enemy) :
  (forall e, isAlive (f e) = isAlive e /\ active (obj (f e)) = active (obj e)
             /\ y (obj (f e)) = y (obj e)) ->
  topmostY (map f l) = topmostY l.
Proof. intros Hf. apply topmostY_fold_map, Hf. Qed.

Lemma Qltb_irrefl (a : Q) : Qltb a a = false.
Proof.
  unfold Qltb. apply negb_false_iff, Qle_bool_iff. lra.
Qed.

(** The scan of [checkSpawnNewRow] over enemies that are alive and active and
    all at the height [y0]. *)
Lemma topmostY_fold_level (y0 : Q) (l : list Enemy) :
  Forall (fun e => isAlive e = true /\ active (obj e) = true
                   /\ y (obj e) = y0) l ->
  fold_left
    (fun top e =>
       if negb (isAlive e) || negb (active (obj e)) then top
       else match top with
            | None => Some (y (obj e))
            | Some t => if Qltb (y (obj e)) t then Some (y (obj e)) else top
            end)
    l (Some y0)
  = Some y0.
Proof.
  induction 1 as [|e l (Ha & Hact & Hy) _ IH]; simpl; [reflexivity|].
  rewrite Ha, Hact, Hy, Qltb_irrefl. exact IH.
Qed.

Lemma launch_active s e : active (obj (launch s e)) = active (obj e).
Proof.
  unfold launch, launchEnemy.
  destruct (Nat.eqb _ _); [|reflexivity].
  destruct (isAlive e), (body (obj e)); reflexivity.
Qed.

Lemma rowOfEnemies_level sizes tex id r startX py cols :
  Forall (fun e => isAlive e = true /\ active (obj e) = true
                   /\ y (obj e) = py)
    (rowOfEnemies sizes tex id r startX py cols).
Proof.
  unfold rowOfEnemies. apply Forall_forall. intros e He.
  apply list_elem_of_In, in_map_iff in He as (c & <- & _).
  repeat split.
Qed.

Lemma spawnNewRow_topmostY sizes tex rnd top s :
  topmostY (enemies s) = Some top ->
  topmostY (enemies (spawnNewRow sizes tex rnd top s)) = Some (top - 50).
Proof.
  intros Htop. rewrite spawnNewRow_enemies.
  rewrite topmostY_map
    by (intros e; destruct (launch_fields s e) as (_ & _ & Hy & _ & Ha);
        rewrite Ha, Hy, launch_active; auto).
  unfold topmostY in *. rewrite fold_left_app, Htop.
  pose proof (rowOfEnemies_level sizes tex (nextId s) (nextRowIndex s)
                (spawnStartX sizes top (enemies s)) (top - 50)
                (superAlienPositions rnd (numSuperAliens s))) as Hrow.
  destruct (rowOfEnemies _ _ _ _ _ _ _) as [|e0 l0] eqn:E.
  { apply (f_equal length) in E. unfold rowOfEnemies in E.
    rewrite length_map, length_seq in E. discriminate. }
  cbn [fold_left].
  inversion Hrow as [|e0' l0' (Ha & Hact & Hy) Hrest]; subst.
  rewrite Ha, Hact, Hy. cbn [negb orb].
  replace (Qltb (top - 50) top) with true
    by (symmetry; unfold Qltb; apply negb_true_iff, not_true_iff_false;
        rewrite Qle_bool_iff; lra).
  apply topmostY_fold_level. exact Hrest.
Qed.

Lemma spawnNewRow_checks sizes tex rnd top s :
  lives (spawnNewRow sizes tex rnd top s) = lives s
  /\ lastSpawnedRowY (spawnNewRow sizes tex rnd top s) = Some (top - 50)
  /\ lastSpawnCheckY (spawnNewRow sizes tex rnd top s) = Some top
  /\ enemyDirection (spawnNewRow sizes tex rnd top s) = enemyDirection s
  /\ enemySpeed (spawnNewRow sizes tex rnd top s) = enemySpeed s.
Proof.
  unfold spawnNewRow. scene_cbn.
  match goal with
  | |- context [powerUpMilestone sizes rnd ?X] =>
      frw (powerUpMilestone_frame sizes rnd X)
  end.
  scene_cbn. auto 6.
Qed.

(** X8.  A row is spawned once per position of the formation: a second
    call of [checkSpawnNewRow], right after the first and whatever the
    random numbers, changes nothing.  (The row just spawned is the topmost
    one, 50 pixels above the height recorded at the spawn, and the next spawn
    waits for a topmost enemy below that height.) *)
Theorem checkSpawnNewRow_once (sizes : Dimensions) (tex : Textures)
    (rnd rnd' : Random) (s : Game) :
  checkSpawnNewRow sizes tex rnd' (checkSpawnNewRow sizes tex rnd s)
  = checkSpawnNewRow sizes tex rnd s.
Proof.
  destruct (checkSpawnNewRow_cases sizes tex rnd s)
    as [Heq|(top & Hl & Htop & Hsp & Heq)].
  - rewrite Heq.
    destruct (checkSpawnNewRow_cases sizes tex rnd' s)
      as [Heq'|(top' & Hl' & Htop' & Hsp' & Heq')]; [exact Heq'|].
    exfalso. revert Heq. unfold checkSpawnNewRow.
    destruct (Z.leb_spec (lives s) 0); [lia|].
    destruct (lastSpawnedRowY s) eqn:Hy.
    + rewrite Htop', Hsp'. intros Heq.
      pose proof (spawnNewRow_nextRowIndex sizes tex rnd top' s) as Hn.
      rewrite Heq in Hn. lia.
    + intros _. revert Heq'. unfold checkSpawnNewRow.
      destruct (Z.leb_spec (lives s) 0); [lia|]. rewrite Hy.
      intros Heq'.
      pose proof (spawnNewRow_nextRowIndex sizes tex rnd' top' s) as Hn.
      rewrite <- Heq' in Hn. lia.
  - rewrite Heq.
    destruct (spawnNewRow_checks sizes tex rnd top s)
      as (Hl' & Hy' & Hc' & _).
    unfold checkSpawnNewRow at 1.
    rewrite Hl', Hy', (spawnNewRow_topmostY sizes tex rnd top s Htop).
    destruct (Z.leb_spec (lives s) 0); [lia|].
    unfold shouldSpawn. rewrite Hc'.
    replace (Qgtb (top - 50) top) with false
      by (symmetry; unfold Qgtb; apply negb_false_iff, Qle_bool_iff; lra).
    rewrite andb_false_r. reflexivity.
Qed.

Lemma spawnNewRow_rowsCanShoot sizes tex rnd top s :
  rowsCanShoot (spawnNewRow sizes tex rnd top s)
  = {[nextRowIndex s]} ∪ rowsCanShoot s.
Proof.
  unfold spawnNewRow. scene_cbn.
  match goal with
  | |- context [powerUpMilestone sizes rnd ?X] =>
      frw (powerUpMilestone_frame sizes rnd X)
  end.
  reflexivity.
Qed.

Lemma launch_old s e : (row e < nextRowIndex s)%nat -> launch s e = e.
Proof.
  intros H. unfold launch.
  destruct (Nat.eqb_spec (row e) (nextRowIndex s)); [lia|reflexivity].
Qed.

Lemma launch_new sizes tex s id px py super :
  launch s (newEnemy sizes tex id px py (nextRowIndex s) super)
  = set_obj
      (set_body
         (Some (mkBody true (inject_Z (enemyDirection s) * enemySpeed s)
                  0 0 false))
         (obj (newEnemy sizes tex id px py (nextRowIndex s) super)))
      (newEnemy sizes tex id px py (nextRowIndex s) super).
Proof.
  unfold launch. cbn [row newEnemy]. rewrite Nat.eqb_refl. reflexivity.
Qed.

(** X9.  The row that [checkSpawnNewRow] spawns joins the formation: the
    enemies already in the array are left as they are; the new enemies are
    appended, alive and active, 50 pixels above the topmost enemy, and they
    move at once with the velocity of the formation (direction times speed
    horizontally, zero vertically); the new row can shoot; the row index and
    the count of spawned rows go up by one; and the height of the spawn is
    recorded. *)
Theorem spawned_row_joins_formation (sizes : Dimensions) (tex : Textures)
    (rnd : Random) (s : Game) (top : Q) :
  (0 < lives s)%Z -> lastSpawnedRowY s <> None ->
  topmostY (enemies s) = Some top -> shouldSpawn top s = true ->
  Forall (fun e => (row e < nextRowIndex s)%nat) (enemies s) ->
  let s' := checkSpawnNewRow sizes tex rnd s in
  let newRow := drop (length (enemies s)) (enemies s') in
  take (length (enemies s)) (enemies s') = enemies s
  /\ Forall
       (fun e =>
          isAlive e = true /\ active (obj e) = true
          /\ y (obj e) = top - 50
          /\ body (obj e)
             = Some (mkBody true
                       (inject_Z (enemyDirection s) * enemySpeed s)
                       0 0 false))
       newRow
  /\ rowsCanShoot s' = {[nextRowIndex s]} ∪ rowsCanShoot s
  /\ nextRowIndex s' = S (nextRowIndex s)
  /\ spawnedRowCount s' = S (spawnedRowCount s)
  /\ lastSpawnedRowY s' = Some (top - 50)
  /\ lastSpawnCheckY s' = Some top
  /\ topmostY (enemies s') = Some (top - 50)
  /\ enemyDirection s' = enemyDirection s
  /\ enemySpeed s' = enemySpeed s.
Proof.
  intros Hl Hy Htop Hspawn Hrows s' newRow.
  assert (Hs' : s' = spawnNewRow sizes tex rnd top s).
  { subst s'. unfold checkSpawnNewRow.
    apply Z.leb_gt in Hl. rewrite Hl.
    destruct (lastSpawnedRowY s); [|congruence].
    rewrite Htop, Hspawn. reflexivity. }
  assert (Hold : map (launch s) (enemies s) = enemies s).
  { clear -Hrows. induction Hrows as [|e l He _ IH]; [reflexivity|].
    cbn [map]. rewrite (launch_old s e He), IH. reflexivity. }
  assert (Hes : enemies s'
                = enemies s
                  ++ map (launch s)
                       (rowOfEnemies sizes tex (nextId s) (nextRowIndex s)
                          (spawnStartX sizes top (enemies s)) (top - 50)
                          (superAlienPositions rnd (numSuperAliens s)))).
  { rewrite Hs', spawnNewRow_enemies, map_app, Hold. reflexivity. }
  destruct (spawnNewRow_checks sizes tex rnd top s)
    as (_ & Hy' & Hc' & Hd' & Hv').
  split.
  { rewrite Hes, take_app_length. reflexivity. }
  split.
  { subst newRow. rewrite Hes, drop_app_length.
    unfold rowOfEnemies. rewrite map_map. apply Forall_forall.
    intros e He. apply list_elem_of_In, in_map_iff in He as (c & <- & _).
    rewrite launch_new. repeat split. }
  split; [rewrite Hs'; apply spawnNewRow_rowsCanShoot|].
  split; [rewrite Hs'; apply spawnNewRow_nextRowIndex|].
  split; [rewrite Hs'; apply spawnNewRow_count|].
  split; [rewrite Hs'; exact Hy'|].
  split; [rewrite Hs'; exact Hc'|].
  split; [rewrite Hs'; apply spawnNewRow_topmostY; exact Htop|].
  rewrite Hs'. split; assumption.
Qed.

Lemma spawned_row_joins_formation_witness :
  (0 < lives sceneSixthRowDue)%Z
  /\ lastSpawnedRowY sceneSixthRowDue <> None
  /\ topmostY (enemies sceneSixthRowDue) = Some (highestY sceneSixthRowDue)
  /\ shouldSpawn (highestY sceneSixthRowDue) sceneSixthRowDue = true
  /\ Forall (fun e => (row e < nextRowIndex sceneSixthRowDue)%nat)
       (enemies sceneSixthRowDue)
  /\ nextRowIndex
       (checkSpawnNewRow narrowSizes demoTextures (constRandom (1 # 2))
          sceneSixthRowDue)
     = S (nextRowIndex sceneSixthRowDue).
Proof.
  assert (Hl : (0 < lives sceneSixthRowDue)%Z) by (vm_compute; reflexivity).
  assert (Hy : lastSpawnedRowY sceneSixthRowDue <> None)
    by (vm_compute; discriminate).
  assert (Ht : topmostY (enemies sceneSixthRowDue)
               = Some (highestY sceneSixthRowDue))
    by (vm_compute; reflexivity).
  assert (Hs : shouldSpawn (highestY sceneSixthRowDue) sceneSixthRowDue = true)
    by (vm_compute; reflexivity).
  assert (Hr : Forall (fun e => (row e < nextRowIndex sceneSixthRowDue)%nat)
                 (enemies sceneSixthRowDue)).
  { apply Forall_forall. intros e He.
    apply Nat.ltb_lt.
    revert e He. apply Forall_forall, Forall_forall.
    intros e He. apply list_elem_of_In in He.
    revert e He. apply forallb_forall. vm_compute. reflexivity. }
  split; [exact Hl|]. split; [exact Hy|]. split; [exact Ht|].
  split; [exact Hs|]. split; [exact Hr|].
  exact (proj1 (proj2 (proj2 (proj2
           (spawned_row_joins_formation narrowSizes demoTextures
              (constRandom (1 # 2)) sceneSixthRowDue
              (highestY sceneSixthRowDue) Hl Hy Ht Hs Hr))))).
Defined.

(** ** Kills *)


Lemma spliceEnemy_length id l :
  length (spliceEnemy id l)
  = if existsb (fun e => Nat.eqb (oid (obj e)) id) l
    then pred (length l) else length l.
Proof.
  induction l as [|e l IH]; simpl; [reflexivity|].
  destruct (Nat.eqb _ _); simpl; [reflexivity|].
  rewrite IH. destruct (existsb _ l) eqn:Hex; [|reflexivity].
  destruct l; [discriminate|reflexivity].
Qed.


Lemma findObject_withoutObject id l :
  findObject id (withoutObject id l) = None.
Proof.
  unfold findObject, withoutObject.
  induction l as [|b l IH]; [reflexivity|].
  destruct (decide (oid b ≠ id)) as [Hb|Hb].
  - rewrite (filter_cons_True _ b l Hb). simpl.
    destruct (Nat.eqb_spec (oid b) id); [contradiction|exact IH].
  - rewrite (filter_cons_False _ b l Hb). exact IH.
Qed.


Lemma findObject_oid id l o : findObject id l = Some o -> oid o = id.
Proof.
  unfold findObject. intros H. apply find_some in H as [_ H].
  apply Nat.eqb_eq. exact H.
Qed.

Lemma hitEnemy_fields b e s :
  active b = true -> active (obj e) = true ->
  playerBullets (hitEnemy b e s) = withoutObject (oid b) (playerBullets s)
  /\ enemies (hitEnemy b e s) = spliceEnemy (oid (obj e)) (enemies s).
Proof.
  intros Hb He. unfold hitEnemy, updateScore, destroyBullet.
  rewrite Hb, He. cbn [negb]. case_match; scene_cbn; auto.
Qed.

Lemma step_bullet_absent sizes tex bulletId enemyId s :
  findObject bulletId (playerBullets s) = None ->
  step sizes tex (OverlapBulletEnemy bulletId enemyId) s = s.
Proof.
  intros Hf. simpl. rewrite Hf. destruct (physicsPaused s); reflexivity.
Qed.

Lemma step_bullet_once sizes tex bulletId enemyId s :
  step sizes tex (OverlapBulletEnemy bulletId enemyId) s = s
  \/ (findObject bulletId
        (playerBullets (step sizes tex (OverlapBulletEnemy bulletId enemyId) s))
      = None
      /\ (score (step sizes tex (OverlapBulletEnemy bulletId enemyId) s)
          = (score s + 5)%Z
          \/ score (step sizes tex (OverlapBulletEnemy bulletId enemyId) s)
             = (score s + 7)%Z)
      /\ (length (enemies s)
          <= length (enemies
                       (step sizes tex
                          (OverlapBulletEnemy bulletId enemyId) s)) + 1)%nat).
Proof.
  simpl. destruct (physicsPaused s); [auto|].
  destruct (findObject bulletId (playerBullets s)) as [b|] eqn:Hb; [|auto].
  destruct (findEnemy enemyId (enemies s)) as [e|] eqn:He; [|auto].
  apply findObject_oid in Hb as Hid.
  destruct (active b) eqn:Hab;
    [|left; unfold hitEnemy; rewrite Hab; reflexivity].
  destruct (active (obj e)) eqn:Hae;
    [|left; unfold hitEnemy; rewrite Hab, Hae; reflexivity].
  right. destruct (hitEnemy_fields b e s Hab Hae) as [-> ->].
  rewrite hitEnemy_score, Hab, Hae. cbn [andb].
  split; [rewrite <- Hid; apply findObject_withoutObject|].
  split; [destruct (isSuperAlien e); auto|].
  rewrite spliceEnemy_length. destruct (existsb _ _); lia.
Qed.

Lemma run_cons sizes tex ev evs s :
  run sizes tex (ev :: evs) s = run sizes tex evs (step sizes tex ev s).
Proof. reflexivity. Qed.

Lemma run_bullet_absent sizes tex bulletId evs s :
  Forall (sameBullet bulletId) evs ->
  findObject bulletId (playerBullets s) = None ->
  run sizes tex evs s = s.
Proof.
  intros Hall. revert s. induction Hall as [|ev evs [e ->] _ IH];
    intros s Hf; [reflexivity|].
  rewrite run_cons.
  rewrite step_bullet_absent by exact Hf. apply IH. exact Hf.
Qed.

(** X11.  A bullet kills once: however many overlaps of one player bullet
    with enemies are reported in a row, they add at most one kill to the
    score (nothing, 5 or 7) and remove at most one enemy from the array. *)
Theorem bullet_kills_once (sizes : Dimensions) (tex : Textures)
    (bulletId : nat) (evs : list Event) (s : Game) :
  Forall (sameBullet bulletId) evs ->
  let s' := run sizes tex evs s in
  (score s' = score s \/ score s' = (score s + 5)%Z
   \/ score s' = (score s + 7)%Z)
  /\ (length (enemies s) <= length (enemies s') + 1)%nat.
Proof.
  intros Hall. revert s. induction Hall as [|ev evs [e ->] Hall IH];
    intros s; [simpl; split; [auto|lia]|].
  cbv zeta.
  rewrite run_cons.
  destruct (step_bullet_once sizes tex bulletId e s)
    as [->|(Hgone & Hscore & Hlen)]; [apply IH|].
  rewrite (run_bullet_absent sizes tex bulletId evs _ Hall Hgone).
  split; [tauto|exact Hlen].
Qed.

Lemma bullet_kills_once_witness :
  Forall (sameBullet (oid (firstPlayerBullet sceneWithShot)))
    [OverlapBulletEnemy (oid (firstPlayerBullet sceneWithShot))
       (oid (obj (firstEnemy sceneWithShot)));
     OverlapBulletEnemy (oid (firstPlayerBullet sceneWithShot)) 2]
  /\ (length (enemies sceneWithShot)
      <= length
           (enemies
              (run demoSizes demoTextures
                 [OverlapBulletEnemy (oid (firstPlayerBullet sceneWithShot))
                    (oid (obj (firstEnemy sceneWithShot)));
                  OverlapBulletEnemy (oid (firstPlayerBullet sceneWithShot))
                    2]
                 sceneWithShot)) + 1)%nat.
Proof.
  assert (H : Forall (sameBullet (oid (firstPlayerBullet sceneWithShot)))
                [OverlapBulletEnemy (oid (firstPlayerBullet sceneWithShot))
                   (oid (obj (firstEnemy sceneWithShot)));
                 OverlapBulletEnemy (oid (firstPlayerBullet sceneWithShot))
                   2]).
  { repeat constructor; eexists; reflexivity. }
  split; [exact H|].
  exact (proj2 (bullet_kills_once demoSizes demoTextures _ _
                  sceneWithShot H)).
Defined.

(** ** The phases of a session *)












(** ** The initial formation *)

Lemma initial_enemies_rows sizes tex t0 rnd :
  enemies (initial sizes tex t0 rnd)
  = concat
      (map (fun r =>
              rowOfEnemies sizes tex (1 + r * 6) r
                (20 + (dim_width sizes
                       - inject_Z (Z.of_nat (ENEMY_COLS - 1)) * ENEMY_SPACING
                       - 20 * 2) / 2)
                (dim_height sizes * (1 # 10) - inject_Z (Z.of_nat r) * 50)
                [initialSuperColumn rnd r])
           (seq 0 ENEMY_ROWS)).
Proof. reflexivity. Qed.

Lemma initialSuperColumn_lt rnd r :
  inUnit (rnd r) -> (initialSuperColumn rnd r < ENEMY_COLS)%nat.
Proof.
  intros Hu. unfold initialSuperColumn, between.
  rewrite Qfloor_Z.
  replace (Qfloor _) with (Qfloor (rnd r * inject_Z (Z.of_nat 6)))
    by (apply Qfloor_comp; unfold ENEMY_COLS; simpl; ring).
  exact (randIndex_lt (rnd r) 6 Hu ltac:(lia)).
Qed.

(** X13.  The scene after [create]: 5 rows of 6 enemies, row by row and
    column by column in the array; the enemy of row [r] and column [c]
    stands at x = width/2 - 125 + 50 c (the formation is centred) and
    y = height/10 - 50 r (row 0 is the lowest), alive, at rest; each row has
    exactly one super alien, in a column drawn for the row; the 5 rows can
    shoot; the next row to spawn has index 5, and the first volley reset is
    due one second later. *)
Theorem initial_formation (sizes : Dimensions) (tex : Textures) (t0 : Q)
    (rnd : nat -> Q) :
  (forall r, inUnit (rnd r)) ->
  let s := initial sizes tex t0 rnd in
  length (enemies s) = (ENEMY_ROWS * ENEMY_COLS)%nat
  /\ (forall r c, (r < ENEMY_ROWS)%nat -> (c < ENEMY_COLS)%nat ->
      exists e,
        enemies s !! (r * ENEMY_COLS + c)%nat = Some e
        /\ row e = r
        /\ isSuperAlien e = Nat.eqb c (initialSuperColumn rnd r)
        /\ x (obj e)
           == dim_width sizes / 2 - 125
              + inject_Z (Z.of_nat c) * ENEMY_SPACING
        /\ y (obj e) == dim_height sizes / 10 - inject_Z (Z.of_nat r) * 50
        /\ isAlive e = true /\ active (obj e) = true
        /\ body (obj e) = Some (mkBody true 0 0 0 false))
  /\ (forall r, (r < ENEMY_ROWS)%nat ->
                (initialSuperColumn rnd r < ENEMY_COLS)%nat)
  /\ (forall r, r ∈ rowsCanShoot s <-> (r < ENEMY_ROWS)%nat)
  /\ nextRowIndex s = ENEMY_ROWS
  /\ enemyShootTimer s = t0 - ENEMY_SHOOT_INTERVAL + 1000.
Proof.
  intros Hu s.
  split; [reflexivity|]. split; [|split; [|split; [|split]]].
  - intros r c Hr Hc. unfold ENEMY_ROWS, ENEMY_COLS in Hr, Hc.
    subst s. rewrite initial_enemies_rows.
    assert (Hcase : (r = 0 \/ r = 1 \/ r = 2 \/ r = 3 \/ r = 4)%nat) by lia.
    assert (Hcol : (c = 0 \/ c = 1 \/ c = 2 \/ c = 3 \/ c = 4 \/ c = 5)%nat)
      by lia.
    destruct Hcase as [->|[->|[->|[->| ->]]]];
      destruct Hcol as [->|[->|[->|[->|[->| ->]]]]];
      (eexists; split; [reflexivity|];
       split; [reflexivity|];
       split; [cbn [isSuperAlien newEnemy includes existsb];
               apply orb_false_r|];
       split; [cbn [x obj newEnemy newImage]; unfold ENEMY_COLS,
                 ENEMY_SPACING; cbn [Nat.sub Z.of_nat]; field|];
       split; [cbn [y obj newEnemy newImage]; field|];
       repeat split).
  - intros r _. apply initialSuperColumn_lt, Hu.
  - intros r. subst s.
    assert (H : rowsCanShoot (initial sizes tex t0 rnd)
                = {[4%nat]} ∪ ({[3%nat]} ∪ ({[2%nat]} ∪ ({[1%nat]}
                    ∪ ({[0%nat]} ∪ ∅))))) by reflexivity.
    rewrite H. rewrite !elem_of_union, !elem_of_singleton, elem_of_empty.
    unfold ENEMY_ROWS. lia.
  - reflexivity.
  - reflexivity.
Qed.

Lemma initial_formation_witness :
  (forall r : nat, inUnit ((fun _ => 1 # 2) r))
  /\ length (enemies demoStart) = 30%nat.
Proof.
  assert (H : forall r : nat, inUnit ((fun _ => 1 # 2) r))
    by (intros r; split; vm_compute; [discriminate|reflexivity]).
  split; [exact H|].
  exact (proj1 (initial_formation demoSizes demoTextures 0 (fun _ => 1 # 2)
                  H)).
Defined.

(** ** Power-ups *)

(** X14.  Where a power-up appears.  When none is active on the field,
    [spawnPowerUp] creates one: a box of 20 by 20 pixels at rest, level with
    the player, at a whole number of pixels x with
    20 <= x < width - 19; so for a window width that is a whole number of
    pixels it lies between 20 and width - 20. *)
Theorem spawnPowerUp_place (sizes : Dimensions) (rnd : Random) (s : Game) :
  inUnit (powerUpPlace rnd) -> 39 < dim_width sizes ->
  (forall p, powerUp s = Some p -> active p = false) ->
  let s' := spawnPowerUp sizes rnd s in
  exists p,
    powerUp s' = Some p
    /\ active p = true
    /\ (exists z, x p = inject_Z z)
    /\ POWERUP_SIZE <= x p
    /\ x p < dim_width sizes - POWERUP_SIZE + 1
    /\ ((exists w, dim_width sizes == inject_Z w) ->
        x p <= dim_width sizes - POWERUP_SIZE)
    /\ y p = y (player s)
    /\ width p = POWERUP_SIZE /\ height p = POWERUP_SIZE
    /\ body p = bulletBody 0
    /\ s' = set_nextId (S (nextId s)) (set_powerUp (Some p) s).
Proof.
  intros [Hr0 Hr1] Hw Hfree s'.
  set (X := powerUpPlace rnd
            * (dim_width sizes - POWERUP_SIZE - POWERUP_SIZE + 1)
            + POWERUP_SIZE).
  assert (Hlo : POWERUP_SIZE <= X) by (unfold X, POWERUP_SIZE in *; nra).
  assert (Hhi : X < dim_width sizes - POWERUP_SIZE + 1)
    by (unfold X, POWERUP_SIZE in *; nra).
  assert (Hflo : POWERUP_SIZE <= inject_Z (Qfloor X)).
  { change POWERUP_SIZE with (inject_Z (Qfloor 20)).
    rewrite <- Zle_Qle. apply Qfloor_resp_le. exact Hlo. }
  assert (Hfhi : inject_Z (Qfloor X) < dim_width sizes - POWERUP_SIZE + 1).
  { pose proof (Qfloor_le X). lra. }
  exists (newRectangle (nextId s) (inject_Z (Qfloor X)) (y (player s))
            POWERUP_SIZE POWERUP_SIZE 0).
  split.
  { subst s'. unfold spawnPowerUp.
    destruct (powerUp s) as [p|] eqn:Hp; [|reflexivity].
    rewrite (Hfree p eq_refl). reflexivity. }
  split; [reflexivity|]. split; [eexists; reflexivity|].
  split; [exact Hflo|]. split; [exact Hfhi|].
  split.
  { intros [w Hwz]. cbn [x newRectangle]. rewrite Hwz in Hfhi |- *.
    unfold POWERUP_SIZE in *.
    assert (Hz : (Qfloor X < w - 19)%Z).
    { rewrite Zlt_Qlt. unfold Z.sub. rewrite inject_Z_plus, inject_Z_opp.
      change (inject_Z 19) with 19. lra. }
    assert (Hz' : (Qfloor X <= w - 20)%Z) by lia.
    rewrite Zle_Qle in Hz'. unfold Z.sub in Hz'.
    rewrite inject_Z_plus, inject_Z_opp in Hz'.
    change (inject_Z 20) with 20 in Hz'. lra. }
  repeat split.
  subst s'. unfold spawnPowerUp.
  destruct (powerUp s) as [p|] eqn:Hp; [|reflexivity].
  rewrite (Hfree p eq_refl). reflexivity.
Qed.

Lemma spawnPowerUp_place_witness :
  inUnit (powerUpPlace (constRandom (1 # 2)))
  /\ 39 < dim_width narrowSizes
  /\ (forall p, powerUp narrowStart = Some p -> active p = false)
  /\ exists p,
       powerUp (spawnPowerUp narrowSizes (constRandom (1 # 2)) narrowStart)
       = Some p
       /\ active p = true.
Proof.
  assert (Hu : inUnit (powerUpPlace (constRandom (1 # 2))))
    by (split; vm_compute; [discriminate | reflexivity]).
  assert (Hw : 39 < dim_width narrowSizes) by (vm_compute; reflexivity).
  assert (Hf : forall p, powerUp narrowStart = Some p -> active p = false)
    by (intros p Hp; vm_compute in Hp; discriminate).
  split; [exact Hu|]. split; [exact Hw|]. split; [exact Hf|].
  destruct (spawnPowerUp_place narrowSizes (constRandom (1 # 2)) narrowStart
              Hu Hw Hf) as (p & Hp & Ha & _).
  exists p. split; assumption.
Defined.

(** X15.  A power-up is collected once: with no power-up on the field, or
    with one that has been destroyed, the overlap callback changes nothing;
    and since collecting takes the power-up off the field, a second report
    of the overlap changes nothing either. *)
Theorem collectPowerUp_once (sizes : Dimensions) (tex : Textures) (s : Game) :
  let s1 := step sizes tex OverlapPlayerPowerUp s in
  collectPowerUp None s = s
  /\ (forall p, active p = false -> collectPowerUp (Some p) s = s)
  /\ (forall p, active p = true ->
      powerUp (collectPowerUp (Some p) s) = None)
  /\ step sizes tex OverlapPlayerPowerUp s1 = s1.
Proof.
  intros s1. subst s1.
  split; [reflexivity|].
  split; [intros p Hp; unfold collectPowerUp; rewrite Hp; reflexivity|].
  split; [intros p Hp; unfold collectPowerUp; rewrite Hp; reflexivity|].
  assert (Hstep : forall y, step sizes tex OverlapPlayerPowerUp y
                            = if physicsPaused y then y
                              else collectPowerUp (powerUp y) y)
    by reflexivity.
  rewrite (Hstep s).
  destruct (physicsPaused s) eqn:Hp; [rewrite Hstep, Hp; reflexivity|].
  destruct (powerUp s) as [p|] eqn:Hpu;
    [|cbn [collectPowerUp]; rewrite Hstep, Hp, Hpu; reflexivity].
  destruct (active p) eqn:Ha;
    [|unfold collectPowerUp; rewrite Ha; cbn [negb];
      rewrite Hstep, Hp, Hpu; unfold collectPowerUp; rewrite Ha;
      reflexivity].
  assert (H1 : physicsPaused (collectPowerUp (Some p) s) = false)
    by (unfold collectPowerUp; rewrite Ha; exact Hp).
  assert (H2 : powerUp (collectPowerUp (Some p) s) = None)
    by (unfold collectPowerUp; rewrite Ha; reflexivity).
  rewrite Hstep, H1, H2. reflexivity.
Qed.

(** ** The start click *)

(** X16.  The start click, while the start screen is shown: the session is
    running; every alive enemy with a body moves at the formation velocity
    (direction times speed horizontally, zero vertically) from where it
    stands; the player's shoot timer starts at the click, and the volley
    timer is put 4000 ms before it, so that the interval of a volley has
    passed from 1000 ms after the click on.  A second click changes
    nothing. *)
Theorem start_click (sizes : Dimensions) (tex : Textures) (s : Game) :
  gameStartDivShown s = true -> gameEndDivShown s = false ->
  let s' := step sizes tex StartClick s in
  let v := inject_Z (enemyDirection s) * enemySpeed s in
  running s'
  /\ Forall2
       (fun e e' =>
          x (obj e') = x (obj e) /\ y (obj e') = y (obj e)
          /\ row e' = row e /\ isAlive e' = isAlive e
          /\ isSuperAlien e' = isSuperAlien e
          /\ (isAlive e = true -> body (obj e) <> None ->
              exists b, body (obj e') = Some b /\ enable b = true
                        /\ velocityX b = v /\ velocityY b = 0))
       (enemies s) (enemies s')
  /\ playerShootTimer s' = now s
  /\ (forall t, volleyDue t s' = true <-> now s + 1000 <= t)
  /\ step sizes tex StartClick s' = s'.
Proof.
  intros Hs He s' v. subst s'. simpl. rewrite Hs.
  unfold startGame. scene_cbn.
  split; [unfold running; scene_cbn; auto|].
  split.
  { apply Forall2_map_r. intros e _.
    unfold startEnemy. fold v.
    destruct (isAlive e) eqn:Ha, (body (obj e)) as [b|] eqn:Hb;
      cbn [obj set_obj x y body set_body row isAlive isSuperAlien];
      repeat split; try congruence.
    eexists. repeat split. }
  split; [reflexivity|].
  split; [|reflexivity].
  intros t. unfold volleyDue, Qgeb. scene_cbn. rewrite Qle_bool_iff.
  unfold ENEMY_SHOOT_INTERVAL. split; intros; lra.
Qed.

Lemma start_click_witness :
  gameStartDivShown demoStart = true
  /\ gameEndDivShown demoStart = false
  /\ running (step demoSizes demoTextures StartClick demoStart).
Proof.
  assert (Hs : gameStartDivShown demoStart = true) by reflexivity.
  assert (He : gameEndDivShown demoStart = false) by reflexivity.
  split; [exact Hs|]. split; [exact He|].
  exact (proj1 (start_click demoSizes demoTextures demoStart Hs He)).
Defined.

(** ** The score *)




(** ** The hit flag *)

Lemma release_due t T l :
  (T, ReleasePlayerHit) ∈ l -> T <= t ->
  existsb isPlayerHitRelease (filter (fun tc => isDue t tc = true) l) = true.
Proof.
  intros Hin Hle. apply existsb_exists. exists (T, ReleasePlayerHit).
  split; [|reflexivity].
  apply list_elem_of_In, list_elem_of_filter. split; [|exact Hin].
  unfold isDue. apply Qle_bool_iff. exact Hle.
Qed.

Lemma step_releasePending sizes tex ev s :
  (playerHitProcessing s = true -> exists T, releasePending T s) ->
  playerHitProcessing (step sizes tex ev s) = true ->
  exists T, releasePending T (step sizes tex ev s).
Proof.
  unfold releasePending. intros IH.
  destruct ev as [t|dt|bid eid|bid| |inp rnd|]; simpl.
  - rewrite clockUpdate_flag, clockUpdate_timers.
    destruct (existsb _ _) eqn:Hex; [discriminate|]. intros Hf.
    destruct (IH Hf) as [T HT]. exists T.
    apply list_elem_of_filter. split; [|exact HT].
    destruct (isDue t (T, ReleasePlayerHit)) eqn:Hd; [|reflexivity].
    exfalso. apply not_true_iff_false in Hex. apply Hex.
    apply (release_due t T); [exact HT|].
    unfold isDue in Hd. apply Qle_bool_iff in Hd. exact Hd.
  - destruct (physicsPaused s); [exact IH|].
    frw (worldStep_frame dt s). exact IH.
  - destruct (physicsPaused s); [exact IH|]. repeat case_match; try exact IH.
    frw (hitEnemy_frame g e s). exact IH.
  - destruct (physicsPaused s); [exact IH|]. case_match; [|exact IH].
    destruct (hitPlayer_cases g s) as [->|(Hf & Ha & Hl)]; [exact IH|].
    destruct (hitPlayer_timers g s Hf Ha Hl) as (-> & _). intros _.
    eexists. apply elem_of_app. right. left.
  - destruct (physicsPaused s); [exact IH|].
    frw (collectPowerUp_frame (powerUp s) s). exact IH.
  - frw (update_frame sizes tex inp rnd s). intros Hf.
    destruct (IH Hf) as [T HT]. exists T.
    destruct (update_timers sizes tex inp rnd s) as [->|[d ->]];
      [exact HT|apply elem_of_app; left; exact HT].
  - destruct (gameStartDivShown s); [|exact IH].
    frw (startGame_frame s). exact IH.
Qed.

(** X18.  The player does not stay invulnerable: in every reachable scene
    in which the hit flag [playerHitProcessing] is set, its release is
    pending as a delayed call, and the first clock update at or after the
    time of the release clears the flag. *)
Theorem hit_flag_released (sizes : Dimensions) (tex : Textures) (s : Game) :
  reachable sizes tex s -> playerHitProcessing s = true ->
  exists T,
    releasePending T s
    /\ forall t, T <= t -> playerHitProcessing (clockUpdate t s) = false.
Proof.
  intros Hr Hf.
  assert (H : playerHitProcessing s = true -> exists T, releasePending T s).
  { clear Hf. induction Hr as [t0 rnd|ev s _ IH].
    - destruct (initial_fields sizes tex t0 rnd) as (_ & _ & _ & _ & _ & -> & _).
      discriminate.
    - apply step_releasePending. exact IH. }
  destruct (H Hf) as [T HT]. exists T. split; [exact HT|].
  intros t Ht. rewrite clockUpdate_flag.
  rewrite (release_due t T (timers s) HT Ht). reflexivity.
Qed.

Lemma hit_flag_released_witness :
  reachable demoSizes demoTextures sceneHit
  /\ playerHitProcessing sceneHit = true
  /\ exists T, releasePending T sceneHit.
Proof.
  assert (Hr : reachable demoSizes demoTextures sceneHit).
  { unfold sceneHit, sceneUnderFire.
    apply reachable_step, reachable_run, reachable_initial. }
  assert (Hf : playerHitProcessing sceneHit = true)
    by (vm_compute; reflexivity).
  split; [exact Hr|]. split; [exact Hf|].
  destruct (hit_flag_released demoSizes demoTextures sceneHit Hr Hf)
    as (T & HT & _).
  exists T. exact HT.
Defined.

(** * The first version of the game *)

(** X19.  The formation of the first version: 5 rows of 10 enemies, row by
    row and column by column in the array; the enemy of row [r] and column
    [c] stands at x = width/2 - 300 + 60 c and y = 100 + 50 r, alive and at
    rest; the super aliens are the enemies of the columns 0 and 5 of every
    row (every fifth enemy), 10 of the 50; and the rows 0 to 4 can shoot. *)
Theorem legacy_formation (sizes : Dimensions) (tex : Textures) (s : Game) :
  let s' := LegacyScene.createEnemies sizes tex s in
  length (enemies s') = 50%nat
  /\ (forall r c, (r < 5)%nat -> (c < 10)%nat ->
      exists e,
        enemies s' !! (r * 10 + c)%nat = Some e
        /\ row e = r
        /\ isSuperAlien e = Nat.eqb c 0 || Nat.eqb c 5
        /\ x (obj e) == dim_width sizes / 2 - 300 + inject_Z (Z.of_nat c) * 60
        /\ y (obj e) == 100 + inject_Z (Z.of_nat r) * 50
        /\ isAlive e = true /\ active (obj e) = true
        /\ body (obj e) = Some (mkBody true 0 0 0 false))
  /\ length (filter (fun e => isSuperAlien e = true) (enemies s')) = 10%nat
  /\ (forall r, r ∈ rowsCanShoot s' <-> (r < 5)%nat \/ r ∈ rowsCanShoot s)
  /\ enemyShootTimer s' = now s - ENEMY_SHOOT_INTERVAL + 1000.
Proof.
  intros s'. subst s'.
  split; [reflexivity|]. split; [|split; [|split]].
  - intros r c Hr Hc.
    assert (Hcase : (r = 0 \/ r = 1 \/ r = 2 \/ r = 3 \/ r = 4)%nat) by lia.
    assert (Hcol : (c = 0 \/ c = 1 \/ c = 2 \/ c = 3 \/ c = 4 \/ c = 5
                    \/ c = 6 \/ c = 7 \/ c = 8 \/ c = 9)%nat) by lia.
    destruct Hcase as [->|[->|[->|[->| ->]]]];
      destruct Hcol as [->|[->|[->|[->|[->|[->|[->|[->|[->| ->]]]]]]]]];
      (eexists; split; [reflexivity|];
       split; [reflexivity|];
       split; [reflexivity|];
       split; [cbn [x obj LegacyScene.newEnemy LegacyScene.newImage];
               unfold LegacyScene.ENEMY_COLS, LegacyScene.ENEMY_SPACING;
               cbn [Z.of_nat]; field|];
       split; [cbn [y obj LegacyScene.newEnemy LegacyScene.newImage];
               field|];
       repeat split).
  - reflexivity.
  - intros r.
    assert (H : rowsCanShoot (LegacyScene.createEnemies sizes tex s)
                = {[4%nat]} ∪ ({[3%nat]} ∪ ({[2%nat]} ∪ ({[1%nat]}
                    ∪ ({[0%nat]} ∪ rowsCanShoot s))))) by reflexivity.
    rewrite H. rewrite !elem_of_union, !elem_of_singleton.
    split; [intros [?|[?|[?|[?|[?|?]]]]]; auto; left; lia|].
    intros [Hr|Hr]; [|tauto].
    assert (Hcase : (r = 0 \/ r = 1 \/ r = 2 \/ r = 3 \/ r = 4)%nat) by lia.
    tauto.
  - reflexivity.
Qed.

(** X20.  How a game of the first version ends.  [checkGameOver] leaves
    the game active exactly when it was active, some enemy of the array is
    alive, and every alive enemy is above the line 100 pixels over the lower
    edge of the window: the game is over when an alive enemy reaches that
    line and also when no alive enemy is left; in particular with an empty
    array.  Ending the game pauses the physics and shows the end screen. *)
Theorem legacy_checkGameOver (sizes : Dimensions) (s : Game) :
  let s' := LegacyScene.checkGameOver sizes s in
  (gameActive s' = true
   <-> gameActive s = true
       /\ (exists e, e ∈ enemies s /\ isAlive e = true)
       /\ (forall e, e ∈ enemies s -> isAlive e = true ->
                     y (obj e) < dim_height sizes - 100))
  /\ (s' = s \/ s' = gameOver s)
  /\ (enemies s = [] -> s' = gameOver s)
  /\ (s' = gameOver s ->
      gameActive s' = false /\ physicsPaused s' = true
      /\ gameEndDivShown s' = true /\ score s' = score s).
Proof.
  intros s'. subst s'. unfold LegacyScene.checkGameOver.
  assert (Hline : existsb (LegacyScene.reachedLine sizes) (enemies s) = false
                  <-> forall e, e ∈ enemies s -> isAlive e = true ->
                                y (obj e) < dim_height sizes - 100).
  { rewrite <- not_true_iff_false, existsb_exists. split.
    - intros Hno e He Ha. apply Qnot_le_lt. intros Hge. apply Hno.
      exists e. split; [apply list_elem_of_In; exact He|].
      unfold LegacyScene.reachedLine, Qgeb. rewrite Ha.
      apply Qle_bool_iff. exact Hge.
    - intros Hall (e & He & Hq). apply list_elem_of_In in He.
      unfold LegacyScene.reachedLine, Qgeb in Hq.
      apply andb_true_iff in Hq as [Ha Hq]. apply Qle_bool_iff in Hq.
      specialize (Hall e He Ha). lra. }
  assert (Halive : filter (fun e => isAlive e = true) (enemies s) <> []
                   <-> exists e, e ∈ enemies s /\ isAlive e = true).
  { split.
    - destruct (filter _ _) as [|e l] eqn:Hf; [congruence|]. intros _.
      assert (Hin : e ∈ filter (fun e => isAlive e = true) (enemies s))
        by (rewrite Hf; left).
      apply list_elem_of_filter in Hin as [Ha Hin]. eauto.
    - intros (e & He & Ha) Hf.
      assert (Hin : e ∈ filter (fun e => isAlive e = true) (enemies s))
        by (apply list_elem_of_filter; auto).
      rewrite Hf in Hin. inversion Hin. }
  split; [|split; [|split]].
  - destruct (existsb _ _) eqn:Hex.
    + cbn [gameActive gameOver set_gameEndDivShown set_physicsPaused
           set_gameActive].
      split; [discriminate|]. intros (_ & _ & Hall).
      apply Hline in Hall. congruence.
    + destruct (filter _ _) as [|e l] eqn:Hf.
      * cbn [gameActive gameOver set_gameEndDivShown set_physicsPaused
             set_gameActive].
        split; [discriminate|]. intros (_ & Hex' & _).
        apply Halive in Hex'. congruence.
      * split.
        -- intros Ha. split; [exact Ha|]. split.
           ++ apply Halive. discriminate.
           ++ apply Hline. reflexivity.
        -- tauto.
  - destruct (existsb _ _); [auto|]. destruct (filter _ _); auto.
  - intros ->. reflexivity.
  - intros ->. repeat split.
Qed.


(** X22.  The bullet caps of the first version: a shot of the player is
    added only below 3 bullets in flight and a shot of an enemy only below
    29 (the first bullet of a super alien below 28), so neither
    [handlePlayerShooting] nor [handleEnemyShooting] takes the player bullets
    above 3 or the enemy bullets above 29; each adds at most one player
    bullet and two enemy bullets. *)
Theorem legacy_bullet_caps (groupDefaults : Body -> Body) (rnd : Random)
    (s : Game) :
  let s1 := LegacyScene.handlePlayerShooting groupDefaults s in
  let s2 := LegacyScene.handleEnemyShooting groupDefaults rnd s in
  (length (playerBullets s) <= length (playerBullets s1)
   <= Nat.max (length (playerBullets s)) 3)%nat
  /\ (length (playerBullets s1) <= length (playerBullets s) + 1)%nat
  /\ enemyBullets s1 = enemyBullets s
  /\ (length (enemyBullets s) <= length (enemyBullets s2)
      <= Nat.max (length (enemyBullets s)) 29)%nat
  /\ (length (enemyBullets s2) <= length (enemyBullets s) + 2)%nat
  /\ playerBullets s2 = playerBullets s.
Proof.
  intros s1 s2.
  assert (H1 : (length (playerBullets s) <= length (playerBullets s1)
                <= Nat.max (length (playerBullets s)) 3)%nat
               /\ (length (playerBullets s1)
                   <= length (playerBullets s) + 1)%nat
               /\ enemyBullets s1 = enemyBullets s).
  { subst s1. unfold LegacyScene.handlePlayerShooting.
    destruct (Qeq_bool (playerShootTimer s) 0); scene_cbn;
      (destruct (Qgeb _ _); scene_cbn;
       [|repeat split; try reflexivity; lia]);
      (destruct (Nat.ltb_spec (length (playerBullets s)) 3); scene_cbn;
       rewrite ?length_app; cbn [length];
       repeat split; try reflexivity; lia). }
  assert (Hshot : forall e y,
             (length (enemyBullets y)
              <= length (enemyBullets
                           (LegacyScene.shootFromEnemy groupDefaults e y))
              <= Nat.max (length (enemyBullets y)) 29)%nat
             /\ (length (enemyBullets
                           (LegacyScene.shootFromEnemy groupDefaults e y))
                 <= length (enemyBullets y) + 2)%nat
             /\ playerBullets (LegacyScene.shootFromEnemy groupDefaults e y)
                = playerBullets y).
  { intros e y. unfold LegacyScene.shootFromEnemy, LegacyScene.addEnemyBullet.
    destruct (isSuperAlien e).
    - destruct (Nat.ltb_spec (length (enemyBullets y)) 28); scene_cbn;
        rewrite ?length_app; cbn [length].
      + destruct (Nat.ltb_spec (length (enemyBullets y) + 1) 29); [|lia].
        scene_cbn. rewrite !length_app. cbn [length].
        repeat split; try reflexivity; lia.
      + destruct (Nat.ltb_spec (length (enemyBullets y)) 29); scene_cbn;
          rewrite ?length_app; cbn [length];
          repeat split; try reflexivity; lia.
    - destruct (Nat.ltb_spec (length (enemyBullets y)) 29); scene_cbn;
        rewrite ?length_app; cbn [length];
        repeat split; try reflexivity; lia. }
  assert (Hprep : forall y, enemyBullets (LegacyScene.prepareVolley y)
                            = enemyBullets y
                            /\ playerBullets (LegacyScene.prepareVolley y)
                               = playerBullets y).
  { intros y. unfold LegacyScene.prepareVolley, LegacyScene.volleyReset,
      initShootTimer.
    repeat case_match; scene_cbn; auto. }
  destruct H1 as (Ha & Hb & Hc).
  split; [exact Ha|]. split; [exact Hb|]. split; [exact Hc|].
  subst s2. unfold LegacyScene.handleEnemyShooting.
  destruct (enemies s); [repeat split; lia|].
  destruct (Hprep s) as [He Hp]. cbv zeta.
  destruct (rowShooting (LegacyScene.prepareVolley s));
    [rewrite He, Hp; repeat split; lia|].
  destruct (getRandom _ _) as [enemy|];
    [|rewrite He, Hp; repeat split; lia].
  unfold LegacyScene.fireFrom, delayedCall. scene_cbn.
  match goal with
  | |- context [LegacyScene.shootFromEnemy groupDefaults enemy ?X] =>
      destruct (Hshot enemy X) as (H2 & H3 & H4);
      change (enemyBullets X) with (enemyBullets (LegacyScene.prepareVolley s))
        in H2, H3;
      change (playerBullets X)
        with (playerBullets (LegacyScene.prepareVolley s)) in H4
  end.
  rewrite He in H2, H3. rewrite Hp in H4. auto.
Qed.




Lemma runCallbacks_rowShooting (l : list (Q * Callback)) s :
  rowShooting (fold_left (fun acc tc => runCallback (snd tc) acc) l s)
  = if existsb isRowRelease l then None else rowShooting s.
Proof.
  revert s. induction l as [|[d c] l IH]; intros s; simpl; [reflexivity|].
  rewrite IH. unfold isRowRelease at 2. simpl.
  destruct c; simpl; [|reflexivity].
  destruct (existsb isRowRelease l); reflexivity.
Qed.

Lemma clockUpdate_rowShooting t s :
  rowShooting (clockUpdate t s)
  = if existsb isRowRelease
         (filter (fun tc => isDue t tc = true) (timers s))
    then None else rowShooting s.
Proof. unfold clockUpdate. rewrite runCallbacks_rowShooting. reflexivity. Qed.

Lemma legacy_shootFromEnemy_fields groupDefaults e s :
  rowsCanShoot (LegacyScene.shootFromEnemy groupDefaults e s)
  = rowsCanShoot s ∖ {[row e]}
  /\ rowShooting (LegacyScene.shootFromEnemy groupDefaults e s)
     = rowShooting s
  /\ timers (LegacyScene.shootFromEnemy groupDefaults e s) = timers s
  /\ now (LegacyScene.shootFromEnemy groupDefaults e s) = now s.
Proof.
  unfold LegacyScene.shootFromEnemy, LegacyScene.addEnemyBullet.
  repeat case_match; scene_cbn; auto.
Qed.

Lemma legacy_prepareVolley_fields s :
  timers (LegacyScene.prepareVolley s) = timers s
  /\ now (LegacyScene.prepareVolley s) = now s
  /\ enemies (LegacyScene.prepareVolley s) = enemies s.
Proof.
  unfold LegacyScene.prepareVolley, LegacyScene.volleyReset, initShootTimer.
  repeat case_match; scene_cbn; auto.
Qed.

(** X24.  Enemy fire in the first version: when no row holds the shooting
    lock after the volley timer has been handled and some alive enemy is in
    a row that can shoot, [handleEnemyShooting] makes exactly one enemy fire,
    picked at random among all those enemies; its row takes the lock and
    loses its eligibility, and the release of the lock is scheduled 100 ms
    ahead: a clock update to that time or later frees the lock. *)
Theorem legacy_one_enemy_fires (groupDefaults : Body -> Body) (rnd : Random)
    (s : Game) (e0 : Enemy) :
  inUnit (shootPick rnd) ->
  rowShooting (LegacyScene.prepareVolley s) = None ->
  e0 ∈ enemies s -> isAlive e0 = true ->
  row e0 ∈ rowsCanShoot (LegacyScene.prepareVolley s) ->
  let s1 := LegacyScene.prepareVolley s in
  let s' := LegacyScene.handleEnemyShooting groupDefaults rnd s in
  exists enemy,
    enemy ∈ enemies s /\ isAlive enemy = true
    /\ row enemy ∈ rowsCanShoot s1
    /\ s' = LegacyScene.fireFrom groupDefaults enemy s1
    /\ rowShooting s' = Some (row enemy)
    /\ rowsCanShoot s' = rowsCanShoot s1 ∖ {[row enemy]}
    /\ timers s' = timers s ++ [(now s + 100, ReleaseRowShooting)]
    /\ forall t, now s + 100 <= t -> rowShooting (clockUpdate t s') = None.
Proof.
  intros Hu Hlock He0 Ha0 Hr0 s1 s'.
  destruct (legacy_prepareVolley_fields s) as (Ht & Hn & Hes).
  assert (Hready : e0 ∈ LegacyScene.enemiesReadyToShoot s1).
  { unfold LegacyScene.enemiesReadyToShoot. apply list_elem_of_filter.
    subst s1. rewrite Hes. split; [|exact He0].
    unfold LegacyScene.canShoot. rewrite Ha0.
    rewrite (bool_decide_eq_true_2 _ Hr0). reflexivity. }
  destruct (getRandom_Some (shootPick rnd)
              (LegacyScene.enemiesReadyToShoot s1) Hu)
    as (enemy & Hpick & Hin).
  { intros Hnil. rewrite Hnil in Hready. inversion Hready. }
  exists enemy.
  apply list_elem_of_filter in Hin as [Hcan Hin].
  unfold LegacyScene.canShoot in Hcan. apply andb_true_iff in Hcan as [Ha Hr].
  apply bool_decide_eq_true_1 in Hr.
  subst s1. rewrite Hes in Hin.
  split; [exact Hin|]. split; [exact Ha|]. split; [exact Hr|].
  assert (Hs' : s' = LegacyScene.fireFrom groupDefaults enemy
                       (LegacyScene.prepareVolley s)).
  { subst s'. unfold LegacyScene.handleEnemyShooting.
    destruct (enemies s); [inversion Hin|].
    cbv zeta. rewrite Hlock, Hpick. reflexivity. }
  split; [exact Hs'|].
  assert (Hfire : forall y,
             rowShooting (LegacyScene.fireFrom groupDefaults enemy y)
             = Some (row enemy)
             /\ rowsCanShoot (LegacyScene.fireFrom groupDefaults enemy y)
                = rowsCanShoot y ∖ {[row enemy]}
             /\ timers (LegacyScene.fireFrom groupDefaults enemy y)
                = timers y ++ [(now y + 100, ReleaseRowShooting)]).
  { intros y. unfold LegacyScene.fireFrom, delayedCall. scene_cbn.
    destruct (legacy_shootFromEnemy_fields groupDefaults enemy
                (set_rowShooting (Some (row enemy)) y))
      as (-> & -> & -> & ->).
    scene_cbn. auto. }
  destruct (Hfire (LegacyScene.prepareVolley s)) as (H1 & H2 & H3).
  rewrite Ht, Hn in H3. rewrite Hs'.
  split; [exact H1|]. split; [exact H2|]. split; [exact H3|].
  intros t Hle. rewrite clockUpdate_rowShooting, H3.
  replace (existsb _ _) with true; [reflexivity|].
  symmetry. apply existsb_exists. exists (now s + 100, ReleaseRowShooting).
  split; [|reflexivity].
  apply list_elem_of_In, list_elem_of_filter.
  split; [unfold isDue; apply Qle_bool_iff; exact Hle|].
  apply elem_of_app. right. left.
Qed.

Lemma legacy_one_enemy_fires_witness :
  inUnit (shootPick (constRandom (1 # 2)))
  /\ rowShooting (LegacyScene.prepareVolley legacySceneReady) = None
  /\ firstEnemy legacySceneReady ∈ enemies legacySceneReady
  /\ isAlive (firstEnemy legacySceneReady) = true
  /\ row (firstEnemy legacySceneReady)
     ∈ rowsCanShoot (LegacyScene.prepareVolley legacySceneReady)
  /\ exists enemy,
       rowShooting
         (LegacyScene.handleEnemyShooting (fun b => b) (constRandom (1 # 2))
            legacySceneReady)
       = Some (row enemy).
Proof.
  assert (Hu : inUnit (shootPick (constRandom (1 # 2))))
    by (split; vm_compute; [discriminate | reflexivity]).
  assert (Hl : rowShooting (LegacyScene.prepareVolley legacySceneReady) = None)
    by (vm_compute; reflexivity).
  assert (Hin : firstEnemy legacySceneReady ∈ enemies legacySceneReady)
    by (vm_compute; left).
  assert (Ha : isAlive (firstEnemy legacySceneReady) = true)
    by (vm_compute; reflexivity).
  assert (Hr : row (firstEnemy legacySceneReady)
               ∈ rowsCanShoot (LegacyScene.prepareVolley legacySceneReady)).
  { assert (Hb : bool_decide
                   (row (firstEnemy legacySceneReady)
                    ∈ rowsCanShoot (LegacyScene.prepareVolley legacySceneReady))
                 = true) by (vm_compute; reflexivity).
    exact (bool_decide_eq_true_1 _ Hb). }
  split; [exact Hu|]. split; [exact Hl|]. split; [exact Hin|].
  split; [exact Ha|]. split; [exact Hr|].
  destruct (legacy_one_enemy_fires (fun b => b) (constRandom (1 # 2))
              legacySceneReady (firstEnemy legacySceneReady)
              Hu Hl Hin Ha Hr) as (enemy & _ & _ & _ & _ & H & _).
  exists enemy. exact H.
Defined.

(** * Invariants of a session *)

(** X25.  [checkGameOver] leaves the game active exactly when it was active
    and the lower edge of every alive, active enemy is above the line 10
    pixels over the player's lower edge; it then changes nothing.
    Otherwise it ends the game: the physics are paused and the end screen
    is shown, the lives and the score staying as they are. *)
Theorem checkGameOver_line (s : Game) :
  let s' := checkGameOver s in
  (gameActive s' = true
   <-> gameActive s = true
       /\ forall e, e ∈ enemies s -> isAlive e = true ->
            active (obj e) = true ->
            y (obj e) + (height (obj e) * scaleY (obj e)) / 2
            < gameOverThreshold s)
  /\ (s' = s \/ s' = gameOver s)
  /\ (s' = gameOver s ->
      gameActive s' = false /\ physicsPaused s' = true
      /\ gameEndDivShown s' = true
      /\ lives s' = lives s /\ score s' = score s
      /\ enemies s' = enemies s).
Proof.
  intros s'. subst s'. unfold checkGameOver. fold (gameOverThreshold s).
  assert (Hline : existsb (reachedPlayer (gameOverThreshold s)) (enemies s)
                  = false
                  <-> forall e, e ∈ enemies s -> isAlive e = true ->
                        active (obj e) = true ->
                        y (obj e) + (height (obj e) * scaleY (obj e)) / 2
                        < gameOverThreshold s).
  { rewrite <- not_true_iff_false, existsb_exists. split.
    - intros Hno e He Ha Hact. apply Qnot_le_lt. intros Hge. apply Hno.
      exists e. split; [apply list_elem_of_In; exact He|].
      unfold reachedPlayer, Qgeb. rewrite Ha, Hact.
      apply Qle_bool_iff. exact Hge.
    - intros Hall (e & He & Hq). apply list_elem_of_In in He.
      unfold reachedPlayer, Qgeb in Hq.
      apply andb_true_iff in Hq as [Hq Hge].
      apply andb_true_iff in Hq as [Ha Hact].
      apply Qle_bool_iff in Hge.
      specialize (Hall e He Ha Hact). lra. }
  split; [|split].
  - destruct (existsb _ _) eqn:Hex.
    + cbn [gameActive gameOver set_gameEndDivShown set_physicsPaused
           set_gameActive].
      split; [discriminate|]. intros [_ Hall].
      apply Hline in Hall. congruence.
    + split; [intros Ha; split; [exact Ha|apply Hline; reflexivity]|tauto].
  - destruct (existsb _ _); auto.
  - intros ->. repeat split.
Qed.

(** ** What an enemy keeps *)







(** ** What a bullet keeps *)

Lemma Forall_filter_keep {A} (P : A -> Prop) (Q0 : A -> Prop)
    `{forall a, Decision (Q0 a)} (l : list A) :
  Forall P l -> Forall P (filter Q0 l).
Proof.
  intros H0. apply Forall_forall. intros a Ha.
  apply list_elem_of_filter in Ha as [_ Ha].
  rewrite Forall_forall in H0. auto.
Qed.

Lemma bulletsOk_same s s' :
  playerBullets s' = playerBullets s -> enemyBullets s' = enemyBullets s ->
  bulletsOk s -> bulletsOk s'.
Proof. unfold bulletsOk. intros -> ->. auto. Qed.

Lemma destroyBullet_bulletsOk b s : bulletsOk s -> bulletsOk (destroyBullet b s).
Proof.
  intros [Hp He]. unfold bulletsOk, destroyBullet, withoutObject. scene_cbn.
  split; apply Forall_filter_keep; assumption.
Qed.

Lemma handlePlayerShooting_bulletsOk s :
  bulletsOk s -> bulletsOk (handlePlayerShooting s).
Proof.
  intros [Hp He]. unfold bulletsOk.
  frw (handlePlayerShooting_frame s). split; [|exact He].
  unfold handlePlayerShooting, addPlayerBullet.
  repeat case_match; scene_cbn; try exact Hp;
    repeat (apply Forall_app; split); try exact Hp;
    repeat constructor.
Qed.

Lemma shootFromEnemy_bulletsOk e s :
  bulletsOk s -> bulletsOk (shootFromEnemy e s).
Proof.
  intros [Hp He]. unfold bulletsOk, shootFromEnemy, addEnemyBullet.
  repeat case_match; scene_cbn; (split; [exact Hp|]); try exact He;
    repeat (apply Forall_app; split); try exact He;
    repeat constructor.
Qed.

Lemma handleEnemyShooting_bulletsOk rnd s :
  bulletsOk s -> bulletsOk (handleEnemyShooting rnd s).
Proof.
  intros H. unfold handleEnemyShooting. destruct (enemies s); [exact H|].
  assert (H1 : bulletsOk (prepareVolley s)).
  { apply (bulletsOk_same s); [| |exact H].
    - exact (f_equal playerBullets (prepareVolley_frame s)).
    - exact (f_equal enemyBullets (prepareVolley_frame s)). }
  revert H1. generalize (prepareVolley s) (now s). clear. intros y t Hy.
  unfold tryShoot. repeat case_match; try exact Hy.
  unfold fireFrom, delayedCall. scene_cbn.
  match goal with
  | |- bulletsOk (set_timers _ (shootFromEnemy ?e ?X)) =>
      apply (bulletsOk_same (shootFromEnemy e X)); [reflexivity..|];
      apply shootFromEnemy_bulletsOk;
      apply (bulletsOk_same y); [reflexivity..|exact Hy]
  end.
Qed.

Lemma cleanupBullets_bulletsOk sizes s :
  bulletsOk s -> bulletsOk (cleanupBullets sizes s).
Proof.
  intros [Hp He]. unfold bulletsOk, cleanupBullets. scene_cbn.
  split; apply Forall_filter_keep; assumption.
Qed.

Lemma update_bulletsOk sizes tex inp rnd s :
  bulletsOk s -> bulletsOk (update sizes tex inp rnd s).
Proof.
  intros H.
  destruct (gameActive s) eqn:Ha;
    [rewrite update_active by exact Ha
    |rewrite update_inactive by exact Ha; exact H].
  assert (F1 : forall z, bulletsOk z ->
                         bulletsOk (handlePlayerMovement sizes inp z)).
  { intros z Hz. apply (bulletsOk_same z); [| |exact Hz].
    - exact (f_equal playerBullets (handlePlayerMovement_frame sizes inp z)).
    - exact (f_equal enemyBullets (handlePlayerMovement_frame sizes inp z)). }
  assert (F3 : forall z, bulletsOk z ->
                         bulletsOk (handleEnemyMovement sizes z)).
  { intros z Hz. apply (bulletsOk_same z); [| |exact Hz].
    - exact (f_equal playerBullets (handleEnemyMovement_frame sizes z)).
    - exact (f_equal enemyBullets (handleEnemyMovement_frame sizes z)). }
  assert (F6 : forall z, bulletsOk z ->
                         bulletsOk (checkSpawnNewRow sizes tex rnd z)).
  { intros z Hz. apply (bulletsOk_same z); [| |exact Hz].
    - exact (f_equal playerBullets (checkSpawnNewRow_frame sizes tex rnd z)).
    - exact (f_equal enemyBullets (checkSpawnNewRow_frame sizes tex rnd z)). }
  assert (F7 : forall z, bulletsOk z -> bulletsOk (checkPowerUpExpiration z)).
  { intros z Hz. apply (bulletsOk_same z); [| |exact Hz].
    - exact (f_equal playerBullets (checkPowerUpExpiration_frame z)).
    - exact (f_equal enemyBullets (checkPowerUpExpiration_frame z)). }
  assert (F8 : forall z, bulletsOk z -> bulletsOk (checkGameOver z)).
  { intros z Hz. apply (bulletsOk_same z); [| |exact Hz].
    - exact (f_equal playerBullets (checkGameOver_frame z)).
    - exact (f_equal enemyBullets (checkGameOver_frame z)). }
  apply F8, F7, F6, cleanupBullets_bulletsOk, handleEnemyShooting_bulletsOk,
    F3, handlePlayerShooting_bulletsOk, F1, H.
Qed.

Lemma integrate_fliesAt vy dt b : fliesAt vy b -> fliesAt vy (integrate dt b).
Proof.
  intros [Ha Hb]. unfold fliesAt.
  destruct (integrate_fields dt b) as [-> ->]. auto.
Qed.

Lemma step_bulletsOk sizes tex ev s :
  bulletsOk s -> bulletsOk (step sizes tex ev s).
Proof.
  intros H.
  destruct ev as [t|dt|bid eid|bid| |inp rnd|]; simpl.
  - apply (bulletsOk_same s); [| |exact H].
    + exact (f_equal playerBullets (clockUpdate_frame t s)).
    + exact (f_equal enemyBullets (clockUpdate_frame t s)).
  - destruct (physicsPaused s); [exact H|]. destruct H as [Hp He].
    unfold bulletsOk, worldStep. scene_cbn.
    split; (apply Forall_map_same; [apply integrate_fliesAt|assumption]).
  - destruct (physicsPaused s); [exact H|]. repeat case_match; try exact H.
    unfold hitEnemy, updateScore. repeat case_match; try exact H.
    all: match goal with
         | |- bulletsOk ?X =>
             apply (bulletsOk_same (destroyBullet g s)); [reflexivity..|];
             apply destroyBullet_bulletsOk; exact H
         end.
  - destruct (physicsPaused s); [exact H|]. case_match; [|exact H].
    destruct (hitPlayer_cases g s) as [->|(Hf & Ha & Hl)]; [exact H|].
    rewrite (hitPlayer_processed g s Hf Ha Hl).
    unfold delayedCall, gameOver, afterHit.
    destruct (Z.leb (lives s - 1) 0);
      (apply (bulletsOk_same
                (destroyBullet g (set_playerHitProcessing true s)));
       [reflexivity..|];
       apply destroyBullet_bulletsOk;
       apply (bulletsOk_same s); [reflexivity..|exact H]).
  - destruct (physicsPaused s); [exact H|].
    apply (bulletsOk_same s); [| |exact H].
    + exact (f_equal playerBullets (collectPowerUp_frame (powerUp s) s)).
    + exact (f_equal enemyBullets (collectPowerUp_frame (powerUp s) s)).
  - apply update_bulletsOk. exact H.
  - destruct (gameStartDivShown s); [|exact H].
    apply (bulletsOk_same s); [| |exact H].
    + exact (f_equal playerBullets (startGame_frame s)).
    + exact (f_equal enemyBullets (startGame_frame s)).
Qed.

Lemma reachable_bulletsOk sizes tex s : reachable sizes tex s -> bulletsOk s.
Proof.
  induction 1 as [t0 rnd|ev s _ IH].
  - split; constructor.
  - apply step_bulletsOk. exact IH.
Qed.

Lemma integrate_straight vy dt b :
  fliesAt vy b ->
  x (integrate dt b) == x b /\ y (integrate dt b) == y b + vy * dt / 1000.
Proof.
  intros [_ Hb]. unfold integrate. rewrite Hb. unfold bulletBody.
  cbn [enable velocityX velocityY x y set_x set_y]. split; field.
Qed.

(** X27.  Bullets fly straight.  In every reachable scene each player
    bullet is active with the velocity it was created with, straight up at
    the bullet speed, and each enemy bullet straight down at the enemy bullet
    speed: nothing ever changes the velocity of a bullet.  So a physics step
    of [dt] milliseconds keeps the x of every bullet and moves a player
    bullet up by dt/2 pixels and an enemy bullet down by dt/5 pixels. *)
Theorem bullets_fly_straight (sizes : Dimensions) (tex : Textures)
    (s : Game) (dt : Q) :
  reachable sizes tex s ->
  Forall (fliesAt (- BULLET_SPEED)) (playerBullets s)
  /\ Forall (fliesAt ENEMY_BULLET_SPEED) (enemyBullets s)
  /\ Forall2 (fun b b' => x b' == x b /\ y b' == y b - dt / 2)
       (playerBullets s) (playerBullets (worldStep dt s))
  /\ Forall2 (fun b b' => x b' == x b /\ y b' == y b + dt / 5)
       (enemyBullets s) (enemyBullets (worldStep dt s)).
Proof.
  intros Hr. destruct (reachable_bulletsOk sizes tex s Hr) as [Hp He].
  split; [exact Hp|]. split; [exact He|].
  unfold worldStep. scene_cbn.
  rewrite Forall_forall in Hp. rewrite Forall_forall in He.
  split; apply Forall2_map_r; intros b Hb.
  - destruct (integrate_straight _ dt b (Hp b Hb)) as [Hx Hy].
    split; [exact Hx|]. rewrite Hy. unfold BULLET_SPEED. field.
  - destruct (integrate_straight _ dt b (He b Hb)) as [Hx Hy].
    split; [exact Hx|]. rewrite Hy. unfold ENEMY_BULLET_SPEED. field.
Qed.

Lemma bullets_fly_straight_witness :
  reachable demoSizes demoTextures sceneWithShot
  /\ Forall (fliesAt (- BULLET_SPEED)) (playerBullets sceneWithShot).
Proof.
  assert (Hr : reachable demoSizes demoTextures sceneWithShot).
  { unfold sceneWithShot, sceneUnderFire.
    apply reachable_run, reachable_run, reachable_initial. }
  split; [exact Hr|].
  exact (proj1 (bullets_fly_straight demoSizes demoTextures sceneWithShot 16
                  Hr)).
Defined.
